(** * A dynamic open-addressing hashmap with byte-string keys

    Shallow embedding of [hashmap.c] / [hashmap.h] and verification of the
    properties listed in the repository's specification.

    Conventions of the embedding:
    - an [unsigned] is a [Z] in the range [0, 2^32); every operation that can
      wrap in C is written with [u32];
    - a pointer is a [Z]; [NULL] is [0];
    - key bytes live in a read-only memory [mem : Z -> byte]; the table
      stores key pointers and lengths and never copies the bytes;
    - the bucket array a [Hashmap] points to is the list [Hashmap.data];
      the null array pointer is the empty list;
    - the allocator is an oracle: the [n]-th call of [calloc] succeeds when
      [calloc_ok n] holds; the [Heap] state counts the calls made and the
      arrays that are currently live. *)

From Stdlib Require Import ZArith List Bool Lia Sorted.
From Stdlib.Strings Require Import Byte.
From stdpp Require Import base list strings.

Local Open Scope Z_scope.

(** ** Data model (hashmap.h) *)

Definition HASHMAP_MAX_CHAIN_LENGTH : Z := 8.

Definition NULL : Z := 0.

Module HashmapElement.
Record t : Type := mk {
  key : Z;        (* const char* key *)
  keyLen : Z;     (* unsigned keyLen *)
  used : bool;    (* bool used *)
  data : Z        (* void* data *)
}.
End HashmapElement.

Module Hashmap.
Record t : Type := mk {
  tableSize : Z;                  (* unsigned tableSize *)
  size : Z;                       (* unsigned size *)
  data : list HashmapElement.t    (* HashmapElement* data *)
}.
End Hashmap.

(** The all-zero element: what [calloc] and [memset (elem, 0, ...)] leave. *)
Definition zeroElement : HashmapElement.t := HashmapElement.mk NULL 0 false NULL.

(** The all-zero table: what [memset (hashmap, 0, ...)] leaves. *)
Definition zeroHashmap : Hashmap.t := Hashmap.mk 0 0 [].

#[global] Instance HashmapElement_inhabited : Inhabited HashmapElement.t :=
  populate zeroElement.

(** Unsigned 32-bit wrap-around. *)
Definition u32 (x : Z) : Z := x mod 2 ^ 32.

(** [hashmap->data[i]] as an rvalue. Reading outside the array is undefined
    in C; the embedding returns the zero element there. *)
Definition slot (hashmap : Hashmap.t) (i : Z) : HashmapElement.t :=
  Hashmap.data hashmap !!! Z.to_nat i.

(** [hashmap->data[i] = e]. *)
Definition set_slot (hashmap : Hashmap.t) (i : Z) (e : HashmapElement.t) : Hashmap.t :=
  Hashmap.mk (Hashmap.tableSize hashmap) (Hashmap.size hashmap)
    (<[Z.to_nat i := e]> (Hashmap.data hashmap)).

(** [static const unsigned crc32tab[]] of [hashmapCRC32]. *)
Definition crc32tab : list Z := [
    0x00000000; 0xF26B8303; 0xE13B70F7; 0x1350F3F4; 0xC79A971F; 0x35F1141C;
    0x26A1E7E8; 0xD4CA64EB; 0x8AD958CF; 0x78B2DBCC; 0x6BE22838; 0x9989AB3B;
    0x4D43CFD0; 0xBF284CD3; 0xAC78BF27; 0x5E133C24; 0x105EC76F; 0xE235446C;
    0xF165B798; 0x030E349B; 0xD7C45070; 0x25AFD373; 0x36FF2087; 0xC494A384;
    0x9A879FA0; 0x68EC1CA3; 0x7BBCEF57; 0x89D76C54; 0x5D1D08BF; 0xAF768BBC;
    0xBC267848; 0x4E4DFB4B; 0x20BD8EDE; 0xD2D60DDD; 0xC186FE29; 0x33ED7D2A;
    0xE72719C1; 0x154C9AC2; 0x061C6936; 0xF477EA35; 0xAA64D611; 0x580F5512;
    0x4B5FA6E6; 0xB93425E5; 0x6DFE410E; 0x9F95C20D; 0x8CC531F9; 0x7EAEB2FA;
    0x30E349B1; 0xC288CAB2; 0xD1D83946; 0x23B3BA45; 0xF779DEAE; 0x05125DAD;
    0x1642AE59; 0xE4292D5A; 0xBA3A117E; 0x4851927D; 0x5B016189; 0xA96AE28A;
    0x7DA08661; 0x8FCB0562; 0x9C9BF696; 0x6EF07595; 0x417B1DBC; 0xB3109EBF;
    0xA0406D4B; 0x522BEE48; 0x86E18AA3; 0x748A09A0; 0x67DAFA54; 0x95B17957;
    0xCBA24573; 0x39C9C670; 0x2A993584; 0xD8F2B687; 0x0C38D26C; 0xFE53516F;
    0xED03A29B; 0x1F682198; 0x5125DAD3; 0xA34E59D0; 0xB01EAA24; 0x42752927;
    0x96BF4DCC; 0x64D4CECF; 0x77843D3B; 0x85EFBE38; 0xDBFC821C; 0x2997011F;
    0x3AC7F2EB; 0xC8AC71E8; 0x1C661503; 0xEE0D9600; 0xFD5D65F4; 0x0F36E6F7;
    0x61C69362; 0x93AD1061; 0x80FDE395; 0x72966096; 0xA65C047D; 0x5437877E;
    0x4767748A; 0xB50CF789; 0xEB1FCBAD; 0x197448AE; 0x0A24BB5A; 0xF84F3859;
    0x2C855CB2; 0xDEEEDFB1; 0xCDBE2C45; 0x3FD5AF46; 0x7198540D; 0x83F3D70E;
    0x90A324FA; 0x62C8A7F9; 0xB602C312; 0x44694011; 0x5739B3E5; 0xA55230E6;
    0xFB410CC2; 0x092A8FC1; 0x1A7A7C35; 0xE811FF36; 0x3CDB9BDD; 0xCEB018DE;
    0xDDE0EB2A; 0x2F8B6829; 0x82F63B78; 0x709DB87B; 0x63CD4B8F; 0x91A6C88C;
    0x456CAC67; 0xB7072F64; 0xA457DC90; 0x563C5F93; 0x082F63B7; 0xFA44E0B4;
    0xE9141340; 0x1B7F9043; 0xCFB5F4A8; 0x3DDE77AB; 0x2E8E845F; 0xDCE5075C;
    0x92A8FC17; 0x60C37F14; 0x73938CE0; 0x81F80FE3; 0x55326B08; 0xA759E80B;
    0xB4091BFF; 0x466298FC; 0x1871A4D8; 0xEA1A27DB; 0xF94AD42F; 0x0B21572C;
    0xDFEB33C7; 0x2D80B0C4; 0x3ED04330; 0xCCBBC033; 0xA24BB5A6; 0x502036A5;
    0x4370C551; 0xB11B4652; 0x65D122B9; 0x97BAA1BA; 0x84EA524E; 0x7681D14D;
    0x2892ED69; 0xDAF96E6A; 0xC9A99D9E; 0x3BC21E9D; 0xEF087A76; 0x1D63F975;
    0x0E330A81; 0xFC588982; 0xB21572C9; 0x407EF1CA; 0x532E023E; 0xA145813D;
    0x758FE5D6; 0x87E466D5; 0x94B49521; 0x66DF1622; 0x38CC2A06; 0xCAA7A905;
    0xD9F75AF1; 0x2B9CD9F2; 0xFF56BD19; 0x0D3D3E1A; 0x1E6DCDEE; 0xEC064EED;
    0xC38D26C4; 0x31E6A5C7; 0x22B65633; 0xD0DDD530; 0x0417B1DB; 0xF67C32D8;
    0xE52CC12C; 0x1747422F; 0x49547E0B; 0xBB3FFD08; 0xA86F0EFC; 0x5A048DFF;
    0x8ECEE914; 0x7CA56A17; 0x6FF599E3; 0x9D9E1AE0; 0xD3D3E1AB; 0x21B862A8;
    0x32E8915C; 0xC083125F; 0x144976B4; 0xE622F5B7; 0xF5720643; 0x07198540;
    0x590AB964; 0xAB613A67; 0xB831C993; 0x4A5A4A90; 0x9E902E7B; 0x6CFBAD78;
    0x7FAB5E8C; 0x8DC0DD8F; 0xE330A81A; 0x115B2B19; 0x020BD8ED; 0xF0605BEE;
    0x24AA3F05; 0xD6C1BC06; 0xC5914FF2; 0x37FACCF1; 0x69E9F0D5; 0x9B8273D6;
    0x88D28022; 0x7AB90321; 0xAE7367CA; 0x5C18E4C9; 0x4F48173D; 0xBD23943E;
    0xF36E6F75; 0x0105EC76; 0x12551F82; 0xE03E9C81; 0x34F4F86A; 0xC69F7B69;
    0xD5CF889D; 0x27A40B9E; 0x79B737BA; 0x8BDCB4B9; 0x988C474D; 0x6AE7C44E;
    0xBE2DA0A5; 0x4C4623A6; 0x5F16D052; 0xAD7D5351
  ].

(** ** The allocator *)

Record Heap : Type := mkHeap {
  calls : nat;   (* number of calloc calls made so far *)
  live : nat     (* number of arrays allocated and not yet freed *)
}.

(** [free (p)]: freeing the null pointer does nothing. *)
Definition free (hp : Heap) (p : list HashmapElement.t) : Heap :=
  match p with
  | [] => hp
  | _ :: _ => mkHeap (calls hp) (Nat.pred (live hp))
  end.

(** [hashmapDestroy]: free the array and zero the structure. *)
Definition hashmapDestroy (hp : Heap) (hashmap : Hashmap.t) : Heap * Hashmap.t :=
  (free hp (Hashmap.data hashmap), zeroHashmap).

(** ** hashmapApplyIterator *)

(** A visitor [int f (void* const context, HashmapElement* const elem)]:
    it may update the state behind [context] and the element behind [elem]
    and returns its flag. [None] stands for a call that does not return. *)
Definition Visitor (C : Type) : Type :=
  C -> HashmapElement.t -> option (C * HashmapElement.t * Z).

Fixpoint hashmapApplyIterator_loop {C : Type} (f : Visitor C) (n : nat) (i : Z)
    (hashmap : Hashmap.t) (context : C) : option (Hashmap.t * C * Z) :=
  match n with
  | O => Some (hashmap, context, 0)
  | S n' =>
      let elem := slot hashmap i in
      if HashmapElement.used elem then
        match f context elem with
        | None => None
        | Some (context, elem, retFlag) =>
            if retFlag =? -1 then (* remove item *)
              hashmapApplyIterator_loop f n' (i + 1)
                (Hashmap.mk (Hashmap.tableSize hashmap) (u32 (Hashmap.size hashmap - 1))
                   (<[Z.to_nat i := zeroElement]> (Hashmap.data hashmap)))
                context
            else if retFlag =? 0 then (* continue iterating *)
              hashmapApplyIterator_loop f n' (i + 1) (set_slot hashmap i elem) context
            else (* early exit *)
              Some (set_slot hashmap i elem, context, 1)
        end
      else hashmapApplyIterator_loop f n' (i + 1) hashmap context
  end.

Definition hashmapApplyIterator {C : Type} (hashmap : Hashmap.t) (f : Visitor C)
    (context : C) : option (Hashmap.t * C * Z) :=
  hashmapApplyIterator_loop f (Z.to_nat (Hashmap.tableSize hashmap)) 0 hashmap context.

(** ** hashmapDestroyWithOwnership *)

(** The last component tells whether the diagnostic
    "Failed to deallocate hashmap entries" is printed. *)
Definition hashmapDestroyWithOwnership {C : Type} (hp : Heap) (hashmap : Hashmap.t)
    (iterator : Visitor C) (context : C) : option (Heap * Hashmap.t * C * bool) :=
  match hashmapApplyIterator hashmap iterator context with
  | None => None
  | Some (hashmap, context, flag) =>
      let '(hp, hashmap) := hashmapDestroy hp hashmap in
      Some (hp, hashmap, context, negb (flag =? 0))
  end.

Section Operations.

(** The read-only memory holding the key bytes. *)
Variable mem : Z -> byte.

(** The allocation oracle. *)
Variable calloc_ok : nat -> bool.

(** [(unsigned char) s[i]] *)
Definition byte_at (p : Z) : Z := Z.of_N (Byte.to_N (mem p)).

(** [calloc (n, sizeof (HashmapElement))]: a zero-filled array, or the null
    pointer when the oracle refuses the call. *)
Definition calloc (hp : Heap) (n : Z) : Heap * list HashmapElement.t :=
  if calloc_ok (calls hp)
  then (mkHeap (S (calls hp)) (S (live hp)), replicate (Z.to_nat n) zeroElement)
  else (mkHeap (S (calls hp)) (live hp), []).

(** [memcmp (s1, s2, n)]: sign of the first differing byte. *)
Fixpoint memcmp (s1 s2 : Z) (n : nat) : Z :=
  match n with
  | O => 0
  | S n' =>
      if byte_at s1 <? byte_at s2 then -1
      else if byte_at s2 <? byte_at s1 then 1
      else memcmp (s1 + 1) (s2 + 1) n'
  end.

(** ** hashmapCreate *)

(** [outHashmap] is the previous content of the caller's structure. *)
Definition hashmapCreate (hp : Heap) (initialSize : Z) (outHashmap : Hashmap.t)
  : Heap * Hashmap.t * Z :=
  let outHashmap := Hashmap.mk initialSize 0 (Hashmap.data outHashmap) in
  if (initialSize =? 0) || negb (Z.land initialSize (u32 (initialSize - 1)) =? 0)
  then (hp, outHashmap, 1)
  else
    let '(hp', arr) := calloc hp initialSize in
    let outHashmap := Hashmap.mk initialSize 0 arr in
    match arr with
    | [] => (hp', outHashmap, 1)
    | _ :: _ => (hp', outHashmap, 0)
    end.

(** ** hashmapCheckIfMatch *)

Definition hashmapCheckIfMatch (element : HashmapElement.t) (key len : Z) : bool :=
  (HashmapElement.keyLen element =? len) && (memcmp (HashmapElement.key element) key (Z.to_nat len) =? 0).

(** ** hashmapCRC32 and hashmapStringHasher *)

Fixpoint hashmapCRC32_loop (s : Z) (n : nat) (i : Z) (crc32val : Z) : Z :=
  match n with
  | O => crc32val
  | S n' =>
      hashmapCRC32_loop s n' (i + 1)
        (Z.lxor
           (nth (Z.to_nat (Z.lxor (crc32val mod 256) (byte_at (s + i)))) crc32tab 0)
           (Z.shiftr crc32val 8))
  end.

Definition hashmapCRC32 (s len : Z) : Z :=
  hashmapCRC32_loop s (Z.to_nat len) 0 0.

Definition hashmapStringHasher (hashmap : Hashmap.t) (keystring len : Z) : Z :=
  let key := hashmapCRC32 keystring len in
  (* Robert Jenkins' 32 bit Mix Function *)
  let key := u32 (key + u32 (Z.shiftl key 12)) in
  let key := Z.lxor key (Z.shiftr key 22) in
  let key := u32 (key + u32 (Z.shiftl key 4)) in
  let key := Z.lxor key (Z.shiftr key 9) in
  let key := u32 (key + u32 (Z.shiftl key 10)) in
  let key := Z.lxor key (Z.shiftr key 2) in
  let key := u32 (key + u32 (Z.shiftl key 7)) in
  let key := Z.lxor key (Z.shiftr key 12) in
  (* Knuth's Multiplicative Method *)
  let key := u32 (Z.shiftr key 3 * 2654435761) in
  key mod Hashmap.tableSize hashmap.

(** ** hashmapGetBucket *)

(** First loop: [inl curr] when the key is found at [curr], otherwise
    [inr totalUsed]. *)
Fixpoint hashmapGetBucket_find (hashmap : Hashmap.t) (key len : Z)
    (n : nat) (curr : Z) (totalUsed : Z) : Z + Z :=
  match n with
  | O => inr totalUsed
  | S n' =>
      let used_ := HashmapElement.used (slot hashmap curr) in
      let totalUsed := totalUsed + (if used_ then 1 else 0) in
      if used_ && hashmapCheckIfMatch (slot hashmap curr) key len
      then inl curr
      else hashmapGetBucket_find hashmap key len n'
             (u32 (curr + 1) mod Hashmap.tableSize hashmap) totalUsed
  end.

(** Second loop: the first slot of the window that is not used. *)
Fixpoint hashmapGetBucket_free (hashmap : Hashmap.t) (n : nat) (curr : Z) : option Z :=
  match n with
  | O => None
  | S n' =>
      if negb (HashmapElement.used (slot hashmap curr)) then Some curr
      else hashmapGetBucket_free hashmap n' (u32 (curr + 1) mod Hashmap.tableSize hashmap)
  end.

(** [Some outIndex] for [true] with [*outIndex] written, [None] for [false]. *)
Definition hashmapGetBucket (hashmap : Hashmap.t) (key len : Z) : option Z :=
  if Hashmap.size hashmap >=? Hashmap.tableSize hashmap then None
  else
    let start := hashmapStringHasher hashmap key len in
    match hashmapGetBucket_find hashmap key len
            (Z.to_nat HASHMAP_MAX_CHAIN_LENGTH) start 0 with
    | inl curr => Some curr
    | inr totalUsed =>
        if HASHMAP_MAX_CHAIN_LENGTH >? totalUsed
        then hashmapGetBucket_free hashmap (Z.to_nat HASHMAP_MAX_CHAIN_LENGTH) start
        else None
    end.

(** ** hashmapGet *)

Fixpoint hashmapGet_loop (hashmap : Hashmap.t) (key len : Z) (n : nat) (curr : Z) : Z :=
  match n with
  | O => NULL
  | S n' =>
      if HashmapElement.used (slot hashmap curr) && hashmapCheckIfMatch (slot hashmap curr) key len
      then HashmapElement.data (slot hashmap curr)
      else hashmapGet_loop hashmap key len n' (u32 (curr + 1) mod Hashmap.tableSize hashmap)
  end.

Definition hashmapGet (hashmap : Hashmap.t) (key len : Z) : Z :=
  hashmapGet_loop hashmap key len (Z.to_nat HASHMAP_MAX_CHAIN_LENGTH)
    (hashmapStringHasher hashmap key len).

(** ** hashmapRemove *)

Fixpoint hashmapRemove_loop (hashmap : Hashmap.t) (key len : Z) (n : nat) (curr : Z)
  : Hashmap.t * Z :=
  match n with
  | O => (hashmap, 1)
  | S n' =>
      if HashmapElement.used (slot hashmap curr) && hashmapCheckIfMatch (slot hashmap curr) key len
      then (Hashmap.mk (Hashmap.tableSize hashmap) (u32 (Hashmap.size hashmap - 1))
              (<[Z.to_nat curr := zeroElement]> (Hashmap.data hashmap)), 0)
      else hashmapRemove_loop hashmap key len n' (u32 (curr + 1) mod Hashmap.tableSize hashmap)
  end.

Definition hashmapRemove (hashmap : Hashmap.t) (key len : Z) : Hashmap.t * Z :=
  hashmapRemove_loop hashmap key len (Z.to_nat HASHMAP_MAX_CHAIN_LENGTH)
    (hashmapStringHasher hashmap key len).

(** ** hashmapPut, hashmapRehashIterator and hashmapExpand

    The three functions are mutually recursive through the function pointer
    handed to [hashmapApplyIterator]. Every nested call works on a table
    twice as large, so the recursion is bounded; the embedding makes the
    bound explicit as [fuel] and [None] stands for an exhausted bound. *)

Definition PutFn : Type :=
  Heap -> Hashmap.t -> Z -> Z -> Z -> option (Heap * Hashmap.t * Z).

(** The context is the new table together with the heap it allocates from. *)
Definition hashmapRehashIterator_with (put : PutFn) : Visitor (Heap * Hashmap.t) :=
  fun '(hp, newHashmap) element =>
    match put hp newHashmap (HashmapElement.key element)
            (HashmapElement.keyLen element) (HashmapElement.data element) with
    | None => None
    | Some (hp, newHashmap, flag) =>
        if negb (flag =? 0) then Some ((hp, newHashmap), element, 1)
        else (* clear old value to avoid stale pointers *)
          Some ((hp, newHashmap), element, -1)
    end.

Definition hashmapExpand_with (put : PutFn) (hp : Heap) (hashmap : Hashmap.t)
  : option (Heap * Hashmap.t * Z) :=
  let newSize := u32 (2 * Hashmap.tableSize hashmap) in
  let '(hp, newHash, flag) := hashmapCreate hp newSize zeroHashmap in
  if negb (flag =? 0) then Some (hp, hashmap, flag)
  else
    (* copy the old elements to the new hashmap *)
    match hashmapApplyIterator hashmap (hashmapRehashIterator_with put) (hp, newHash) with
    | None => None
    | Some (hashmap, (hp, newHash), flag) =>
        if negb (flag =? 0) then Some (hp, hashmap, flag)
        else
          let '(hp, _) := hashmapDestroy hp hashmap in
          (* replace new hashmap *)
          Some (hp, newHash, 0)
    end.

(** The stores that follow the loop of [hashmapPut]. *)
Definition hashmapPut_store (hashmap : Hashmap.t) (outIndex key len value : Z)
  : Hashmap.t :=
  let e := slot hashmap outIndex in
  let hashmap :=
    set_slot hashmap outIndex (HashmapElement.mk key len (HashmapElement.used e) value) in
  if negb (HashmapElement.used (slot hashmap outIndex)) then
    Hashmap.mk (Hashmap.tableSize hashmap) (u32 (Hashmap.size hashmap + 1))
      (<[Z.to_nat outIndex := HashmapElement.mk key len true value]> (Hashmap.data hashmap))
  else hashmap.

Fixpoint hashmapPut_fuel (fuel : nat) (hp : Heap) (hashmap : Hashmap.t)
    (key len value : Z) : option (Heap * Hashmap.t * Z) :=
  match hashmapGetBucket hashmap key len with
  | Some outIndex => Some (hp, hashmapPut_store hashmap outIndex key len value, 0)
  | None =>
      match fuel with
      | O => None
      | S fuel' =>
          match hashmapExpand_with (hashmapPut_fuel fuel') hp hashmap with
          | None => None
          | Some (hp, hashmap, flag) =>
              if negb (flag =? 0) then Some (hp, hashmap, 1)
              else hashmapPut_fuel fuel' hp hashmap key len value
          end
      end
  end.

(** A table of [2^k] slots can double at most [32 - k] times before
    [2 * tableSize] wraps to [0]. *)
Definition put_fuel : nat := 32.

Definition hashmapPut : PutFn := hashmapPut_fuel put_fuel.

Definition hashmapRehashIterator : Visitor (Heap * Hashmap.t) :=
  hashmapRehashIterator_with hashmapPut.

Definition hashmapExpand (hp : Heap) (hashmap : Hashmap.t)
  : option (Heap * Hashmap.t * Z) :=
  hashmapExpand_with hashmapPut hp hashmap.

End Operations.

(** * Specification vocabulary *)

Definition is_pow2 (n : Z) : Prop := exists k : Z, 0 <= k /\ n = 2 ^ k.

(** Number of occupied slots of a bucket array. *)
Fixpoint count_used (l : list HashmapElement.t) : Z :=
  match l with
  | [] => 0
  | e :: l' => (if HashmapElement.used e then 1 else 0) + count_used l'
  end.

(** Slot [i] overwritten with [e] and the count set to [count]. *)
Definition update_slot (hashmap : Hashmap.t) (i : Z) (e : HashmapElement.t) (count : Z)
  : Hashmap.t :=
  Hashmap.mk (Hashmap.tableSize hashmap) count (<[Z.to_nat i := e]> (Hashmap.data hashmap)).

(** The slot [i] with every field zeroed and the count decremented: the
    effect of the [memset] and [size--] of [hashmapRemove] and of the
    iterator's removal. *)
Definition clear_slot (hashmap : Hashmap.t) (i : Z) : Hashmap.t :=
  Hashmap.mk (Hashmap.tableSize hashmap) (u32 (Hashmap.size hashmap - 1))
    (<[Z.to_nat i := zeroElement]> (Hashmap.data hashmap)).

(** Indices of the occupied slots, in ascending order. *)
Definition occupied (hashmap : Hashmap.t) : list Z :=
  filter (fun i => HashmapElement.used (slot hashmap i) = true)
    (seqZ 0 (Hashmap.tableSize hashmap)).

(** The traversal as the specification words it: the visitor is applied to
    the given slots one after the other; [-1] clears the slot, [0]
    continues, anything else stops. *)
Fixpoint visit_slots {C : Type} (f : Visitor C) (indices : list Z)
    (hashmap : Hashmap.t) (context : C) : option (Hashmap.t * C * Z) :=
  match indices with
  | [] => Some (hashmap, context, 0)
  | i :: rest =>
      match f context (slot hashmap i) with
      | None => None
      | Some (context, elem, retFlag) =>
          if retFlag =? -1 then visit_slots f rest (clear_slot hashmap i) context
          else if retFlag =? 0 then visit_slots f rest (set_slot hashmap i elem) context
          else Some (set_slot hashmap i elem, context, 1)
      end
  end.


(** A visitor that does not write through the element pointer. *)
Definition read_only {C : Type} (f : Visitor C) : Prop :=
  forall context elem context' elem' retFlag,
    f context elem = Some (context', elem', retFlag) -> elem' = elem.

(** The visitor called on the given elements one after the other, the
    context going from each call to the next. *)
Fixpoint visit_entries {C : Type} (f : Visitor C) (elems : list HashmapElement.t)
    (context : C) : option C :=
  match elems with
  | [] => Some context
  | elem :: rest =>
      match f context elem with
      | None => None
      | Some (context, _, _) => visit_entries f rest context
      end
  end.

(** The first index that satisfies [P] among [n] probes from [curr]; the
    four probe loops of the source are instances of it. *)
Fixpoint scan (P : Z -> bool) (tableSize : Z) (n : nat) (curr : Z) : option Z :=
  match n with
  | O => None
  | S n' =>
      if P curr then Some curr
      else scan P tableSize n' (u32 (curr + 1) mod tableSize)
  end.


Section Specification.

Variable mem : Z -> byte.
Variable calloc_ok : nat -> bool.

(** Two keys are equal: same length and same bytes. *)
Definition key_eqb (key1 len1 key2 len2 : Z) : bool :=
  (len1 =? len2) && (memcmp mem key1 key2 (Z.to_nat len2) =? 0).

(** A visitor that leaves the key of the element it is given alone: the
    [used] flag, the key length and the key bytes are as it found them. It
    may replace the value, and the key pointer by a pointer to the same
    bytes. *)
Definition keeps_key {C : Type} (f : Visitor C) : Prop :=
  forall context elem context' elem' retFlag,
    f context elem = Some (context', elem', retFlag) ->
    HashmapElement.used elem' = HashmapElement.used elem
    /\ key_eqb (HashmapElement.key elem') (HashmapElement.keyLen elem')
         (HashmapElement.key elem) (HashmapElement.keyLen elem) = true.

(** The [j]-th index of the probe window of a key. *)
Definition probe (hashmap : Hashmap.t) (key len j : Z) : Z :=
  (hashmapStringHasher mem hashmap key len + j) mod Hashmap.tableSize hashmap.

(** Slot [i] is occupied and holds a key equal to [(key, len)]. *)
Definition occupied_by (hashmap : Hashmap.t) (i key len : Z) : bool :=
  HashmapElement.used (slot hashmap i)
  && hashmapCheckIfMatch mem (slot hashmap i) key len.

Definition present (hashmap : Hashmap.t) (key len : Z) : Prop :=
  exists i, 0 <= i < Hashmap.tableSize hashmap /\ occupied_by hashmap i key len = true.

(** Some occupied slot below [bound] binds the key to [value]. *)
Definition holds_below (hashmap : Hashmap.t) (bound key len value : Z) : Prop :=
  exists i, 0 <= i < bound
    /\ occupied_by hashmap i key len = true
    /\ HashmapElement.data (slot hashmap i) = value.

(** Some occupied slot binds the key to [value]. *)
Definition holds (hashmap : Hashmap.t) (key len value : Z) : Prop :=
  holds_below hashmap (Hashmap.tableSize hashmap) key len value.

(** No two occupied slots hold equal keys. *)
Definition no_duplicates (hashmap : Hashmap.t) : Prop :=
  forall i i',
    0 <= i < Hashmap.tableSize hashmap -> 0 <= i' < Hashmap.tableSize hashmap ->
    HashmapElement.used (slot hashmap i) = true ->
    occupied_by hashmap i' (HashmapElement.key (slot hashmap i))
      (HashmapElement.keyLen (slot hashmap i)) = true ->
    i' = i.

(** Every occupied slot lies in the probe window of the key it holds. *)
Definition in_window (hashmap : Hashmap.t) : Prop :=
  forall i,
    0 <= i < Hashmap.tableSize hashmap ->
    HashmapElement.used (slot hashmap i) = true ->
    exists j, 0 <= j < HASHMAP_MAX_CHAIN_LENGTH
      /\ probe hashmap (HashmapElement.key (slot hashmap i))
           (HashmapElement.keyLen (slot hashmap i)) j = i.

(** The representation invariant of a live table. *)
Record wf (hashmap : Hashmap.t) : Prop := mk_wf {
  wf_pow2 : exists k, 0 <= k < 32 /\ Hashmap.tableSize hashmap = 2 ^ k;
  wf_len : Z.of_nat (length (Hashmap.data hashmap)) = Hashmap.tableSize hashmap;
  wf_size : Hashmap.size hashmap = count_used (Hashmap.data hashmap);
  wf_window : in_window hashmap;
  wf_nodup : no_duplicates hashmap
}.

(** What a call of [hashmapPut] on a well-formed table guarantees. *)
Definition put_post (hashmap : Hashmap.t) (key len value : Z)
    (hashmap' : Hashmap.t) (flag : Z) : Prop :=
  wf hashmap'
  /\ Hashmap.tableSize hashmap <= Hashmap.tableSize hashmap'
  /\ (flag = 0 \/ flag = 1)
  /\ (flag = 0 ->
      (forall key' len' value',
         holds hashmap' key' len' value' <->
         (key_eqb key' len' key len = true /\ value' = value)
         \/ (key_eqb key' len' key len = false /\ holds hashmap key' len' value'))
      /\ (present hashmap key len -> Hashmap.size hashmap' = Hashmap.size hashmap)
      /\ (~ present hashmap key len ->
          Hashmap.size hashmap' = Hashmap.size hashmap + 1)
      /\ exists i, 0 <= i < Hashmap.tableSize hashmap'
           /\ slot hashmap' i = HashmapElement.mk key len true value).

Definition put_correct (put : PutFn) : Prop :=
  forall hp hashmap key len value hp' hashmap' flag,
    wf hashmap ->
    put hp hashmap key len value = Some (hp', hashmap', flag) ->
    put_post hashmap key len value hashmap' flag.

(** What a call of [hashmapExpand] on a well-formed table guarantees. *)
Definition expand_post (hashmap hashmap' : Hashmap.t) (flag : Z) : Prop :=
  wf hashmap'
  /\ (flag = 0 \/ flag = 1)
  /\ (flag = 0 ->
      2 * Hashmap.tableSize hashmap <= Hashmap.tableSize hashmap'
      /\ (forall key len value,
            holds hashmap' key len value <-> holds hashmap key len value)
      /\ Hashmap.size hashmap' = Hashmap.size hashmap)
  /\ (flag <> 0 ->
      Hashmap.tableSize hashmap' = Hashmap.tableSize hashmap
      /\ (forall key len value,
            holds hashmap' key len value -> holds hashmap key len value)).

(** The state of a rehash that has processed the slots below [i] of the
    table [hashmap0]: the old table has lost exactly these entries and the
    new table holds exactly them. *)
Definition rehash_inv (hashmap0 : Hashmap.t) (i : Z) (hashmap : Hashmap.t)
    (context : Heap * Hashmap.t) : Prop :=
  wf hashmap
  /\ Hashmap.tableSize hashmap = Hashmap.tableSize hashmap0
  /\ (forall j, i <= j < Hashmap.tableSize hashmap0 -> slot hashmap j = slot hashmap0 j)
  /\ (forall j, 0 <= j < i -> HashmapElement.used (slot hashmap j) = false)
  /\ wf (snd context)
  /\ 2 * Hashmap.tableSize hashmap0 <= Hashmap.tableSize (snd context)
  /\ (forall key len value,
        holds (snd context) key len value <-> holds_below hashmap0 i key len value)
  /\ Hashmap.size (snd context) + Hashmap.size hashmap = Hashmap.size hashmap0.

(** The state of a rehash that stopped on a failed re-insertion. *)
Definition rehash_stopped (hashmap0 hashmap : Hashmap.t) (context : Heap * Hashmap.t)
  : Prop :=
  wf hashmap
  /\ Hashmap.tableSize hashmap = Hashmap.tableSize hashmap0
  /\ (forall key len value,
        holds hashmap key len value -> holds hashmap0 key len value).

(** An allocation request issued between the heap states [hp] and [hp']
    was refused. *)
Definition refused (hp hp' : Heap) : Prop :=
  exists n, (calls hp <= n < calls hp')%nat /\ calloc_ok n = false.

(** The allocation requests issued between [hp] and [hp'] are enough to
    double a capacity of [tableSize] slots up to the largest one, [2^31],
    after which [2 * tableSize] wraps to [0]. *)
Definition capacity_exhausted (hp hp' : Heap) (tableSize : Z) : Prop :=
  2 ^ 31 <= 2 ^ (Z.of_nat (calls hp') - Z.of_nat (calls hp)) * tableSize.

(** What the allocation requests of a call tell: the call went from the
    heap [hp] and a capacity of [tableSize] to the heap [hp'], the capacity
    [tableSize'] and the result [flag]. The capacity grows by doubling, one
    request for each doubling at least, and a failure has one of two
    causes. *)
Definition growth_account (hp : Heap) (tableSize : Z) (hp' : Heap) (tableSize' flag : Z)
  : Prop :=
  (calls hp <= calls hp')%nat
  /\ (flag = 0 ->
      tableSize' <= 2 ^ (Z.of_nat (calls hp') - Z.of_nat (calls hp)) * tableSize)
  /\ (flag <> 0 -> refused hp hp' \/ capacity_exhausted hp hp' tableSize).

(** Tables reachable from [hashmapCreate] through the public operations,
    the visitors handed to [hashmapApplyIterator] being those of the class
    [allowed]. [hashmapGet] only reads the table. *)
Inductive reachable_by (allowed : forall C : Type, Visitor C -> Prop)
  : Hashmap.t -> Prop :=
| reach_create hp initialSize out hp' hashmap :
    0 <= initialSize < 2 ^ 32 ->
    hashmapCreate calloc_ok hp initialSize out = (hp', hashmap, 0) ->
    reachable_by allowed hashmap
| reach_put hashmap hp key len value hp' hashmap' flag :
    reachable_by allowed hashmap ->
    hashmapPut mem calloc_ok hp hashmap key len value = Some (hp', hashmap', flag) ->
    reachable_by allowed hashmap'
| reach_get hashmap key len value :
    reachable_by allowed hashmap ->
    hashmapGet mem hashmap key len = value ->
    reachable_by allowed hashmap
| reach_remove hashmap key len hashmap' flag :
    reachable_by allowed hashmap ->
    hashmapRemove mem hashmap key len = (hashmap', flag) ->
    reachable_by allowed hashmap'
| reach_apply (C : Type) hashmap (f : Visitor C) context hashmap' context' flag :
    reachable_by allowed hashmap ->
    allowed C f ->
    hashmapApplyIterator hashmap f context = Some (hashmap', context', flag) ->
    reachable_by allowed hashmap'
| reach_expand hashmap hp hp' hashmap' flag :
    reachable_by allowed hashmap ->
    hashmapExpand mem calloc_ok hp hashmap = Some (hp', hashmap', flag) ->
    reachable_by allowed hashmap'.

(** The tables reachable with visitors that only read the slots. *)
Definition reachable : Hashmap.t -> Prop :=
  reachable_by (fun (C : Type) (f : Visitor C) => read_only f).

(** The tables reachable with any visitor. *)
Definition reachable_any : Hashmap.t -> Prop :=
  reachable_by (fun (C : Type) (f : Visitor C) => True).

End Specification.

(** * A worked scenario

    Key bytes, an allocator that serves two requests and then runs out of
    memory, and a table of sixteen slots built through the public
    operations. It is used to exercise the theorems below on concrete
    inputs and to evaluate a growth that fails half-way. *)

(** The keys ["cj" "ad" "q" "s" "v" "aj" "ae" "j"], then
    ["aa" "o" "b" "ah" "a" "g" "aq"], then ["es"], laid out back to back
    from address [0]. *)
Definition demo_bytes : list byte :=
  String.list_byte_of_string "cjadqsvajaejaaobahagaqes".

Definition demo_mem (p : Z) : byte := nth (Z.to_nat p) demo_bytes x00.

Definition demo_calloc_ok (n : nat) : bool := (n <? 2)%nat.

Inductive Op : Type :=
| OpPut (key len value : Z)
| OpRemove (key len : Z).

Fixpoint run (mem : Z -> byte) (calloc_ok : nat -> bool) (ops : list Op)
    (hp : Heap) (hashmap : Hashmap.t) : option (Heap * Hashmap.t) :=
  match ops with
  | [] => Some (hp, hashmap)
  | OpPut key len value :: rest =>
      match hashmapPut mem calloc_ok hp hashmap key len value with
      | Some (hp, hashmap, _) => run mem calloc_ok rest hp hashmap
      | None => None
      end
  | OpRemove key len :: rest =>
      run mem calloc_ok rest hp (fst (hashmapRemove mem hashmap key len))
  end.

(** Seven keys that fill the slots [9..15], eight keys that are pushed to
    the slots [0..7] behind them, the removal of the first seven, and one
    more key. *)
Definition demo_script : list Op :=
  [ OpPut 12 2 100; OpPut 14 1 101; OpPut 15 1 102; OpPut 16 2 103;
    OpPut 18 1 104; OpPut 19 1 105; OpPut 20 2 106;
    OpPut 0 2 107; OpPut 2 2 108; OpPut 4 1 109; OpPut 5 1 110;
    OpPut 6 1 111; OpPut 7 2 112; OpPut 9 2 113; OpPut 11 1 114;
    OpRemove 12 2; OpRemove 14 1; OpRemove 15 1; OpRemove 16 2;
    OpRemove 18 1; OpRemove 19 1; OpRemove 20 2;
    OpPut 22 2 115 ].

(** The heap after the table has been created. *)
Definition demo_heap : Heap := mkHeap 1 1.

(** The table the script builds: nine entries in sixteen slots. *)
Definition demo_table : Hashmap.t :=
  Hashmap.mk 16 9
    [ HashmapElement.mk 0 2 true 107; HashmapElement.mk 2 2 true 108;
      HashmapElement.mk 4 1 true 109; HashmapElement.mk 5 1 true 110;
      HashmapElement.mk 6 1 true 111; HashmapElement.mk 7 2 true 112;
      HashmapElement.mk 9 2 true 113; HashmapElement.mk 11 1 true 114;
      zeroElement; HashmapElement.mk 22 2 true 115;
      zeroElement; zeroElement; zeroElement; zeroElement; zeroElement; zeroElement ].

(** What a failed [hashmapExpand] leaves of it. *)
Definition demo_drained : Hashmap.t :=
  Hashmap.mk 16 1
    (replicate 9 zeroElement ++ [HashmapElement.mk 22 2 true 115]
     ++ replicate 6 zeroElement).

(** A window of eight occupied slots in a table that is half empty. *)
Definition demo_full_window : Hashmap.t :=
  Hashmap.mk 16 8
    (replicate 8 (HashmapElement.mk 0 1 true 0) ++ replicate 8 zeroElement).

(** A visitor that asks for the removal of every slot. *)
Definition remove_all : Visitor unit := fun context elem => Some (context, elem, -1).


(** * Visitors and callers' sequences *)

Definition always_removes {C : Type} (f : Visitor C) : Prop :=
  forall context elem context' elem' retFlag,
    f context elem = Some (context', elem', retFlag) -> retFlag = -1.

Definition never_removes {C : Type} (f : Visitor C) : Prop :=
  forall context elem context' elem' retFlag,
    f context elem = Some (context', elem', retFlag) -> retFlag <> -1.

(** A caller that gives up at the first [hashmapPut] that fails, as [main]
    does, and ignores the result of [hashmapRemove]. *)
Fixpoint run_checked (mem : Z -> byte) (calloc_ok : nat -> bool) (ops : list Op)
    (hp : Heap) (hashmap : Hashmap.t) : option (Heap * Hashmap.t) :=
  match ops with
  | [] => Some (hp, hashmap)
  | OpPut key len value :: rest =>
      match hashmapPut mem calloc_ok hp hashmap key len value with
      | Some (hp, hashmap, flag) =>
          if flag =? 0 then run_checked mem calloc_ok rest hp hashmap else None
      | None => None
      end
  | OpRemove key len :: rest =>
      run_checked mem calloc_ok rest hp (fst (hashmapRemove mem hashmap key len))
  end.

(** The value an associative map returns for a key after the operations,
    when it returned [before] for it: the last operation on an equal key
    decides. *)
Fixpoint lookup_after (mem : Z -> byte) (ops : list Op) (before key len : Z) : Z :=
  match ops with
  | [] => before
  | OpPut key' len' value :: rest =>
      lookup_after mem rest
        (if key_eqb mem key len key' len' then value else before) key len
  | OpRemove key' len' :: rest =>
      lookup_after mem rest
        (if key_eqb mem key len key' len' then NULL else before) key len
  end.


(** A full table of two slots: [hashmapCreate (2)], then the keys ["cj"]
    and ["ad"]. *)
Definition demo_small_script : list Op := [OpPut 0 2 107; OpPut 2 2 108].

Definition demo_small : Hashmap.t :=
  Hashmap.mk 2 2 [HashmapElement.mk 2 2 true 108; HashmapElement.mk 0 2 true 107].

(** Insertions, a removal and an overwrite through another pointer to the
    same bytes (["a"] is at the addresses [12], [13] and [18]). *)
Definition demo_mixed_script : list Op :=
  [OpPut 0 2 1; OpPut 12 1 2; OpRemove 0 2; OpPut 18 1 3].

(** A visitor that only looks at the slots. *)
Definition keep_all : Visitor nat := fun context elem => Some (S context, elem, 0).

(** A visitor that records the value of the slot and asks for its
    removal. *)
Definition collect_values : Visitor (list Z) :=
  fun context elem => Some (context ++ [HashmapElement.data elem], elem, -1).

(** A visitor that replaces the value of the slot. *)
Definition bump_values : Visitor unit :=
  fun context elem =>
    Some (context,
          HashmapElement.mk (HashmapElement.key elem) (HashmapElement.keyLen elem)
            (HashmapElement.used elem) (HashmapElement.data elem + 1),
          0).

(** A visitor that makes the slot point to the key ["cj"] at address [0]. *)
Definition alias_keys : Visitor unit :=
  fun context elem =>
    Some (context,
          HashmapElement.mk 0 2 (HashmapElement.used elem) (HashmapElement.data elem),
          0).

(** [demo_small] after a traversal with [alias_keys]. *)
Definition demo_aliased : Hashmap.t :=
  Hashmap.mk 2 2 [HashmapElement.mk 0 2 true 108; HashmapElement.mk 0 2 true 107].

(** * Properties *)

(** ** Arithmetic *)

Lemma u32_small (x : Z) : 0 <= x < 2 ^ 32 -> u32 x = x.
Proof. intros H. unfold u32. apply Z.mod_small. exact H. Qed.

Lemma u32_range (x : Z) : 0 <= u32 x < 2 ^ 32.
Proof. unfold u32. apply Z.mod_pos_bound. lia. Qed.

Lemma land_pred_pos (p : positive) :
  Z.land (Z.pos p) (Z.pos p - 1) = 0 -> is_pow2 (Z.pos p).
Proof.
  induction p as [q IH|q IH|]; intros H.
  - exfalso. replace (Z.pos q~1 - 1) with (Z.pos q~0) in H by lia.
    assert (T : Z.land (Z.pos q~1) (Z.pos q~0) = Z.pos q~0).
    { apply Z.bits_inj'. intros n Hn. rewrite Z.land_spec.
      destruct (Z.testbit (Z.pos q~0) n) eqn:E; [|apply andb_false_r].
      rewrite andb_true_r. destruct (Z.eq_dec n 0) as [->|Hn0]; [reflexivity|].
      replace n with (Z.succ (n - 1)) in E |- * by lia.
      change (Z.pos q~1) with (2 * Z.pos q + 1).
      change (Z.pos q~0) with (2 * Z.pos q) in E.
      rewrite Z.testbit_odd_succ by lia. rewrite Z.testbit_even_succ in E by lia.
      exact E. }
    rewrite T in H. discriminate.
  - assert (E : Z.land (Z.pos q) (Z.pos q - 1) = 0).
    { apply Z.bits_inj'. intros n Hn. rewrite Z.bits_0.
      assert (T := f_equal (fun z => Z.testbit z (Z.succ n)) H). simpl in T.
      rewrite Z.bits_0 in T. rewrite Z.land_spec in T |- *.
      replace (Z.pos q~0) with (2 * Z.pos q) in T by lia.
      replace (2 * Z.pos q - 1) with (2 * (Z.pos q - 1) + 1) in T by lia.
      rewrite Z.testbit_even_succ, Z.testbit_odd_succ in T by lia. exact T. }
    destruct (IH E) as (k & Hk & Ek). exists (k + 1). split; [lia|].
    rewrite Z.pow_add_r by lia. lia.
  - exists 0. split; [lia|reflexivity].
Qed.

Lemma land_pred_pow2 (k : Z) : 0 <= k -> Z.land (2 ^ k) (2 ^ k - 1) = 0.
Proof.
  intros Hk. replace (2 ^ k - 1) with (Z.ones k) by (rewrite Z.ones_equiv; lia).
  rewrite Z.land_ones by lia. apply Z.mod_same. lia.
Qed.

Lemma is_pow2_pos (n : Z) : is_pow2 n -> 0 < n.
Proof. intros (k & Hk & ->). apply Z.pow_pos_nonneg; lia. Qed.

(** The test of [hashmapCreate] accepts exactly the nonzero powers of two. *)
Lemma pow2_test (n : Z) :
  0 <= n < 2 ^ 32 ->
  ((n =? 0) || negb (Z.land n (u32 (n - 1)) =? 0) = false <-> is_pow2 n).
Proof.
  intros Hn. split.
  - intros H. apply orb_false_iff in H as [H0 H1].
    apply Z.eqb_neq in H0. apply negb_false_iff, Z.eqb_eq in H1.
    rewrite u32_small in H1 by lia.
    destruct n as [|p|p]; [lia| |lia]. apply land_pred_pos. exact H1.
  - intros Hp. pose proof (is_pow2_pos _ Hp) as Hpos.
    destruct Hp as (k & Hk & ->). apply orb_false_iff. split.
    + apply Z.eqb_neq. lia.
    + apply negb_false_iff, Z.eqb_eq. rewrite u32_small by lia.
      apply land_pred_pow2. exact Hk.
Qed.

Lemma step_mod (curr tableSize : Z) :
  0 <= curr < tableSize -> tableSize < 2 ^ 32 ->
  u32 (curr + 1) mod tableSize = (curr + 1) mod tableSize.
Proof. intros H1 H2. rewrite u32_small by lia. reflexivity. Qed.

(** ** The probe sequence *)

Section Scan.

Variable P : Z -> bool.
Variable tableSize : Z.
Hypothesis tableSize_range : 0 < tableSize < 2 ^ 32.

Lemma scan_Some (n : nat) (curr i : Z) :
  0 <= curr < tableSize ->
  scan P tableSize n curr = Some i ->
  exists j, 0 <= j < Z.of_nat n /\ i = (curr + j) mod tableSize /\ P i = true
    /\ forall j', 0 <= j' < j -> P ((curr + j') mod tableSize) = false.
Proof.
  revert curr. induction n as [|n IH]; intros curr Hc H; simpl in H; [discriminate|].
  destruct (P curr) eqn:E.
  - inversion H; subst i. exists 0. repeat split; try lia.
    + rewrite Z.add_0_r, Z.mod_small; lia.
    + exact E.
  - rewrite step_mod in H by lia.
    apply IH in H as (j & Hj & -> & HP & Hmin); [|apply Z.mod_pos_bound; lia].
    exists (j + 1). repeat split; try lia.
    + rewrite Z.add_mod_idemp_l by lia. f_equal. lia.
    + exact HP.
    + intros j' Hj'. destruct (Z.eq_dec j' 0) as [->|Hne].
      * rewrite Z.add_0_r, Z.mod_small by lia. exact E.
      * specialize (Hmin (j' - 1) ltac:(lia)).
        rewrite Z.add_mod_idemp_l in Hmin by lia.
        replace (curr + 1 + (j' - 1)) with (curr + j') in Hmin by lia. exact Hmin.
Qed.

Lemma scan_None (n : nat) (curr : Z) :
  0 <= curr < tableSize ->
  scan P tableSize n curr = None ->
  forall j, 0 <= j < Z.of_nat n -> P ((curr + j) mod tableSize) = false.
Proof.
  revert curr. induction n as [|n IH]; intros curr Hc H j Hj; [lia|]. simpl in H.
  destruct (P curr) eqn:E; [discriminate|].
  rewrite step_mod in H by lia.
  destruct (Z.eq_dec j 0) as [->|Hne].
  - rewrite Z.add_0_r, Z.mod_small by lia. exact E.
  - specialize (IH _ ltac:(apply Z.mod_pos_bound; lia) H (j - 1) ltac:(lia)).
    rewrite Z.add_mod_idemp_l in IH by lia.
    replace (curr + 1 + (j - 1)) with (curr + j) in IH by lia. exact IH.
Qed.

Lemma scan_first (n : nat) (curr j : Z) :
  0 <= curr < tableSize ->
  0 <= j < Z.of_nat n ->
  P ((curr + j) mod tableSize) = true ->
  (forall j', 0 <= j' < j -> P ((curr + j') mod tableSize) = false) ->
  scan P tableSize n curr = Some ((curr + j) mod tableSize).
Proof.
  intros Hc Hj HP Hmin.
  destruct (scan P tableSize n curr) as [i|] eqn:E.
  - apply scan_Some in E as (j0 & Hj0 & -> & HP0 & Hmin0); [|exact Hc].
    destruct (Z.lt_trichotomy j0 j) as [Hlt|[->|Hgt]]; [|reflexivity|].
    + rewrite Hmin in HP0 by lia. discriminate.
    + rewrite Hmin0 in HP by lia. discriminate.
  - rewrite (scan_None _ _ Hc E j Hj) in HP. discriminate.
Qed.

End Scan.

Section Properties.

Variable mem : Z -> byte.
Variable calloc_ok : nat -> bool.

(** ** Key comparison *)

Lemma memcmp_0_iff (n : nat) (s1 s2 : Z) :
  memcmp mem s1 s2 n = 0 <->
  forall i, 0 <= i < Z.of_nat n -> byte_at mem (s1 + i) = byte_at mem (s2 + i).
Proof.
  revert s1 s2. induction n as [|n IH]; intros s1 s2; simpl memcmp.
  - split; [intros _ i Hi; lia | reflexivity].
  - destruct (byte_at mem s1 <? byte_at mem s2) eqn:E1.
    { split; [discriminate|]. intros H. specialize (H 0 ltac:(lia)).
      rewrite !Z.add_0_r in H. apply Z.ltb_lt in E1. lia. }
    destruct (byte_at mem s2 <? byte_at mem s1) eqn:E2.
    { split; [discriminate|]. intros H. specialize (H 0 ltac:(lia)).
      rewrite !Z.add_0_r in H. apply Z.ltb_lt in E2. lia. }
    apply Z.ltb_ge in E1, E2. rewrite IH. split.
    + intros H i Hi. destruct (Z.eq_dec i 0) as [->|Hne].
      * rewrite !Z.add_0_r. lia.
      * specialize (H (i - 1) ltac:(lia)).
        replace (s1 + 1 + (i - 1)) with (s1 + i) in H by lia.
        replace (s2 + 1 + (i - 1)) with (s2 + i) in H by lia. exact H.
    + intros H i Hi. specialize (H (i + 1) ltac:(lia)).
      replace (s1 + (i + 1)) with (s1 + 1 + i) in H by lia.
      replace (s2 + (i + 1)) with (s2 + 1 + i) in H by lia. exact H.
Qed.

Lemma key_eqb_spec (key1 len1 key2 len2 : Z) :
  key_eqb mem key1 len1 key2 len2 = true <->
  len1 = len2 /\
  forall i, 0 <= i < len2 -> byte_at mem (key1 + i) = byte_at mem (key2 + i).
Proof.
  unfold key_eqb. rewrite andb_true_iff, !Z.eqb_eq, memcmp_0_iff.
  split; intros [H1 H2]; (split; [exact H1|]); intros i Hi; apply H2; lia.
Qed.

Lemma key_eqb_refl (key len : Z) : key_eqb mem key len key len = true.
Proof. apply key_eqb_spec. split; reflexivity. Qed.

Lemma key_eqb_sym (key1 len1 key2 len2 : Z) :
  key_eqb mem key1 len1 key2 len2 = key_eqb mem key2 len2 key1 len1.
Proof.
  apply eq_true_iff_eq. rewrite !key_eqb_spec.
  split; intros [-> H]; (split; [reflexivity|]); intros i Hi; symmetry; apply H; exact Hi.
Qed.

Lemma key_eqb_trans (key1 len1 key2 len2 key3 len3 : Z) :
  key_eqb mem key1 len1 key2 len2 = true ->
  key_eqb mem key2 len2 key3 len3 = true ->
  key_eqb mem key1 len1 key3 len3 = true.
Proof.
  rewrite !key_eqb_spec. intros [-> H1] [-> H2]. split; [reflexivity|].
  intros i Hi. rewrite H1, H2 by exact Hi. reflexivity.
Qed.

(** Equal keys are interchangeable in a comparison. *)
Lemma key_eqb_congr (key1 len1 key2 len2 key3 len3 : Z) :
  key_eqb mem key2 len2 key3 len3 = true ->
  key_eqb mem key1 len1 key2 len2 = key_eqb mem key1 len1 key3 len3.
Proof.
  intros H. apply eq_true_iff_eq. split; intros H'.
  - eapply key_eqb_trans; eassumption.
  - eapply key_eqb_trans; [eassumption|]. rewrite key_eqb_sym. exact H.
Qed.

Lemma hashmapCheckIfMatch_key_eqb (element : HashmapElement.t) (key len : Z) :
  hashmapCheckIfMatch mem element key len
  = key_eqb mem (HashmapElement.key element) (HashmapElement.keyLen element) key len.
Proof. reflexivity. Qed.

(** ** The hash depends on the key bytes only *)

Lemma hashmapCRC32_loop_ext (mem' : Z -> byte) (s s' : Z) (n : nat) (i crc32val : Z) :
  (forall j, 0 <= j < Z.of_nat n ->
     byte_at mem (s + (i + j)) = byte_at mem' (s' + (i + j))) ->
  hashmapCRC32_loop mem s n i crc32val = hashmapCRC32_loop mem' s' n i crc32val.
Proof.
  revert i crc32val. induction n as [|n IH]; intros i crc32val H; [reflexivity|].
  simpl. specialize (H 0 ltac:(lia)) as H0. rewrite Z.add_0_r in H0.
  rewrite H0. apply IH. intros j Hj. specialize (H (j + 1) ltac:(lia)).
  replace (i + 1 + j) with (i + (j + 1)) by lia. exact H.
Qed.

Lemma hashmapStringHasher_ext (mem' : Z -> byte) (hashmap hashmap' : Hashmap.t)
    (key key' len : Z) :
  Hashmap.tableSize hashmap = Hashmap.tableSize hashmap' ->
  (forall i, 0 <= i < len -> byte_at mem (key + i) = byte_at mem' (key' + i)) ->
  hashmapStringHasher mem hashmap key len = hashmapStringHasher mem' hashmap' key' len.
Proof.
  intros Hts H. unfold hashmapStringHasher, hashmapCRC32. rewrite Hts.
  rewrite (hashmapCRC32_loop_ext mem' key key'); [reflexivity|].
  intros j Hj. simpl. apply H. lia.
Qed.

Lemma hashmapStringHasher_range (hashmap : Hashmap.t) (key len : Z) :
  0 < Hashmap.tableSize hashmap ->
  0 <= hashmapStringHasher mem hashmap key len < Hashmap.tableSize hashmap.
Proof. intros H. unfold hashmapStringHasher. apply Z.mod_pos_bound. exact H. Qed.

(** From here on the hash is used through the lemmas above only. *)
Opaque hashmapStringHasher.

Lemma hashmapStringHasher_key_eqb (hashmap : Hashmap.t) (key1 len1 key2 len2 : Z) :
  key_eqb mem key1 len1 key2 len2 = true ->
  hashmapStringHasher mem hashmap key1 len1 = hashmapStringHasher mem hashmap key2 len2.
Proof.
  intros H. apply key_eqb_spec in H as [-> H].
  apply hashmapStringHasher_ext; [reflexivity|exact H].
Qed.

Lemma probe_key_eqb (hashmap : Hashmap.t) (key1 len1 key2 len2 j : Z) :
  key_eqb mem key1 len1 key2 len2 = true ->
  probe mem hashmap key1 len1 j = probe mem hashmap key2 len2 j.
Proof.
  intros H. unfold probe. rewrite (hashmapStringHasher_key_eqb _ _ _ _ _ H). reflexivity.
Qed.

Lemma probe_range (hashmap : Hashmap.t) (key len j : Z) :
  0 < Hashmap.tableSize hashmap ->
  0 <= probe mem hashmap key len j < Hashmap.tableSize hashmap.
Proof. intros H. unfold probe. apply Z.mod_pos_bound. exact H. Qed.

(** ** The probe loops as instances of [scan] *)

Lemma hashmapGet_loop_scan (hashmap : Hashmap.t) (key len : Z) (n : nat) (curr : Z) :
  hashmapGet_loop mem hashmap key len n curr =
  match scan (fun i => occupied_by mem hashmap i key len)
          (Hashmap.tableSize hashmap) n curr with
  | Some i => HashmapElement.data (slot hashmap i)
  | None => NULL
  end.
Proof.
  revert curr. induction n as [|n IH]; intros curr; [reflexivity|]. simpl.
  unfold occupied_by at 1.
  destruct (HashmapElement.used (slot hashmap curr)
            && hashmapCheckIfMatch mem (slot hashmap curr) key len); [reflexivity|].
  apply IH.
Qed.

Lemma hashmapRemove_loop_scan (hashmap : Hashmap.t) (key len : Z) (n : nat) (curr : Z) :
  hashmapRemove_loop mem hashmap key len n curr =
  match scan (fun i => occupied_by mem hashmap i key len)
          (Hashmap.tableSize hashmap) n curr with
  | Some i => (clear_slot hashmap i, 0)
  | None => (hashmap, 1)
  end.
Proof.
  revert curr. induction n as [|n IH]; intros curr; [reflexivity|]. simpl.
  unfold occupied_by at 1.
  destruct (HashmapElement.used (slot hashmap curr)
            && hashmapCheckIfMatch mem (slot hashmap curr) key len); [reflexivity|].
  apply IH.
Qed.

Lemma hashmapGetBucket_free_scan (hashmap : Hashmap.t) (n : nat) (curr : Z) :
  hashmapGetBucket_free hashmap n curr =
  scan (fun i => negb (HashmapElement.used (slot hashmap i)))
    (Hashmap.tableSize hashmap) n curr.
Proof. revert curr. induction n as [|n IH]; intros curr; [reflexivity|]. simpl.
  destruct (negb (HashmapElement.used (slot hashmap curr))); [reflexivity|]. apply IH.
Qed.

(** The first loop of [hashmapGetBucket]: it finds what [scan] finds, and
    otherwise [totalUsed] reaches the number of probes exactly when no
    probed slot is free. *)
Lemma hashmapGetBucket_find_scan (hashmap : Hashmap.t) (key len : Z) (n : nat)
    (curr totalUsed : Z) :
  match hashmapGetBucket_find mem hashmap key len n curr totalUsed with
  | inl i =>
      scan (fun i => occupied_by mem hashmap i key len)
        (Hashmap.tableSize hashmap) n curr = Some i
  | inr totalUsed' =>
      scan (fun i => occupied_by mem hashmap i key len)
        (Hashmap.tableSize hashmap) n curr = None
      /\ totalUsed <= totalUsed' <= totalUsed + Z.of_nat n
      /\ (totalUsed' = totalUsed + Z.of_nat n <->
          scan (fun i => negb (HashmapElement.used (slot hashmap i)))
            (Hashmap.tableSize hashmap) n curr = None)
  end.
Proof.
  revert curr totalUsed. induction n as [|n IH]; intros curr totalUsed.
  - simpl. split; [reflexivity|]. split; [lia|]. split; [reflexivity|lia].
  - cbn [hashmapGetBucket_find scan]. unfold occupied_by at 1 3.
    destruct (HashmapElement.used (slot hashmap curr)) eqn:Eu; cbn [andb negb].
    + destruct (hashmapCheckIfMatch mem (slot hashmap curr) key len); [reflexivity|].
      specialize (IH (u32 (curr + 1) mod Hashmap.tableSize hashmap) (totalUsed + 1)).
      destruct (hashmapGetBucket_find _ _ _ _ _ _ _) as [i|t]; [exact IH|].
      destruct IH as (H1 & H2 & H3). split; [exact H1|]. split; [lia|].
      rewrite <- H3. lia.
    + specialize (IH (u32 (curr + 1) mod Hashmap.tableSize hashmap) (totalUsed + 0)).
      destruct (hashmapGetBucket_find _ _ _ _ _ _ _) as [i|t]; [exact IH|].
      destruct IH as (H1 & H2 & H3). split; [exact H1|]. split; [lia|].
      split; [lia|discriminate].
Qed.

(** [hashmapGetBucket] in closed form. *)
Lemma hashmapGetBucket_scan (hashmap : Hashmap.t) (key len : Z) :
  hashmapGetBucket mem hashmap key len =
  if Hashmap.size hashmap >=? Hashmap.tableSize hashmap then None
  else
    match scan (fun i => occupied_by mem hashmap i key len)
            (Hashmap.tableSize hashmap) 8 (hashmapStringHasher mem hashmap key len) with
    | Some i => Some i
    | None =>
        scan (fun i => negb (HashmapElement.used (slot hashmap i)))
          (Hashmap.tableSize hashmap) 8 (hashmapStringHasher mem hashmap key len)
    end.
Proof.
  unfold hashmapGetBucket.
  destruct (Hashmap.size hashmap >=? Hashmap.tableSize hashmap); [reflexivity|].
  change (Z.to_nat HASHMAP_MAX_CHAIN_LENGTH) with 8%nat.
  pose proof (hashmapGetBucket_find_scan hashmap key len 8
                (hashmapStringHasher mem hashmap key len) 0) as H.
  destruct (hashmapGetBucket_find _ _ _ _ _ _ _) as [i|t].
  - rewrite H. reflexivity.
  - destruct H as (H1 & H2 & H3). rewrite H1.
    unfold HASHMAP_MAX_CHAIN_LENGTH.
    destruct (8 >? t) eqn:E.
    + apply hashmapGetBucket_free_scan.
    + symmetry. apply H3. rewrite Z.gtb_ltb in E. apply Z.ltb_ge in E. lia.
Qed.

(** ** Bucket arrays *)

Lemma count_used_bounds (l : list HashmapElement.t) :
  0 <= count_used l <= Z.of_nat (length l).
Proof.
  induction l as [|e l IH]; simpl count_used; simpl length; [lia|].
  destruct (HashmapElement.used e); lia.
Qed.

Lemma count_used_insert (l : list HashmapElement.t) (i : nat) (e : HashmapElement.t) :
  (i < length l)%nat ->
  count_used (<[i := e]> l)
  = count_used l - Z.b2z (HashmapElement.used (l !!! i)) + Z.b2z (HashmapElement.used e).
Proof.
  revert i. induction l as [|x l IH]; intros i Hi; simpl in Hi; [lia|].
  destruct i as [|i]; simpl.
  - destruct (HashmapElement.used x), (HashmapElement.used e); simpl; lia.
  - rewrite IH by lia. change ((x :: l) !!! S i) with (l !!! i). lia.
Qed.

Lemma count_used_replicate (n : nat) : count_used (replicate n zeroElement) = 0.
Proof. induction n as [|n IH]; simpl; [reflexivity|exact IH]. Qed.

Lemma slot_update_eq (hashmap : Hashmap.t) (i : Z) (e : HashmapElement.t) (count : Z) :
  0 <= i < Z.of_nat (length (Hashmap.data hashmap)) ->
  slot (update_slot hashmap i e count) i = e.
Proof.
  intros Hi. unfold slot, update_slot. simpl.
  apply list_lookup_total_insert_eq. lia.
Qed.

Lemma slot_update_ne (hashmap : Hashmap.t) (i j : Z) (e : HashmapElement.t) (count : Z) :
  0 <= i -> 0 <= j -> i <> j ->
  slot (update_slot hashmap i e count) j = slot hashmap j.
Proof.
  intros Hi Hj Hne. unfold slot, update_slot. simpl.
  apply list_lookup_total_insert_ne. lia.
Qed.

Lemma slot_used_count (hashmap : Hashmap.t) (i : Z) :
  0 <= i < Z.of_nat (length (Hashmap.data hashmap)) ->
  HashmapElement.used (slot hashmap i) = true ->
  1 <= count_used (Hashmap.data hashmap).
Proof.
  intros Hi Hu. unfold slot in Hu.
  pose proof (count_used_insert (Hashmap.data hashmap) (Z.to_nat i) zeroElement
                ltac:(lia)) as H.
  rewrite Hu in H. simpl in H.
  pose proof (count_used_bounds (<[Z.to_nat i := zeroElement]> (Hashmap.data hashmap))).
  lia.
Qed.

Lemma slot_unused_count (hashmap : Hashmap.t) (i : Z) :
  0 <= i < Z.of_nat (length (Hashmap.data hashmap)) ->
  HashmapElement.used (slot hashmap i) = false ->
  count_used (Hashmap.data hashmap) < Z.of_nat (length (Hashmap.data hashmap)).
Proof.
  intros Hi Hu. unfold slot in Hu.
  pose proof (count_used_insert (Hashmap.data hashmap) (Z.to_nat i)
                (HashmapElement.mk 0 0 true 0) ltac:(lia)) as H.
  rewrite Hu in H. simpl in H.
  pose proof (count_used_bounds
                (<[Z.to_nat i := HashmapElement.mk 0 0 true 0]> (Hashmap.data hashmap))) as B.
  rewrite length_insert in B. lia.
Qed.

Lemma probe_tableSize (hashmap hashmap' : Hashmap.t) (key len j : Z) :
  Hashmap.tableSize hashmap' = Hashmap.tableSize hashmap ->
  probe mem hashmap' key len j = probe mem hashmap key len j.
Proof.
  intros H. unfold probe. rewrite H. f_equal. f_equal.
  apply hashmapStringHasher_ext; [exact H|reflexivity].
Qed.

Lemma occupied_by_update_eq (hashmap : Hashmap.t) (i key len : Z)
    (e : HashmapElement.t) (count : Z) :
  0 <= i < Z.of_nat (length (Hashmap.data hashmap)) ->
  occupied_by mem (update_slot hashmap i e count) i key len
  = HashmapElement.used e && hashmapCheckIfMatch mem e key len.
Proof. intros Hi. unfold occupied_by. rewrite slot_update_eq by exact Hi. reflexivity. Qed.

Lemma occupied_by_update_ne (hashmap : Hashmap.t) (i j key len : Z)
    (e : HashmapElement.t) (count : Z) :
  0 <= i -> 0 <= j -> i <> j ->
  occupied_by mem (update_slot hashmap i e count) j key len
  = occupied_by mem hashmap j key len.
Proof. intros Hi Hj Hne. unfold occupied_by. rewrite slot_update_ne by assumption. reflexivity. Qed.

Lemma occupied_by_congr (hashmap : Hashmap.t) (i key1 len1 key2 len2 : Z) :
  key_eqb mem key1 len1 key2 len2 = true ->
  occupied_by mem hashmap i key1 len1 = occupied_by mem hashmap i key2 len2.
Proof.
  intros H. unfold occupied_by. rewrite !hashmapCheckIfMatch_key_eqb.
  rewrite (key_eqb_congr _ _ _ _ _ _ H). reflexivity.
Qed.

(** ** The representation invariant *)

Lemma wf_tableSize_range (hashmap : Hashmap.t) :
  wf mem hashmap -> 0 < Hashmap.tableSize hashmap < 2 ^ 32.
Proof.
  intros [(k & Hk & E) _ _ _ _]. rewrite E. split.
  - apply Z.pow_pos_nonneg; lia.
  - apply Z.pow_lt_mono_r; lia.
Qed.

Lemma wf_size_range (hashmap : Hashmap.t) :
  wf mem hashmap -> 0 <= Hashmap.size hashmap <= Hashmap.tableSize hashmap.
Proof.
  intros [_ Hlen Hsize _ _]. rewrite Hsize, <- Hlen. apply count_used_bounds.
Qed.

(** An occupied slot lies in the probe window of every key equal to its own. *)
Lemma wf_occupied_in_window (hashmap : Hashmap.t) (i key len : Z) :
  wf mem hashmap ->
  0 <= i < Hashmap.tableSize hashmap ->
  occupied_by mem hashmap i key len = true ->
  exists j, 0 <= j < 8 /\ probe mem hashmap key len j = i.
Proof.
  intros Hwf Hi Ho. apply andb_true_iff in Ho as [Hu Hm].
  destruct (wf_window _ _ Hwf i Hi Hu) as (j & Hj & Hp).
  exists j. split; [exact Hj|].
  etransitivity; [|exact Hp]. symmetry. apply probe_key_eqb. exact Hm.
Qed.

(** At most one slot is occupied by a given key. *)
Lemma wf_occupied_unique (hashmap : Hashmap.t) (i i' key len : Z) :
  wf mem hashmap ->
  0 <= i < Hashmap.tableSize hashmap -> 0 <= i' < Hashmap.tableSize hashmap ->
  occupied_by mem hashmap i key len = true ->
  occupied_by mem hashmap i' key len = true ->
  i' = i.
Proof.
  intros Hwf Hi Hi' Ho Ho'. apply andb_true_iff in Ho as [Hu Hm].
  apply (wf_nodup _ _ Hwf i i' Hi Hi' Hu).
  rewrite (occupied_by_congr _ _ _ _ _ _ Hm). exact Ho'.
Qed.

(** Overwriting one slot preserves the invariant when the count follows
    and the new content, if occupied, sits in its window and duplicates no
    other slot. *)
Lemma wf_update_slot (hashmap : Hashmap.t) (i : Z) (e : HashmapElement.t) (count : Z) :
  wf mem hashmap ->
  0 <= i < Hashmap.tableSize hashmap ->
  count = Hashmap.size hashmap - Z.b2z (HashmapElement.used (slot hashmap i))
          + Z.b2z (HashmapElement.used e) ->
  (HashmapElement.used e = true ->
   exists j, 0 <= j < 8
     /\ probe mem hashmap (HashmapElement.key e) (HashmapElement.keyLen e) j = i) ->
  (HashmapElement.used e = true ->
   forall i', 0 <= i' < Hashmap.tableSize hashmap -> i' <> i ->
     occupied_by mem hashmap i' (HashmapElement.key e) (HashmapElement.keyLen e) = false) ->
  wf mem (update_slot hashmap i e count).
Proof.
  intros Hwf Hi Hcount Hwin Hdup.
  pose proof (wf_len _ _ Hwf) as Hlen.
  constructor.
  - exact (wf_pow2 _ _ Hwf).
  - simpl. rewrite length_insert. exact Hlen.
  - simpl. rewrite count_used_insert by lia. rewrite Hcount, (wf_size _ _ Hwf).
    reflexivity.
  - intros i' Hi' Hu. simpl in Hi'.
    destruct (Z.eq_dec i' i) as [->|Hne].
    + rewrite slot_update_eq in Hu |- * by lia.
      destruct (Hwin Hu) as (j & Hj & Hp). exists j. split; [exact Hj|].
      rewrite (probe_tableSize hashmap (update_slot hashmap i e count)) by reflexivity.
      exact Hp.
    + rewrite slot_update_ne in Hu |- * by lia.
      destruct (wf_window _ _ Hwf i' Hi' Hu) as (j & Hj & Hp). exists j.
      split; [exact Hj|].
      rewrite (probe_tableSize hashmap (update_slot hashmap i e count)) by reflexivity.
      exact Hp.
  - intros i1 i2 Hi1 Hi2 Hu Ho. simpl in Hi1, Hi2.
    destruct (Z.eq_dec i1 i) as [->|Hne1]; destruct (Z.eq_dec i2 i) as [->|Hne2];
      try reflexivity.
    + rewrite slot_update_eq in Hu, Ho by lia.
      rewrite occupied_by_update_ne in Ho by lia.
      rewrite (Hdup Hu i2 Hi2 Hne2) in Ho. discriminate.
    + rewrite slot_update_ne in Hu, Ho by lia.
      rewrite occupied_by_update_eq in Ho by lia.
      apply andb_true_iff in Ho as [Hue Hm].
      rewrite hashmapCheckIfMatch_key_eqb, key_eqb_sym in Hm.
      assert (Ho1 : occupied_by mem hashmap i1 (HashmapElement.key e)
                      (HashmapElement.keyLen e) = true).
      { unfold occupied_by. rewrite Hu. exact Hm. }
      rewrite (Hdup Hue i1 Hi1 Hne1) in Ho1. discriminate.
    + rewrite slot_update_ne in Hu, Ho by lia.
      rewrite occupied_by_update_ne in Ho by lia.
      apply (wf_nodup _ _ Hwf i1 i2 Hi1 Hi2 Hu Ho).
Qed.

(** ** Lookup and removal *)

Lemma hashmapGet_scan (hashmap : Hashmap.t) (key len : Z) :
  hashmapGet mem hashmap key len =
  match scan (fun i => occupied_by mem hashmap i key len) (Hashmap.tableSize hashmap) 8
          (hashmapStringHasher mem hashmap key len) with
  | Some i => HashmapElement.data (slot hashmap i)
  | None => NULL
  end.
Proof. apply hashmapGet_loop_scan. Qed.

Lemma hashmapRemove_scan (hashmap : Hashmap.t) (key len : Z) :
  hashmapRemove mem hashmap key len =
  match scan (fun i => occupied_by mem hashmap i key len) (Hashmap.tableSize hashmap) 8
          (hashmapStringHasher mem hashmap key len) with
  | Some i => (clear_slot hashmap i, 0)
  | None => (hashmap, 1)
  end.
Proof. apply hashmapRemove_loop_scan. Qed.

(** What a scan of the probe window of a key returns. *)
Lemma scan_window_Some (P : Z -> bool) (hashmap : Hashmap.t) (key len i : Z) :
  0 < Hashmap.tableSize hashmap < 2 ^ 32 ->
  scan P (Hashmap.tableSize hashmap) 8 (hashmapStringHasher mem hashmap key len) = Some i ->
  exists j, 0 <= j < 8 /\ i = probe mem hashmap key len j /\ P i = true
    /\ forall j', 0 <= j' < j -> P (probe mem hashmap key len j') = false.
Proof.
  intros Hts H. unfold probe.
  apply (scan_Some P _ Hts 8 (hashmapStringHasher mem hashmap key len) i).
  - apply hashmapStringHasher_range. lia.
  - exact H.
Qed.

Lemma scan_window_None (P : Z -> bool) (hashmap : Hashmap.t) (key len : Z) :
  0 < Hashmap.tableSize hashmap < 2 ^ 32 ->
  scan P (Hashmap.tableSize hashmap) 8 (hashmapStringHasher mem hashmap key len) = None ->
  forall j, 0 <= j < 8 -> P (probe mem hashmap key len j) = false.
Proof.
  intros Hts H j Hj. unfold probe.
  apply (scan_None P _ Hts 8 (hashmapStringHasher mem hashmap key len)).
  - apply hashmapStringHasher_range. lia.
  - exact H.
  - lia.
Qed.

Lemma scan_window_first (P : Z -> bool) (hashmap : Hashmap.t) (key len j : Z) :
  0 < Hashmap.tableSize hashmap < 2 ^ 32 ->
  0 <= j < 8 ->
  P (probe mem hashmap key len j) = true ->
  (forall j', 0 <= j' < j -> P (probe mem hashmap key len j') = false) ->
  scan P (Hashmap.tableSize hashmap) 8 (hashmapStringHasher mem hashmap key len)
  = Some (probe mem hashmap key len j).
Proof.
  intros Hts Hj HP Hmin. unfold probe in *.
  apply (scan_first P _ Hts 8 (hashmapStringHasher mem hashmap key len) j).
  - apply hashmapStringHasher_range. lia.
  - lia.
  - exact HP.
  - exact Hmin.
Qed.

(** In a well-formed table the scan for a key finds the slot that holds it. *)
Lemma wf_scan_present (hashmap : Hashmap.t) (i key len : Z) :
  wf mem hashmap ->
  0 <= i < Hashmap.tableSize hashmap ->
  occupied_by mem hashmap i key len = true ->
  scan (fun i => occupied_by mem hashmap i key len) (Hashmap.tableSize hashmap) 8
    (hashmapStringHasher mem hashmap key len) = Some i.
Proof.
  intros Hwf Hi Ho. pose proof (wf_tableSize_range _ Hwf) as Hts.
  destruct (scan _ _ _ _) as [i0|] eqn:E.
  - apply scan_window_Some in E as (j & Hj & -> & HP & _); [|exact Hts].
    f_equal. apply (wf_occupied_unique hashmap i _ key len Hwf Hi); try assumption.
    apply probe_range. lia.
  - destruct (wf_occupied_in_window _ _ _ _ Hwf Hi Ho) as (j & Hj & Hp).
    pose proof (scan_window_None _ _ _ _ Hts E j Hj) as HP. cbv beta in HP.
    rewrite Hp, Ho in HP. discriminate.
Qed.

Lemma scan_absent (hashmap : Hashmap.t) (key len : Z) :
  0 < Hashmap.tableSize hashmap < 2 ^ 32 ->
  ~ present mem hashmap key len ->
  scan (fun i => occupied_by mem hashmap i key len) (Hashmap.tableSize hashmap) 8
    (hashmapStringHasher mem hashmap key len) = None.
Proof.
  intros Hts Habs. destruct (scan _ _ _ _) as [i0|] eqn:E; [|reflexivity].
  apply scan_window_Some in E as (j & Hj & -> & HP & _); [|exact Hts].
  exfalso. apply Habs. exists (probe mem hashmap key len j).
  split; [apply probe_range; lia|exact HP].
Qed.

Lemma hashmapGet_holds (hashmap : Hashmap.t) (key len value : Z) :
  wf mem hashmap -> holds mem hashmap key len value ->
  hashmapGet mem hashmap key len = value.
Proof.
  intros Hwf (i & Hi & Ho & Hv). rewrite hashmapGet_scan.
  rewrite (wf_scan_present _ _ _ _ Hwf Hi Ho). exact Hv.
Qed.

Lemma hashmapGet_absent (hashmap : Hashmap.t) (key len : Z) :
  0 < Hashmap.tableSize hashmap < 2 ^ 32 ->
  ~ present mem hashmap key len ->
  hashmapGet mem hashmap key len = NULL.
Proof.
  intros Hts Habs. rewrite hashmapGet_scan, (scan_absent _ _ _ Hts Habs). reflexivity.
Qed.

Lemma wf_clear_slot (hashmap : Hashmap.t) (i : Z) :
  wf mem hashmap ->
  0 <= i < Hashmap.tableSize hashmap ->
  HashmapElement.used (slot hashmap i) = true ->
  wf mem (clear_slot hashmap i)
  /\ Hashmap.size (clear_slot hashmap i) = Hashmap.size hashmap - 1.
Proof.
  intros Hwf Hi Hu.
  pose proof (wf_tableSize_range _ Hwf) as Hts.
  pose proof (wf_size_range _ Hwf) as Hsz.
  pose proof (wf_len _ _ Hwf) as Hlen.
  pose proof (slot_used_count hashmap i ltac:(lia) Hu) as H1.
  rewrite <- (wf_size _ _ Hwf) in H1.
  assert (E : u32 (Hashmap.size hashmap - 1) = Hashmap.size hashmap - 1)
    by (apply u32_small; lia).
  split; [|exact E].
  apply (wf_update_slot hashmap i zeroElement); try assumption.
  - rewrite Hu, E. simpl. lia.
  - discriminate.
  - discriminate.
Qed.

Lemma clear_slot_absent (hashmap : Hashmap.t) (i key len : Z) :
  wf mem hashmap ->
  0 <= i < Hashmap.tableSize hashmap ->
  occupied_by mem hashmap i key len = true ->
  ~ present mem (clear_slot hashmap i) key len.
Proof.
  intros Hwf Hi Ho (i' & Hi' & Ho'). cbn [clear_slot Hashmap.tableSize] in Hi'.
  pose proof (wf_len _ _ Hwf) as Hlen.
  destruct (Z.eq_dec i' i) as [->|Hne].
  - unfold clear_slot in Ho'.
    change (Hashmap.mk _ _ _) with
      (update_slot hashmap i zeroElement (u32 (Hashmap.size hashmap - 1))) in Ho'.
    rewrite occupied_by_update_eq in Ho' by lia. discriminate.
  - change (clear_slot hashmap i) with
      (update_slot hashmap i zeroElement (u32 (Hashmap.size hashmap - 1))) in Ho'.
    rewrite occupied_by_update_ne in Ho' by lia.
    apply Hne. apply (wf_occupied_unique hashmap i i' key len Hwf Hi Hi' Ho Ho').
Qed.

(** ** Locating a bucket *)

Lemma hashmapGetBucket_Some (hashmap : Hashmap.t) (key len i : Z) :
  wf mem hashmap ->
  hashmapGetBucket mem hashmap key len = Some i ->
  0 <= i < Hashmap.tableSize hashmap
  /\ Hashmap.size hashmap < Hashmap.tableSize hashmap
  /\ (exists j, 0 <= j < 8 /\ probe mem hashmap key len j = i)
  /\ (occupied_by mem hashmap i key len = true
      \/ (HashmapElement.used (slot hashmap i) = false /\ ~ present mem hashmap key len)).
Proof.
  intros Hwf H. pose proof (wf_tableSize_range _ Hwf) as Hts.
  rewrite hashmapGetBucket_scan in H.
  destruct (Hashmap.size hashmap >=? Hashmap.tableSize hashmap) eqn:Efull; [discriminate|].
  rewrite Z.geb_leb in Efull. apply Z.leb_gt in Efull.
  destruct (scan (fun i => occupied_by mem hashmap i key len) _ _ _) as [i0|] eqn:E.
  - inversion H; subst i0.
    apply scan_window_Some in E as (j & Hj & -> & HP & _); [|exact Hts].
    split; [apply probe_range; lia|]. split; [exact Efull|].
    split; [exists j; split; [exact Hj|reflexivity]|]. left. exact HP.
  - apply scan_window_Some in H as (j & Hj & -> & HP & _); [|exact Hts].
    split; [apply probe_range; lia|]. split; [exact Efull|].
    split; [exists j; split; [exact Hj|reflexivity]|]. right.
    split; [apply negb_true_iff; exact HP|].
    intros (i' & Hi' & Ho'). rewrite (wf_scan_present _ _ _ _ Hwf Hi' Ho') in E.
    discriminate.
Qed.

(** ** Storing into the located bucket *)

Lemma hashmapPut_store_update (hashmap : Hashmap.t) (i key len value : Z) :
  0 <= i < Z.of_nat (length (Hashmap.data hashmap)) ->
  hashmapPut_store hashmap i key len value
  = update_slot hashmap i (HashmapElement.mk key len true value)
      (if HashmapElement.used (slot hashmap i) then Hashmap.size hashmap
       else u32 (Hashmap.size hashmap + 1)).
Proof.
  intros Hi. unfold hashmapPut_store.
  change (set_slot hashmap i ?e) with (update_slot hashmap i e (Hashmap.size hashmap)).
  rewrite slot_update_eq by exact Hi. cbn [HashmapElement.used].
  destruct (HashmapElement.used (slot hashmap i)); cbn [negb].
  - reflexivity.
  - unfold update_slot. cbn [Hashmap.tableSize Hashmap.size Hashmap.data].
    rewrite list_insert_insert_eq. reflexivity.
Qed.

Lemma present_holds (hashmap : Hashmap.t) (key len : Z) :
  present mem hashmap key len <-> exists value, holds mem hashmap key len value.
Proof.
  split.
  - intros (i & Hi & Ho). exists (HashmapElement.data (slot hashmap i)), i. auto.
  - intros (v & i & Hi & Ho & _). exists i. auto.
Qed.

Lemma hashmapPut_store_spec (hashmap : Hashmap.t) (i key len value : Z) :
  wf mem hashmap ->
  hashmapGetBucket mem hashmap key len = Some i ->
  put_post mem hashmap key len value (hashmapPut_store hashmap i key len value) 0.
Proof.
  intros Hwf Hb.
  destruct (hashmapGetBucket_Some _ _ _ _ Hwf Hb) as (Hi & Hfull & Hwin & Hcase).
  pose proof (wf_len _ _ Hwf) as Hlen.
  pose proof (wf_size_range _ Hwf) as Hsz.
  pose proof (wf_tableSize_range _ Hwf) as Hts.
  rewrite hashmapPut_store_update by lia.
  set (e := HashmapElement.mk key len true value).
  set (count := if HashmapElement.used (slot hashmap i) then _ else _).
  assert (Hothers : forall i', 0 <= i' < Hashmap.tableSize hashmap -> i' <> i ->
            occupied_by mem hashmap i' key len = false).
  { intros i' Hi' Hne. destruct (occupied_by mem hashmap i' key len) eqn:Ho'; [|reflexivity].
    exfalso. destruct Hcase as [Ho|[_ Habs]].
    - apply Hne. apply (wf_occupied_unique hashmap i i' key len Hwf Hi Hi' Ho Ho').
    - apply Habs. exists i'. auto. }
  assert (Hwf' : wf mem (update_slot hashmap i e count)).
  { apply wf_update_slot; try assumption.
    - subst count e. cbn [HashmapElement.used]. destruct Hcase as [Ho|[Hu _]].
      + apply andb_true_iff in Ho as [-> _]. simpl. lia.
      + rewrite Hu. simpl. rewrite u32_small by lia. lia.
    - intros _. exact Hwin.
    - intros _. exact Hothers. }
  split; [exact Hwf'|]. split; [simpl; lia|]. split; [left; reflexivity|]. intros _.
  split; [|split; [|split]].
  - intros key' len' value'. split.
    + intros (i0 & Hi0 & Ho0 & Hv0). cbn [update_slot Hashmap.tableSize] in Hi0.
      destruct (Z.eq_dec i0 i) as [->|Hne].
      * rewrite occupied_by_update_eq in Ho0 by lia.
        rewrite slot_update_eq in Hv0 by lia. subst e.
        cbn [HashmapElement.used HashmapElement.data andb] in Ho0, Hv0.
        rewrite hashmapCheckIfMatch_key_eqb in Ho0.
        cbn [HashmapElement.key HashmapElement.keyLen] in Ho0.
        left. rewrite key_eqb_sym. split; [exact Ho0|congruence].
      * rewrite occupied_by_update_ne in Ho0 by lia.
        rewrite slot_update_ne in Hv0 by lia. right. split.
        -- destruct (key_eqb mem key' len' key len) eqn:Ek; [|reflexivity].
           rewrite (occupied_by_congr _ _ _ _ _ _ Ek) in Ho0.
           rewrite (Hothers i0 Hi0 Hne) in Ho0. discriminate.
        -- exists i0. auto.
    + intros [[Hk ->]|[Hk (i0 & Hi0 & Ho0 & Hv0)]].
      * exists i. cbn [update_slot Hashmap.tableSize]. split; [exact Hi|].
        rewrite occupied_by_update_eq, slot_update_eq by lia. subst e.
        cbn [HashmapElement.used HashmapElement.data andb].
        rewrite hashmapCheckIfMatch_key_eqb. cbn [HashmapElement.key HashmapElement.keyLen].
        rewrite key_eqb_sym. auto.
      * assert (Hne : i0 <> i).
        { intros ->. destruct Hcase as [Ho|[Hu _]].
          - apply andb_true_iff in Ho as [_ Hm], Ho0 as [_ Hm0].
            rewrite hashmapCheckIfMatch_key_eqb in Hm, Hm0.
            rewrite key_eqb_sym in Hm0.
            rewrite (key_eqb_trans _ _ _ _ _ _ Hm0 Hm) in Hk. discriminate.
          - apply andb_true_iff in Ho0 as [Hu0 _]. congruence. }
        exists i0. cbn [update_slot Hashmap.tableSize]. split; [exact Hi0|].
        rewrite occupied_by_update_ne, slot_update_ne by lia. auto.
  - intros (i0 & Hi0 & Ho0). cbn [update_slot Hashmap.size]. subst count.
    destruct (Z.eq_dec i0 i) as [->|Hne].
    + apply andb_true_iff in Ho0 as [-> _]. reflexivity.
    + rewrite (Hothers i0 Hi0 Hne) in Ho0. discriminate.
  - intros Habs. cbn [update_slot Hashmap.size]. subst count.
    destruct Hcase as [Ho|[Hu _]].
    + exfalso. apply Habs. exists i. auto.
    + rewrite Hu. apply u32_small. lia.
  - exists i. cbn [update_slot Hashmap.tableSize]. split; [exact Hi|].
    apply slot_update_eq. lia.
Qed.

(** ** Fresh tables *)

Lemma slot_replicate (tableSize count : Z) (n : nat) (i : Z) :
  slot (Hashmap.mk tableSize count (replicate n zeroElement)) i = zeroElement.
Proof.
  unfold slot. cbn [Hashmap.data].
  destruct (decide (Z.to_nat i < n)%nat) as [Hlt|Hge].
  - apply lookup_total_replicate_2. exact Hlt.
  - rewrite list_lookup_total_alt.
    rewrite (proj1 (lookup_replicate_None n zeroElement (Z.to_nat i))) by lia.
    reflexivity.
Qed.

Lemma wf_fresh (k : Z) :
  0 <= k < 32 ->
  wf mem (Hashmap.mk (2 ^ k) 0 (replicate (Z.to_nat (2 ^ k)) zeroElement)).
Proof.
  intros Hk. assert (0 < 2 ^ k) by (apply Z.pow_pos_nonneg; lia). constructor.
  - exists k. split; [exact Hk|reflexivity].
  - cbn [Hashmap.data Hashmap.tableSize]. rewrite length_replicate. lia.
  - cbn [Hashmap.data Hashmap.size]. rewrite count_used_replicate. reflexivity.
  - intros i _ Hu. rewrite slot_replicate in Hu. discriminate.
  - intros i i' _ _ Hu. rewrite slot_replicate in Hu. discriminate.
Qed.

Lemma fresh_holds (tableSize count : Z) (n : nat) (bound key len value : Z) :
  ~ holds_below mem (Hashmap.mk tableSize count (replicate n zeroElement))
      bound key len value.
Proof.
  intros (i & _ & Ho & _). unfold occupied_by in Ho. rewrite slot_replicate in Ho.
  discriminate.
Qed.

(** ** hashmapCreate *)

Lemma hashmapCreate_invalid (hp : Heap) (initialSize : Z) (out : Hashmap.t) :
  0 <= initialSize < 2 ^ 32 ->
  ~ is_pow2 initialSize ->
  hashmapCreate calloc_ok hp initialSize out
  = (hp, Hashmap.mk initialSize 0 (Hashmap.data out), 1).
Proof.
  intros Hr Hn. unfold hashmapCreate.
  destruct ((initialSize =? 0) || negb (Z.land initialSize (u32 (initialSize - 1)) =? 0))
    eqn:E; [reflexivity|].
  apply pow2_test in E; [contradiction|exact Hr].
Qed.

Lemma hashmapCreate_valid (hp : Heap) (initialSize : Z) (out : Hashmap.t) :
  0 <= initialSize < 2 ^ 32 ->
  is_pow2 initialSize ->
  hashmapCreate calloc_ok hp initialSize out
  = if calloc_ok (calls hp)
    then (mkHeap (S (calls hp)) (S (live hp)),
          Hashmap.mk initialSize 0 (replicate (Z.to_nat initialSize) zeroElement), 0)
    else (mkHeap (S (calls hp)) (live hp), Hashmap.mk initialSize 0 [], 1).
Proof.
  intros Hr Hp. unfold hashmapCreate. pose proof (is_pow2_pos _ Hp) as Hpos.
  rewrite (proj2 (pow2_test _ Hr) Hp). unfold calloc.
  destruct (calloc_ok (calls hp)); [|reflexivity].
  destruct (Z.to_nat initialSize) as [|n] eqn:En; [lia|]. reflexivity.
Qed.

(** ** The iteration engine *)

(** Invariant rule for the loop of [hashmapApplyIterator]: [I i] holds
    before slot [i] is examined, [Q] after an early exit. *)
Lemma hashmapApplyIterator_loop_inv {C : Type} (f : Visitor C) (N : Z)
    (I : Z -> Hashmap.t -> C -> Prop) (Q : Hashmap.t -> C -> Prop) :
  (forall i h c, 0 <= i < N -> I i h c ->
     HashmapElement.used (slot h i) = false -> I (i + 1) h c) ->
  (forall i h c c' e' flag, 0 <= i < N -> I i h c ->
     HashmapElement.used (slot h i) = true ->
     f c (slot h i) = Some (c', e', flag) ->
     if flag =? -1 then I (i + 1) (clear_slot h i) c'
     else if flag =? 0 then I (i + 1) (set_slot h i e') c'
     else Q (set_slot h i e') c') ->
  forall n i h c h' c' flag,
    0 <= i -> i + Z.of_nat n = N -> I i h c ->
    hashmapApplyIterator_loop f n i h c = Some (h', c', flag) ->
    (flag = 0 /\ I N h' c') \/ (flag = 1 /\ Q h' c').
Proof.
  intros Hskip Hvisit. induction n as [|n IH]; intros i h c h' c' flag Hi HN HI H.
  - simpl in H. inversion H; subst h' c' flag. left. split; [reflexivity|].
    assert (E : N = i) by lia. rewrite E. exact HI.
  - cbn [hashmapApplyIterator_loop] in H.
    destruct (HashmapElement.used (slot h i)) eqn:Eu.
    + destruct (f c (slot h i)) as [[[c1 e1] fl]|] eqn:Ef; [|discriminate].
      specialize (Hvisit i h c c1 e1 fl ltac:(lia) HI Eu Ef).
      destruct (fl =? -1).
      * apply (IH (i + 1) _ _ _ _ _ ltac:(lia) ltac:(lia) Hvisit H).
      * destruct (fl =? 0).
        -- apply (IH (i + 1) _ _ _ _ _ ltac:(lia) ltac:(lia) Hvisit H).
        -- inversion H; subst. right. split; [reflexivity|exact Hvisit].
    + apply (IH (i + 1) h c h' c' flag ltac:(lia) ltac:(lia)); [|exact H].
      apply Hskip; [lia|exact HI|exact Eu].
Qed.

(** The loop returns whenever the visitor returns on the states the
    invariant allows. *)
Lemma hashmapApplyIterator_loop_total {C : Type} (f : Visitor C) (N : Z)
    (I : Z -> Hashmap.t -> C -> Prop) :
  (forall i h c, 0 <= i < N -> I i h c ->
     HashmapElement.used (slot h i) = false -> I (i + 1) h c) ->
  (forall i h c, 0 <= i < N -> I i h c ->
     HashmapElement.used (slot h i) = true ->
     exists c' e' flag, f c (slot h i) = Some (c', e', flag)
       /\ (flag = -1 -> I (i + 1) (clear_slot h i) c')
       /\ (flag = 0 -> I (i + 1) (set_slot h i e') c')) ->
  forall n i h c,
    0 <= i -> i + Z.of_nat n = N -> I i h c ->
    exists r, hashmapApplyIterator_loop f n i h c = Some r.
Proof.
  intros Hskip Hvisit. induction n as [|n IH]; intros i h c Hi HN HI.
  - eexists. reflexivity.
  - cbn [hashmapApplyIterator_loop].
    destruct (HashmapElement.used (slot h i)) eqn:Eu.
    + destruct (Hvisit i h c ltac:(lia) HI Eu) as (c1 & e1 & fl & Ef & Hrm & Hcont).
      rewrite Ef. destruct (fl =? -1) eqn:E1.
      * apply Z.eqb_eq in E1. apply IH; [lia|lia|apply Hrm; exact E1].
      * destruct (fl =? 0) eqn:E0.
        -- apply Z.eqb_eq in E0. apply IH; [lia|lia|apply Hcont; exact E0].
        -- eexists. reflexivity.
    + apply IH; [lia|lia|]. apply Hskip; [lia|exact HI|exact Eu].
Qed.

Lemma set_slot_same (hashmap : Hashmap.t) (i : Z) :
  set_slot hashmap i (slot hashmap i) = hashmap.
Proof.
  destruct hashmap as [ts sz l]. unfold set_slot, slot. cbn. f_equal.
  destruct (decide (Z.to_nat i < length l)%nat) as [Hlt|Hge].
  - apply list_insert_id. apply list_lookup_lookup_total_lt. exact Hlt.
  - apply list_insert_ge. lia.
Qed.

Lemma count_used_zero (l : list HashmapElement.t) :
  (forall i, (i < length l)%nat -> HashmapElement.used (l !!! i) = false) ->
  count_used l = 0.
Proof.
  induction l as [|e l IH]; intros H; [reflexivity|]. simpl.
  rewrite (H 0%nat ltac:(simpl; lia) : HashmapElement.used e = false).
  rewrite IH; [reflexivity|]. intros i Hi. apply (H (S i)). simpl. lia.
Qed.

Lemma occupied_by_slot (hashmap hashmap' : Hashmap.t) (i i' key len : Z) :
  slot hashmap i = slot hashmap' i' ->
  occupied_by mem hashmap i key len = occupied_by mem hashmap' i' key len.
Proof. intros H. unfold occupied_by. rewrite H. reflexivity. Qed.

(** ** Rehashing *)

Section Rehash.

Variable put : PutFn.
Hypothesis put_ok : put_correct mem put.
Variable hashmap0 : Hashmap.t.
Hypothesis wf0 : wf mem hashmap0.

Lemma rehash_inv_start (hp : Heap) (k : Z) :
  Hashmap.tableSize hashmap0 = 2 ^ k -> 0 <= k < 31 ->
  rehash_inv mem hashmap0 0 hashmap0
    (hp, Hashmap.mk (2 ^ (k + 1)) 0 (replicate (Z.to_nat (2 ^ (k + 1))) zeroElement)).
Proof.
  intros Hts Hk. unfold rehash_inv. cbn [snd].
  split; [exact wf0|]. split; [reflexivity|]. split; [reflexivity|].
  split; [intros j Hj; lia|]. split; [apply wf_fresh; lia|].
  split; [cbn [Hashmap.tableSize]; rewrite Hts, Z.pow_add_r by lia; lia|].
  split; [|cbn [Hashmap.size]; lia].
  intros key len value. split.
  - intros H. exfalso. exact (fresh_holds _ _ _ _ _ _ _ H).
  - intros (i & Hi & _). lia.
Qed.

Lemma rehash_inv_stopped (i : Z) (h : Hashmap.t) (c : Heap * Hashmap.t) :
  rehash_inv mem hashmap0 i h c -> rehash_stopped mem hashmap0 h c.
Proof.
  intros (Hwf & Hts & Hsame & Hdone & _). split; [exact Hwf|]. split; [exact Hts|].
  intros key len value (j & Hj & Ho & Hv). rewrite Hts in Hj.
  destruct (Z.lt_ge_cases j i) as [Hlt|Hge].
  - apply andb_true_iff in Ho as [Hu _]. rewrite Hdone in Hu by lia. discriminate.
  - exists j. split; [exact Hj|].
    rewrite <- (occupied_by_slot h hashmap0 j j) by (apply Hsame; lia).
    rewrite <- Hsame by lia. auto.
Qed.

Lemma rehash_skip (i : Z) (h : Hashmap.t) (c : Heap * Hashmap.t) :
  0 <= i < Hashmap.tableSize hashmap0 ->
  rehash_inv mem hashmap0 i h c ->
  HashmapElement.used (slot h i) = false ->
  rehash_inv mem hashmap0 (i + 1) h c.
Proof.
  intros Hi (Hwf & Hts & Hsame & Hdone & Hwfn & Hbig & Hholds & Hsize) Hu.
  split; [exact Hwf|]. split; [exact Hts|].
  split; [intros j Hj; apply Hsame; lia|].
  split; [intros j Hj; destruct (Z.eq_dec j i) as [->|]; [exact Hu|apply Hdone; lia]|].
  split; [exact Hwfn|]. split; [exact Hbig|]. split; [|exact Hsize].
  intros key len value. rewrite Hholds. split.
  - intros (j & Hj & Ho & Hv). exists j. split; [lia|auto].
  - intros (j & Hj & Ho & Hv). exists j. split; [|auto].
    destruct (Z.eq_dec j i) as [->|]; [|lia].
    rewrite <- (occupied_by_slot h hashmap0 i i) in Ho by (apply Hsame; lia).
    apply andb_true_iff in Ho as [Hu' _]. congruence.
Qed.

Lemma rehash_visit (i : Z) (h : Hashmap.t) (c c' : Heap * Hashmap.t)
    (e' : HashmapElement.t) (flag : Z) :
  0 <= i < Hashmap.tableSize hashmap0 ->
  rehash_inv mem hashmap0 i h c ->
  HashmapElement.used (slot h i) = true ->
  hashmapRehashIterator_with put c (slot h i) = Some (c', e', flag) ->
  if flag =? -1 then rehash_inv mem hashmap0 (i + 1) (clear_slot h i) c'
  else if flag =? 0 then rehash_inv mem hashmap0 (i + 1) (set_slot h i e') c'
  else rehash_stopped mem hashmap0 (set_slot h i e') c'.
Proof.
  intros Hi HI Hu H. destruct c as [hp new]. unfold hashmapRehashIterator_with in H.
  destruct (put hp new _ _ _) as [[[hp1 new1] fl]|] eqn:Ep; [|discriminate].
  pose proof HI as (Hwf & Hts & Hsame & Hdone & Hwfn & Hbig & Hholds & Hsize).
  cbn [snd] in Hwfn, Hbig, Hholds, Hsize.
  destruct (put_ok _ _ _ _ _ _ _ _ Hwfn Ep) as (Hwf1 & Hmono & Hfl & Hok).
  destruct (fl =? 0) eqn:E0; cbn [negb] in H; inversion H; subst c' e' flag; clear H.
  2:{ cbn. rewrite set_slot_same. exact (rehash_inv_stopped i h (hp, new) HI). }
  apply Z.eqb_eq in E0. destruct (Hok E0) as (Hholds1 & _ & Hsize1 & _).
  cbn [Z.eqb]. cbn.
  assert (He : slot h i = slot hashmap0 i) by (apply Hsame; lia).
  assert (Hu0 : HashmapElement.used (slot hashmap0 i) = true) by congruence.
  pose proof (wf_len _ _ Hwf) as Hlen.
  assert (Hfresh : forall j key len, 0 <= j < i ->
            occupied_by mem hashmap0 j key len = true ->
            key_eqb mem key len (HashmapElement.key (slot hashmap0 i))
              (HashmapElement.keyLen (slot hashmap0 i)) = false).
  { intros j key len Hj Ho.
    destruct (key_eqb mem key len _ _) eqn:Ek; [|reflexivity]. exfalso.
    rewrite (occupied_by_congr _ _ _ _ _ _ Ek) in Ho.
    pose proof (wf_nodup _ _ wf0 i j Hi ltac:(lia) Hu0 Ho). lia. }
  destruct (wf_clear_slot h i Hwf ltac:(lia) Hu) as [Hwfc Hsizec].
  split; [exact Hwfc|]. split; [exact Hts|].
  split.
  { intros j Hj. change (clear_slot h i) with
      (update_slot h i zeroElement (u32 (Hashmap.size h - 1))).
    rewrite slot_update_ne by lia. apply Hsame. lia. }
  split.
  { intros j Hj. change (clear_slot h i) with
      (update_slot h i zeroElement (u32 (Hashmap.size h - 1))).
    destruct (Z.eq_dec j i) as [->|Hne].
    - rewrite slot_update_eq by lia. reflexivity.
    - rewrite slot_update_ne by lia. apply Hdone. lia. }
  cbn [snd]. split; [exact Hwf1|]. split; [lia|]. split.
  - intros key len value. rewrite Hholds1, He. split.
    + intros [[Hk ->]|[Hk Hold]].
      * exists i. split; [lia|]. split; [|reflexivity].
        unfold occupied_by. rewrite Hu0, hashmapCheckIfMatch_key_eqb, key_eqb_sym.
        exact Hk.
      * apply Hholds in Hold as (j & Hj & Ho & Hv). exists j. split; [lia|auto].
    + intros (j & Hj & Ho & Hv). destruct (Z.eq_dec j i) as [->|Hne].
      * left. apply andb_true_iff in Ho as [_ Hm].
        rewrite hashmapCheckIfMatch_key_eqb, key_eqb_sym in Hm. auto.
      * right. split; [apply (Hfresh j); [lia|exact Ho]|].
        apply Hholds. exists j. split; [lia|auto].
  - rewrite Hsizec, Hsize1; [lia|].
    intros Hp. apply present_holds in Hp as (v & Hv).
    apply Hholds in Hv as (j & Hj & Ho & _). rewrite He in Ho.
    pose proof (wf_nodup _ _ wf0 i j Hi ltac:(lia) Hu0 Ho). lia.
Qed.

End Rehash.

(** ** hashmapExpand and hashmapPut *)

Lemma expand_post_unchanged (hashmap : Hashmap.t) :
  wf mem hashmap -> expand_post mem hashmap hashmap 1.
Proof.
  intros Hwf. split; [exact Hwf|]. split; [right; reflexivity|].
  split; [discriminate|]. intros _. split; [reflexivity|]. intros key len value H. exact H.
Qed.

Lemma hashmapExpand_create (hp : Heap) (hashmap : Hashmap.t) :
  wf mem hashmap ->
  hashmapCreate calloc_ok hp (u32 (2 * Hashmap.tableSize hashmap)) zeroHashmap
  = (hp, Hashmap.mk 0 0 [], 1)
  \/ exists k, 0 <= k < 31 /\ Hashmap.tableSize hashmap = 2 ^ k
       /\ hashmapCreate calloc_ok hp (u32 (2 * Hashmap.tableSize hashmap)) zeroHashmap
          = if calloc_ok (calls hp)
            then (mkHeap (S (calls hp)) (S (live hp)),
                  Hashmap.mk (2 ^ (k + 1)) 0
                    (replicate (Z.to_nat (2 ^ (k + 1))) zeroElement), 0)
            else (mkHeap (S (calls hp)) (live hp), Hashmap.mk (2 ^ (k + 1)) 0 [], 1).
Proof.
  intros Hwf. destruct (wf_pow2 _ _ Hwf) as (k & Hk & Ets).
  destruct (Z.eq_dec k 31) as [->|Hne].
  - left. rewrite Ets. change (u32 (2 * 2 ^ 31)) with 0.
    rewrite hashmapCreate_invalid; [reflexivity|lia|].
    intros Hp. apply is_pow2_pos in Hp. lia.
  - right. exists k. split; [lia|]. split; [exact Ets|].
    assert (E : u32 (2 * Hashmap.tableSize hashmap) = 2 ^ (k + 1)).
    { rewrite Ets. replace (2 * 2 ^ k) with (2 ^ (k + 1))
        by (rewrite Z.pow_add_r by lia; lia).
      apply u32_small.
      assert (0 < 2 ^ (k + 1)) by (apply Z.pow_pos_nonneg; lia).
      assert (2 ^ (k + 1) <= 2 ^ 31) by (apply Z.pow_le_mono_r; lia). lia. }
    rewrite E. apply hashmapCreate_valid.
    + assert (0 < 2 ^ (k + 1)) by (apply Z.pow_pos_nonneg; lia).
      assert (2 ^ (k + 1) <= 2 ^ 31) by (apply Z.pow_le_mono_r; lia). lia.
    + exists (k + 1). split; [lia|reflexivity].
Qed.

Lemma hashmapExpand_with_correct (put : PutFn) (hp : Heap) (hashmap : Hashmap.t)
    (hp' : Heap) (hashmap' : Hashmap.t) (flag : Z) :
  put_correct mem put ->
  wf mem hashmap ->
  hashmapExpand_with calloc_ok put hp hashmap = Some (hp', hashmap', flag) ->
  expand_post mem hashmap hashmap' flag.
Proof.
  intros Hput Hwf H. unfold hashmapExpand_with in H.
  destruct (hashmapExpand_create hp hashmap Hwf) as [E|(k & Hk & Ets & E)]; rewrite E in H.
  { cbn in H. inversion H; subst. apply expand_post_unchanged. exact Hwf. }
  destruct (calloc_ok (calls hp)); cbn [Z.eqb negb] in H.
  2:{ inversion H; subst. apply expand_post_unchanged. exact Hwf. }
  unfold hashmapApplyIterator in H.
  destruct (hashmapApplyIterator_loop _ _ _ _ _) as [[[h1 [hp2 new1]] fl]|] eqn:El;
    [|discriminate].
  pose proof (wf_tableSize_range _ Hwf) as Hts.
  apply (hashmapApplyIterator_loop_inv _ (Hashmap.tableSize hashmap)
           (rehash_inv mem hashmap) (rehash_stopped mem hashmap)) in El.
  - destruct El as [[-> HI]|[-> HQ]]; cbn [Z.eqb negb hashmapDestroy] in H;
      inversion H; subst; clear H.
    + destruct HI as (Hwf1 & Hts1 & _ & Hdone & Hwfn & Hbig & Hholds & Hsize).
      cbn [snd] in *. split; [exact Hwfn|]. split; [left; reflexivity|].
      split; [|intros Hne; contradiction]. intros _. split; [exact Hbig|].
      split; [exact Hholds|].
      assert (E0 : Hashmap.size h1 = 0).
      { rewrite (wf_size _ _ Hwf1). apply count_used_zero. intros i Hi.
        pose proof (wf_len _ _ Hwf1) as Hlen.
        specialize (Hdone (Z.of_nat i) ltac:(lia)). unfold slot in Hdone.
        rewrite Nat2Z.id in Hdone. exact Hdone. }
      lia.
    + destruct HQ as (Hwf1 & Hts1 & Hsub). split; [exact Hwf1|].
      split; [right; reflexivity|]. split; [discriminate|]. intros _.
      split; [exact Hts1|exact Hsub].
  - intros i h c. apply rehash_skip.
  - intros i h c c' e' fl'. apply rehash_visit; assumption.
  - lia.
  - lia.
  - apply rehash_inv_start; assumption.
Qed.

Lemma hashmapExpand_with_total (put : PutFn) (hp : Heap) (hashmap : Hashmap.t) :
  put_correct mem put ->
  wf mem hashmap ->
  (forall hp1 h1 key len value,
     wf mem h1 -> 2 * Hashmap.tableSize hashmap <= Hashmap.tableSize h1 ->
     exists r, put hp1 h1 key len value = Some r) ->
  exists r, hashmapExpand_with calloc_ok put hp hashmap = Some r.
Proof.
  intros Hput Hwf Htotal. unfold hashmapExpand_with.
  destruct (hashmapExpand_create hp hashmap Hwf) as [E|(k & Hk & Ets & E)]; rewrite E.
  { cbn. eexists. reflexivity. }
  destruct (calloc_ok (calls hp)); cbn [Z.eqb negb].
  2:{ eexists. reflexivity. }
  pose proof (wf_tableSize_range _ Hwf) as Hts.
  unfold hashmapApplyIterator.
  destruct (hashmapApplyIterator_loop_total
              (hashmapRehashIterator_with put) (Hashmap.tableSize hashmap)
              (rehash_inv mem hashmap)) with
    (n := Z.to_nat (Hashmap.tableSize hashmap)) (i := 0) (h := hashmap)
    (c := (mkHeap (S (calls hp)) (S (live hp)),
           Hashmap.mk (2 ^ (k + 1)) 0 (replicate (Z.to_nat (2 ^ (k + 1))) zeroElement)))
    as [[[h1 [hp2 new1]] fl] El].
  - intros i h c. apply rehash_skip.
  - intros i h [hp1 new] Hi HI Hu.
    pose proof HI as (_ & _ & _ & _ & Hwfn & Hbig & _). cbn [snd] in Hwfn, Hbig.
    destruct (Htotal hp1 new (HashmapElement.key (slot h i))
                (HashmapElement.keyLen (slot h i)) (HashmapElement.data (slot h i))
                Hwfn Hbig) as [[[hp2 new2] fl] Ep].
    assert (Ev : exists c' e' flag,
              hashmapRehashIterator_with put (hp1, new) (slot h i) = Some (c', e', flag)).
    { unfold hashmapRehashIterator_with. rewrite Ep.
      destruct (negb (fl =? 0)); eexists _, _, _; reflexivity. }
    destruct Ev as (c' & e' & flag & Ev). exists c', e', flag. split; [exact Ev|].
    pose proof (rehash_visit put Hput hashmap Hwf i h _ c' e' flag Hi HI Hu Ev) as Hv.
    split; intros ->; exact Hv.
  - lia.
  - lia.
  - apply rehash_inv_start; assumption.
  - rewrite El. destruct (negb (fl =? 0)); eexists; reflexivity.
Qed.

Lemma hashmapPut_fuel_correct (fuel : nat) :
  put_correct mem (hashmapPut_fuel mem calloc_ok fuel).
Proof.
  induction fuel as [|fuel IH]; intros hp h key len value hp' h' flag Hwf H;
    cbn [hashmapPut_fuel] in H;
    destruct (hashmapGetBucket mem h key len) as [i|] eqn:Eb.
  - inversion H; subst. apply hashmapPut_store_spec; assumption.
  - discriminate.
  - inversion H; subst. apply hashmapPut_store_spec; assumption.
  - destruct (hashmapExpand_with _ _ _ _) as [[[hp1 h1] fl]|] eqn:Ee; [|discriminate].
    apply hashmapExpand_with_correct in Ee as (Hwf1 & Hfl & Hok & Hfail);
      [|exact IH|exact Hwf].
    pose proof (wf_tableSize_range _ Hwf) as Hts.
    destruct (fl =? 0) eqn:E0; cbn [negb] in H.
    + apply Z.eqb_eq in E0. destruct (Hok E0) as (Hbig & Hholds & Hsize).
      destruct (IH _ _ _ _ _ _ _ _ Hwf1 H) as (Hwf' & Hmono & Hflag & Hpost).
      split; [exact Hwf'|]. split; [lia|]. split; [exact Hflag|].
      intros Hz. destruct (Hpost Hz) as (Hh & Hp & Ha & Hslot).
      assert (Hpres : present mem h1 key len <-> present mem h key len).
      { rewrite !present_holds. split; intros (v & Hv); exists v; apply Hholds; exact Hv. }
      split; [|split; [|split]].
      * intros key' len' value'. rewrite Hh, Hholds. reflexivity.
      * intros Hpr. rewrite Hp by (apply Hpres; exact Hpr). exact Hsize.
      * intros Hab. rewrite Ha by (rewrite Hpres; exact Hab). lia.
      * exact Hslot.
    + inversion H; subst. apply Z.eqb_neq in E0. destruct (Hfail E0) as [Hts1 _].
      split; [exact Hwf1|]. split; [lia|]. split; [right; reflexivity|]. discriminate.
Qed.

Lemma hashmapPut_fuel_total (fuel : nat) (hp : Heap) (hashmap : Hashmap.t)
    (key len value : Z) :
  wf mem hashmap ->
  2 ^ 32 <= 2 ^ Z.of_nat fuel * Hashmap.tableSize hashmap ->
  exists r, hashmapPut_fuel mem calloc_ok fuel hp hashmap key len value = Some r.
Proof.
  revert hp hashmap key len value.
  induction fuel as [|fuel IH]; intros hp h key len value Hwf Hfuel;
    pose proof (wf_tableSize_range _ Hwf) as Hts.
  - change (2 ^ Z.of_nat 0) with 1 in Hfuel. lia.
  - cbn [hashmapPut_fuel].
    destruct (hashmapGetBucket mem h key len) as [i|]; [eexists; reflexivity|].
    assert (Hpow : 2 ^ Z.of_nat (S fuel) = 2 * 2 ^ Z.of_nat fuel).
    { rewrite Nat2Z.inj_succ, Z.pow_succ_r by lia. reflexivity. }
    assert (Hpos : 0 < 2 ^ Z.of_nat fuel) by (apply Z.pow_pos_nonneg; lia).
    destruct (hashmapExpand_with_total (hashmapPut_fuel mem calloc_ok fuel) hp h)
      as [[[hp1 h1] fl] Ee].
    + apply hashmapPut_fuel_correct.
    + exact Hwf.
    + intros hp1 h1 key1 len1 value1 Hwf1 Hbig. apply IH; [exact Hwf1|]. nia.
    + rewrite Ee.
      apply hashmapExpand_with_correct in Ee as (Hwf1 & Hfl & Hok & Hfail);
        [|apply hashmapPut_fuel_correct|exact Hwf].
      destruct (fl =? 0) eqn:E0; cbn [negb]; [|eexists; reflexivity].
      apply Z.eqb_eq in E0. destruct (Hok E0) as (Hbig & _).
      apply IH; [exact Hwf1|]. nia.
Qed.

(** [hashmapPut] returns on every well-formed table. *)
Lemma hashmapPut_total (hp : Heap) (hashmap : Hashmap.t) (key len value : Z) :
  wf mem hashmap ->
  exists hp' hashmap' flag,
    hashmapPut mem calloc_ok hp hashmap key len value = Some (hp', hashmap', flag).
Proof.
  intros Hwf. pose proof (wf_tableSize_range _ Hwf) as Hts.
  destruct (hashmapPut_fuel_total put_fuel hp hashmap key len value Hwf)
    as [[[hp' h'] flag] E].
  - change (2 ^ Z.of_nat put_fuel) with (2 ^ 32). lia.
  - exists hp', h', flag. exact E.
Qed.

Lemma hashmapPut_correct : put_correct mem (hashmapPut mem calloc_ok).
Proof. apply hashmapPut_fuel_correct. Qed.

(** [hashmapExpand] returns on every well-formed table. *)
Lemma hashmapExpand_total (hp : Heap) (hashmap : Hashmap.t) :
  wf mem hashmap ->
  exists hp' hashmap' flag,
    hashmapExpand mem calloc_ok hp hashmap = Some (hp', hashmap', flag).
Proof.
  intros Hwf.
  destruct (hashmapExpand_with_total (hashmapPut mem calloc_ok) hp hashmap)
    as [[[hp' h'] flag] E].
  - apply hashmapPut_correct.
  - exact Hwf.
  - intros hp1 h1 key len value Hwf1 _.
    destruct (hashmapPut_total hp1 h1 key len value Hwf1) as (a & b & c & E).
    eexists. exact E.
  - exists hp', h', flag. exact E.
Qed.

Lemma hashmapExpand_correct (hp : Heap) (hashmap : Hashmap.t)
    (hp' : Heap) (hashmap' : Hashmap.t) (flag : Z) :
  wf mem hashmap ->
  hashmapExpand mem calloc_ok hp hashmap = Some (hp', hashmap', flag) ->
  expand_post mem hashmap hashmap' flag.
Proof. intros Hwf H. eapply hashmapExpand_with_correct; [apply hashmapPut_correct|exact Hwf|exact H]. Qed.

(** ** The recursion bound is not observable *)

Lemma hashmapApplyIterator_loop_mono {C : Type} (f f' : Visitor C) :
  (forall c e r, f c e = Some r -> f' c e = Some r) ->
  forall n i h c r,
    hashmapApplyIterator_loop f n i h c = Some r ->
    hashmapApplyIterator_loop f' n i h c = Some r.
Proof.
  intros Hext. induction n as [|n IH]; intros i h c r H; [exact H|].
  cbn [hashmapApplyIterator_loop] in H |- *.
  destruct (HashmapElement.used (slot h i)); [|apply IH; exact H].
  destruct (f c (slot h i)) as [[[c1 e1] fl]|] eqn:Ef; [|discriminate].
  rewrite (Hext _ _ _ Ef). destruct (fl =? -1); [apply IH; exact H|].
  destruct (fl =? 0); [apply IH; exact H|exact H].
Qed.

Lemma hashmapExpand_with_mono (put put' : PutFn) :
  (forall hp h key len value r,
     put hp h key len value = Some r -> put' hp h key len value = Some r) ->
  forall hp h r,
    hashmapExpand_with calloc_ok put hp h = Some r ->
    hashmapExpand_with calloc_ok put' hp h = Some r.
Proof.
  intros Hext hp h r H. unfold hashmapExpand_with in H |- *.
  destruct (hashmapCreate calloc_ok hp _ zeroHashmap) as [[hp1 new] fl].
  destruct (negb (fl =? 0)); [exact H|].
  destruct (hashmapApplyIterator h (hashmapRehashIterator_with put) (hp1, new))
    as [[[h1 [hp2 new1]] fl1]|] eqn:El; [|discriminate].
  unfold hashmapApplyIterator in El |- *.
  rewrite (hashmapApplyIterator_loop_mono (hashmapRehashIterator_with put)
             (hashmapRehashIterator_with put')) with (r := (h1, (hp2, new1), fl1)).
  - exact H.
  - intros [hp0 new0] e r0 Hr. unfold hashmapRehashIterator_with in Hr |- *.
    destruct (put hp0 new0 _ _ _) as [r1|] eqn:Ep; [|discriminate].
    rewrite (Hext _ _ _ _ _ _ Ep). exact Hr.
  - exact El.
Qed.

Lemma hashmapPut_fuel_S (fuel : nat) (hp : Heap) (h : Hashmap.t) (key len value : Z)
    (r : Heap * Hashmap.t * Z) :
  hashmapPut_fuel mem calloc_ok fuel hp h key len value = Some r ->
  hashmapPut_fuel mem calloc_ok (S fuel) hp h key len value = Some r.
Proof.
  revert hp h key len value r. induction fuel as [|fuel IH]; intros hp h key len value r H.
  - cbn [hashmapPut_fuel] in H |- *.
    destruct (hashmapGetBucket mem h key len); [exact H|discriminate].
  - remember (S fuel) as m eqn:Em. cbn [hashmapPut_fuel]. subst m.
    cbn [hashmapPut_fuel] in H.
    destruct (hashmapGetBucket mem h key len); [exact H|].
    destruct (hashmapExpand_with calloc_ok (hashmapPut_fuel mem calloc_ok fuel) hp h)
      as [[[hp1 h1] fl]|] eqn:Ee; [|discriminate].
    rewrite (hashmapExpand_with_mono _ (hashmapPut_fuel mem calloc_ok (S fuel)) IH _ _ _ Ee).
    destruct (negb (fl =? 0)); [exact H|]. apply IH. exact H.
Qed.

Lemma hashmapPut_fuel_eq (fuel : nat) (hp : Heap) (h : Hashmap.t) (key len value : Z) :
  hashmapPut_fuel mem calloc_ok (S fuel) hp h key len value =
  match hashmapGetBucket mem h key len with
  | Some outIndex => Some (hp, hashmapPut_store h outIndex key len value, 0)
  | None =>
      match hashmapExpand_with calloc_ok (hashmapPut_fuel mem calloc_ok fuel) hp h with
      | None => None
      | Some (hp, h, flag) =>
          if negb (flag =? 0) then Some (hp, h, 1)
          else hashmapPut_fuel mem calloc_ok fuel hp h key len value
      end
  end.
Proof. reflexivity. Qed.

(** A call that returns satisfies the recursive equation of the C function
    with the same bound on both sides. *)
Lemma hashmapPut_fuel_unfold (fuel : nat) (hp : Heap) (h : Hashmap.t)
    (key len value : Z) (r : Heap * Hashmap.t * Z) :
  hashmapPut_fuel mem calloc_ok (S fuel) hp h key len value = Some r ->
  match hashmapGetBucket mem h key len with
  | Some outIndex => Some (hp, hashmapPut_store h outIndex key len value, 0)
  | None =>
      match hashmapExpand_with calloc_ok (hashmapPut_fuel mem calloc_ok (S fuel)) hp h with
      | None => None
      | Some (hp, h, flag) =>
          if negb (flag =? 0) then Some (hp, h, 1)
          else hashmapPut_fuel mem calloc_ok (S fuel) hp h key len value
      end
  end = Some r.
Proof.
  intros H. rewrite hashmapPut_fuel_eq in H.
  destruct (hashmapGetBucket mem h key len); [exact H|].
  destruct (hashmapExpand_with calloc_ok (hashmapPut_fuel mem calloc_ok fuel) hp h)
    as [[[hp1 h1] fl]|] eqn:Ee; [|discriminate].
  rewrite (hashmapExpand_with_mono _ (hashmapPut_fuel mem calloc_ok (S fuel))
             (hashmapPut_fuel_S fuel) _ _ _ Ee).
  destruct (negb (fl =? 0)); [exact H|].
  apply hashmapPut_fuel_S. exact H.
Qed.

Lemma hashmapPut_fuel_0_eq (hp : Heap) (h : Hashmap.t) (key len value : Z) :
  hashmapPut_fuel mem calloc_ok 0 hp h key len value =
  match hashmapGetBucket mem h key len with
  | Some outIndex => Some (hp, hashmapPut_store h outIndex key len value, 0)
  | None => None
  end.
Proof. reflexivity. Qed.

Lemma put_fuel_eq : put_fuel = S 31.
Proof. reflexivity. Qed.

(** The bounded recursion is used through its equations from here on. *)
Opaque hashmapPut_fuel.

(** On well-formed tables [hashmapPut] satisfies the recursive equation of
    the C function: it calls [hashmapExpand] itself and starts over. *)
Lemma hashmapPut_unfold (hp : Heap) (hashmap : Hashmap.t) (key len value : Z) :
  wf mem hashmap ->
  hashmapPut mem calloc_ok hp hashmap key len value =
  match hashmapGetBucket mem hashmap key len with
  | Some outIndex => Some (hp, hashmapPut_store hashmap outIndex key len value, 0)
  | None =>
      match hashmapExpand mem calloc_ok hp hashmap with
      | None => None
      | Some (hp, hashmap, flag) =>
          if negb (flag =? 0) then Some (hp, hashmap, 1)
          else hashmapPut mem calloc_ok hp hashmap key len value
      end
  end.
Proof.
  intros Hwf.
  destruct (hashmapPut_total hp hashmap key len value Hwf) as (hp' & h' & flag & E).
  rewrite E. symmetry. unfold hashmapExpand, hashmapPut in E |- *.
  rewrite put_fuel_eq in E |- *.
  exact (hashmapPut_fuel_unfold 31 hp hashmap key len value _ E).
Qed.

(** ** Traversal order *)

Lemma filter_agree {A : Type} (P1 P2 : A -> Prop)
    `{!forall x, Decision (P1 x), !forall x, Decision (P2 x)} (l : list A) :
  (forall x, x ∈ l -> (P1 x <-> P2 x)) ->
  filter P1 l = filter P2 l.
Proof.
  induction l as [|a l IH]; intros Hagree; [reflexivity|].
  assert (Ha : P1 a <-> P2 a) by (apply Hagree; left).
  assert (Hl : filter P1 l = filter P2 l).
  { apply IH. intros x Hx. apply Hagree. right. exact Hx. }
  destruct (decide (P1 a)) as [Hp|Hp].
  - rewrite !filter_cons_True by tauto. rewrite Hl. reflexivity.
  - rewrite !filter_cons_False by tauto. exact Hl.
Qed.

Lemma occupied_from_update (hashmap : Hashmap.t) (i : Z) (e : HashmapElement.t)
    (count m n : Z) :
  0 <= i < m ->
  filter (fun j => HashmapElement.used (slot (update_slot hashmap i e count) j) = true)
    (seqZ m n)
  = filter (fun j => HashmapElement.used (slot hashmap j) = true) (seqZ m n).
Proof.
  intros Hi. apply filter_agree. intros j Hj. apply elem_of_seqZ in Hj.
  rewrite slot_update_ne by lia. reflexivity.
Qed.

Lemma hashmapApplyIterator_loop_visit {C : Type} (f : Visitor C) (n : nat) (i : Z)
    (hashmap : Hashmap.t) (context : C) :
  0 <= i ->
  hashmapApplyIterator_loop f n i hashmap context
  = visit_slots f
      (filter (fun j => HashmapElement.used (slot hashmap j) = true)
         (seqZ i (Z.of_nat n)))
      hashmap context.
Proof.
  revert i hashmap context. induction n as [|n IH]; intros i h c Hi; [reflexivity|].
  rewrite seqZ_cons by lia.
  replace (Z.pred (Z.of_nat (S n))) with (Z.of_nat n) by lia.
  replace (Z.succ i) with (i + 1) by lia.
  cbn [hashmapApplyIterator_loop].
  destruct (HashmapElement.used (slot h i)) eqn:Eu.
  - rewrite filter_cons_True by exact Eu. cbn [visit_slots].
    destruct (f c (slot h i)) as [[[c1 e1] fl]|]; [|reflexivity].
    destruct (fl =? -1).
    + rewrite IH by lia. unfold clear_slot.
      change (Hashmap.mk _ _ _) with
        (update_slot h i zeroElement (u32 (Hashmap.size h - 1))).
      rewrite occupied_from_update by lia. reflexivity.
    + destruct (fl =? 0); [|reflexivity].
      rewrite IH by lia.
      change (set_slot h i e1) with (update_slot h i e1 (Hashmap.size h)).
      rewrite occupied_from_update by lia. reflexivity.
  - rewrite filter_cons_False by (rewrite Eu; discriminate). apply IH. lia.
Qed.

Lemma occupied_sorted (P : Z -> Prop) `{!forall j, Decision (P j)} (n : nat) (m : Z) :
  StronglySorted Z.lt (filter P (seqZ m (Z.of_nat n))).
Proof.
  revert m. induction n as [|n IH]; intros m; [constructor|].
  rewrite seqZ_cons by lia.
  replace (Z.pred (Z.of_nat (S n))) with (Z.of_nat n) by lia.
  destruct (decide (P m)) as [Hp|Hp].
  - rewrite filter_cons_True by exact Hp. constructor; [apply IH|].
    apply Forall_forall. intros j Hj.
    apply list_elem_of_filter in Hj as [_ Hj]. apply elem_of_seqZ in Hj. lia.
  - rewrite filter_cons_False by exact Hp. apply IH.
Qed.




(** ** The claims about single operations *)

(** C7: for a requested capacity in the range of [unsigned], [hashmapCreate]
    fails at its validity test, before any allocation, exactly when the
    capacity is [0] or not a power of two; for a valid capacity it fails
    when [calloc] returns the null pointer; otherwise it succeeds with
    count [0] and every slot unoccupied. Both failures are reported by the
    same return value [1]. *)
Theorem hashmapCreate_spec (hp : Heap) (initialSize : Z) (out : Hashmap.t) :
  0 <= initialSize < 2 ^ 32 ->
  (initialSize = 0 \/ ~ is_pow2 initialSize <->
   snd (hashmapCreate calloc_ok hp initialSize out) = 1
   /\ fst (fst (hashmapCreate calloc_ok hp initialSize out)) = hp)
  /\ (is_pow2 initialSize -> calloc_ok (calls hp) = false ->
      hashmapCreate calloc_ok hp initialSize out
      = (mkHeap (S (calls hp)) (live hp), Hashmap.mk initialSize 0 [], 1))
  /\ (is_pow2 initialSize -> calloc_ok (calls hp) = true ->
      exists hashmap,
        hashmapCreate calloc_ok hp initialSize out
        = (mkHeap (S (calls hp)) (S (live hp)), hashmap, 0)
        /\ Hashmap.tableSize hashmap = initialSize
        /\ Hashmap.size hashmap = 0
        /\ Z.of_nat (length (Hashmap.data hashmap)) = initialSize
        /\ (forall i, HashmapElement.used (slot hashmap i) = false)
        /\ wf mem hashmap).
Proof.
  intros Hr. split; [|split].
  - split.
    + intros Hbad. rewrite hashmapCreate_invalid; [split; reflexivity|exact Hr|].
      destruct Hbad as [->|Hn]; [|exact Hn]. intros Hp. apply is_pow2_pos in Hp. lia.
    + intros [Hflag Hheap]. right. intros Hp.
      rewrite hashmapCreate_valid in Hflag, Hheap by assumption.
      destruct (calloc_ok (calls hp)); cbn in Hflag, Hheap; [discriminate|].
      destruct hp as [c l]. cbn in Hheap. inversion Hheap. lia.
  - intros Hp Hc. rewrite hashmapCreate_valid, Hc by assumption. reflexivity.
  - intros Hp Hc. rewrite hashmapCreate_valid, Hc by assumption.
    eexists. split; [reflexivity|]. cbn [Hashmap.tableSize Hashmap.size Hashmap.data].
    split; [reflexivity|]. split; [reflexivity|].
    split; [rewrite length_replicate; lia|].
    split; [intros i; rewrite slot_replicate; reflexivity|].
    destruct Hp as (k & Hk & ->). apply wf_fresh. split; [exact Hk|].
    apply (Z.pow_lt_mono_r_iff 2); lia.
Qed.

(** C10: [hashmapCreate] stores [tableSize = initialSize] and [size = 0]
    into the caller's structure before it validates the capacity: for an
    invalid capacity the failed call has overwritten these two fields and
    has left the [data] pointer as it was. *)
Theorem hashmapCreate_invalid_writes (hp : Heap) (initialSize : Z) (out : Hashmap.t) :
  0 <= initialSize < 2 ^ 32 ->
  initialSize = 0 \/ ~ is_pow2 initialSize ->
  exists out',
    hashmapCreate calloc_ok hp initialSize out = (hp, out', 1)
    /\ Hashmap.tableSize out' = initialSize
    /\ Hashmap.size out' = 0
    /\ Hashmap.data out' = Hashmap.data out.
Proof.
  intros Hr Hbad. exists (Hashmap.mk initialSize 0 (Hashmap.data out)).
  split; [|split; [|split]; reflexivity].
  apply hashmapCreate_invalid; [exact Hr|].
  destruct Hbad as [->|Hn]; [|exact Hn]. intros Hp. apply is_pow2_pos in Hp. lia.
Qed.

(** C8: the bucket index computed by [hashmapStringHasher] is a function of
    the key bytes, the length and the capacity alone: two calls agree
    whenever these agree, whatever the key addresses, the rest of the
    memory and the other fields of the table are; and for a positive
    capacity the index is below the capacity. *)
Theorem hashmapStringHasher_pure (mem' : Z -> byte) (hashmap hashmap' : Hashmap.t)
    (key key' len : Z) :
  (Hashmap.tableSize hashmap = Hashmap.tableSize hashmap' ->
   (forall i, 0 <= i < len -> mem (key + i) = mem' (key' + i)) ->
   hashmapStringHasher mem hashmap key len = hashmapStringHasher mem' hashmap' key' len)
  /\ (0 < Hashmap.tableSize hashmap ->
      0 <= hashmapStringHasher mem hashmap key len < Hashmap.tableSize hashmap).
Proof.
  split.
  - intros Hts Hbytes. apply hashmapStringHasher_ext; [exact Hts|].
    intros i Hi. unfold byte_at. rewrite (Hbytes i Hi). reflexivity.
  - apply hashmapStringHasher_range.
Qed.

(** C9: the outcome of [hashmapGet] and [hashmapRemove] is decided by the
    eight slots of the probe window, and an unoccupied slot does not end
    the scan: when the key sits [j < 8] steps after its start index and no
    earlier slot of the window holds it (each is unoccupied or holds
    another key), [hashmapGet] returns its value and [hashmapRemove] clears
    exactly that slot; when none of the eight slots holds it, [hashmapGet]
    returns the null pointer and [hashmapRemove] returns [1]. *)
Theorem window_lookup (hashmap : Hashmap.t) (key len : Z) :
  0 < Hashmap.tableSize hashmap < 2 ^ 32 ->
  (forall j,
     0 <= j < HASHMAP_MAX_CHAIN_LENGTH ->
     HashmapElement.used (slot hashmap (probe mem hashmap key len j)) = true ->
     hashmapCheckIfMatch mem (slot hashmap (probe mem hashmap key len j)) key len = true ->
     (forall j', 0 <= j' < j ->
        HashmapElement.used (slot hashmap (probe mem hashmap key len j')) = false
        \/ hashmapCheckIfMatch mem (slot hashmap (probe mem hashmap key len j')) key len
           = false) ->
     hashmapGet mem hashmap key len
     = HashmapElement.data (slot hashmap (probe mem hashmap key len j))
     /\ hashmapRemove mem hashmap key len
        = (clear_slot hashmap (probe mem hashmap key len j), 0))
  /\ ((forall j, 0 <= j < HASHMAP_MAX_CHAIN_LENGTH ->
         HashmapElement.used (slot hashmap (probe mem hashmap key len j)) = false
         \/ hashmapCheckIfMatch mem (slot hashmap (probe mem hashmap key len j)) key len
            = false) ->
      hashmapGet mem hashmap key len = NULL
      /\ hashmapRemove mem hashmap key len = (hashmap, 1)).
Proof.
  intros Hts. split.
  2:{ intros Hnone. unfold HASHMAP_MAX_CHAIN_LENGTH in Hnone.
      assert (E : scan (fun i => occupied_by mem hashmap i key len)
                    (Hashmap.tableSize hashmap) 8
                    (hashmapStringHasher mem hashmap key len) = None).
      { destruct (scan _ _ _ _) as [i0|] eqn:E; [|reflexivity].
        apply scan_window_Some in E as (j0 & Hj0 & -> & HP & _); [|exact Hts].
        apply andb_true_iff in HP as [Hu Hm].
        destruct (Hnone j0 Hj0) as [Hf|Hf]; congruence. }
      rewrite hashmapGet_scan, hashmapRemove_scan, E. split; reflexivity. }
  intros j Hj Hu Hm Hbefore. unfold HASHMAP_MAX_CHAIN_LENGTH in Hj.
  assert (E : scan (fun i => occupied_by mem hashmap i key len)
                (Hashmap.tableSize hashmap) 8 (hashmapStringHasher mem hashmap key len)
              = Some (probe mem hashmap key len j)).
  { apply scan_window_first; [exact Hts|exact Hj| |].
    - unfold occupied_by. rewrite Hu, Hm. reflexivity.
    - intros j' Hj'. unfold occupied_by.
      destruct (Hbefore j' Hj') as [-> | ->]; [reflexivity|apply andb_false_r]. }
  rewrite hashmapGet_scan, hashmapRemove_scan, E. split; reflexivity.
Qed.

(** C2: the four-step contract of [hashmapGetBucket]. (1) With
    [size >= tableSize] the answer is "no bucket", whatever the slots
    hold. Otherwise, over the window of eight probes from the hash index,
    stepping by one modulo the capacity: (2) if some probed slot is occupied
    by the key, the first such slot is returned; (3) if none is and some
    probed slot is free, the first free one is returned; (4) if none is and
    all probed slots are occupied, the answer is "no bucket". The last case
    occurs in tables that have free slots outside the window. *)
Theorem hashmapGetBucket_contract (hashmap : Hashmap.t) (key len : Z) :
  (Hashmap.size hashmap >= Hashmap.tableSize hashmap ->
   forall slots,
     hashmapGetBucket mem
       (Hashmap.mk (Hashmap.tableSize hashmap) (Hashmap.size hashmap) slots) key len
     = None)
  /\ (0 <= Hashmap.size hashmap < Hashmap.tableSize hashmap ->
      Hashmap.tableSize hashmap < 2 ^ 32 ->
      (forall j, 0 <= j < HASHMAP_MAX_CHAIN_LENGTH ->
         occupied_by mem hashmap (probe mem hashmap key len j) key len = true ->
         (forall j', 0 <= j' < j ->
            occupied_by mem hashmap (probe mem hashmap key len j') key len = false) ->
         hashmapGetBucket mem hashmap key len = Some (probe mem hashmap key len j))
      /\ ((forall j, 0 <= j < HASHMAP_MAX_CHAIN_LENGTH ->
             occupied_by mem hashmap (probe mem hashmap key len j) key len = false) ->
          (forall j, 0 <= j < HASHMAP_MAX_CHAIN_LENGTH ->
             HashmapElement.used (slot hashmap (probe mem hashmap key len j)) = false ->
             (forall j', 0 <= j' < j ->
                HashmapElement.used (slot hashmap (probe mem hashmap key len j')) = true) ->
             hashmapGetBucket mem hashmap key len = Some (probe mem hashmap key len j))
          /\ ((forall j, 0 <= j < HASHMAP_MAX_CHAIN_LENGTH ->
                 HashmapElement.used (slot hashmap (probe mem hashmap key len j)) = true) ->
              hashmapGetBucket mem hashmap key len = None)))
  /\ (exists full_window i,
        Hashmap.size full_window < Hashmap.tableSize full_window
        /\ 0 <= i < Hashmap.tableSize full_window
        /\ HashmapElement.used (slot full_window i) = false
        /\ hashmapGetBucket mem full_window 0 0 = None).
Proof.
  split; [|split].
  - intros Hfull slots. unfold hashmapGetBucket. cbn [Hashmap.size Hashmap.tableSize].
    rewrite (proj2 (Z.geb_le _ _)) by lia. reflexivity.
  - intros Hsz Hts32. assert (Hts : 0 < Hashmap.tableSize hashmap < 2 ^ 32) by lia.
    unfold HASHMAP_MAX_CHAIN_LENGTH.
    assert (Hnf : (Hashmap.size hashmap >=? Hashmap.tableSize hashmap) = false).
    { rewrite Z.geb_leb. apply Z.leb_gt. lia. }
    rewrite hashmapGetBucket_scan, Hnf. split; [|intros Hnone; split].
    + intros j Hj Ho Hmin.
      rewrite (scan_window_first (fun i => occupied_by mem hashmap i key len)
                 hashmap key len j Hts Hj Ho Hmin). reflexivity.
    + intros j Hj Hfree Hmin.
      destruct (scan (fun i => occupied_by mem hashmap i key len) _ _ _) as [i0|] eqn:E.
      { apply scan_window_Some in E as (j0 & Hj0 & -> & HP & _); [|exact Hts].
        rewrite Hnone in HP by exact Hj0. discriminate. }
      apply scan_window_first; [exact Hts|exact Hj| |].
      * rewrite Hfree. reflexivity.
      * intros j' Hj'. rewrite Hmin by exact Hj'. reflexivity.
    + intros Hall.
      destruct (scan (fun i => occupied_by mem hashmap i key len) _ _ _) as [i0|] eqn:E.
      { apply scan_window_Some in E as (j0 & Hj0 & -> & HP & _); [|exact Hts].
        rewrite Hnone in HP by exact Hj0. discriminate. }
      destruct (scan (fun i => negb (HashmapElement.used (slot hashmap i))) _ _ _)
        as [i0|] eqn:E'; [|reflexivity].
      apply scan_window_Some in E' as (j0 & Hj0 & -> & HP & _); [|exact Hts].
      rewrite Hall in HP by exact Hj0. discriminate.
  - exists demo_full_window, 8.
    split; [cbn; lia|]. split; [cbn; lia|]. split; [reflexivity|].
    vm_compute. reflexivity.
Qed.

(** C6: on a well-formed table, removing a present key zeroes every field
    of the slot that holds it, decrements the count and changes nothing
    else: the table keeps no other trace of the value, which is neither
    read nor written; afterwards [hashmapGet] on the key returns the null
    pointer. Removing an absent key returns [1] and leaves the table
    as it was. *)
Theorem hashmapRemove_spec (hashmap : Hashmap.t) (key len : Z) :
  wf mem hashmap ->
  (forall i, 0 <= i < Hashmap.tableSize hashmap ->
     occupied_by mem hashmap i key len = true ->
     exists hashmap',
       hashmapRemove mem hashmap key len = (hashmap', 0)
       /\ slot hashmap' i = zeroElement
       /\ (forall i', 0 <= i' -> i' <> i -> slot hashmap' i' = slot hashmap i')
       /\ Hashmap.size hashmap' = Hashmap.size hashmap - 1
       /\ Hashmap.tableSize hashmap' = Hashmap.tableSize hashmap
       /\ wf mem hashmap'
       /\ hashmapGet mem hashmap' key len = NULL)
  /\ (~ present mem hashmap key len ->
      hashmapRemove mem hashmap key len = (hashmap, 1)).
Proof.
  intros Hwf. pose proof (wf_tableSize_range _ Hwf) as Hts.
  pose proof (wf_len _ _ Hwf) as Hlen. split.
  - intros i Hi Ho. exists (clear_slot hashmap i).
    rewrite hashmapRemove_scan, (wf_scan_present _ _ _ _ Hwf Hi Ho).
    pose proof Ho as Ho'. apply andb_true_iff in Ho' as [Hu _].
    destruct (wf_clear_slot hashmap i Hwf Hi Hu) as [Hwf' Hsize].
    split; [reflexivity|].
    change (clear_slot hashmap i) with
      (update_slot hashmap i zeroElement (u32 (Hashmap.size hashmap - 1))) in *.
    split; [apply slot_update_eq; lia|].
    split; [intros i' Hi' Hne; apply slot_update_ne; lia|].
    split; [exact Hsize|]. split; [reflexivity|]. split; [exact Hwf'|].
    apply hashmapGet_absent; [exact Hts|].
    apply (clear_slot_absent hashmap i key len Hwf Hi Ho).
  - intros Habs. rewrite hashmapRemove_scan, (scan_absent _ _ _ Hts Habs). reflexivity.
Qed.

(** ** Why an insertion fails *)

Lemma pow2_compose (d1 d2 s0 s1 : Z) :
  0 <= d1 -> 0 <= d2 ->
  s1 <= 2 ^ d1 * s0 ->
  2 ^ d2 * s1 <= 2 ^ (d1 + d2) * s0.
Proof.
  intros H1 H2 H. rewrite Z.pow_add_r by lia.
  assert (Hp : 0 <= 2 ^ d2) by (apply Z.pow_nonneg; lia).
  pose proof (Z.mul_le_mono_nonneg_l _ _ _ Hp H) as Hm. lia.
Qed.

Lemma refused_widen (hp0 hp hp1 hp2 : Heap) :
  (calls hp0 <= calls hp)%nat -> (calls hp1 <= calls hp2)%nat ->
  refused calloc_ok hp hp1 -> refused calloc_ok hp0 hp2.
Proof. intros H0 H2 (n & Hn & E). exists n. split; [lia|exact E]. Qed.

Lemma capacity_exhausted_widen (hp0 hp hp1 : Heap) (s0 s : Z) :
  (calls hp0 <= calls hp)%nat -> (calls hp <= calls hp1)%nat ->
  s <= 2 ^ (Z.of_nat (calls hp) - Z.of_nat (calls hp0)) * s0 ->
  capacity_exhausted hp hp1 s -> capacity_exhausted hp0 hp1 s0.
Proof.
  unfold capacity_exhausted. intros H0 H1 Hs He.
  pose proof (pow2_compose (Z.of_nat (calls hp) - Z.of_nat (calls hp0))
                (Z.of_nat (calls hp1) - Z.of_nat (calls hp)) s0 s
                ltac:(lia) ltac:(lia) Hs) as Hc.
  replace (Z.of_nat (calls hp) - Z.of_nat (calls hp0)
           + (Z.of_nat (calls hp1) - Z.of_nat (calls hp)))
    with (Z.of_nat (calls hp1) - Z.of_nat (calls hp0)) in Hc by lia.
  lia.
Qed.

Lemma growth_account_compose (hp0 hp1 hp2 : Heap) (s0 s1 s2 flag : Z) :
  growth_account calloc_ok hp0 s0 hp1 s1 0 ->
  growth_account calloc_ok hp1 s1 hp2 s2 flag ->
  growth_account calloc_ok hp0 s0 hp2 s2 flag.
Proof.
  intros (Hc1 & Hs1 & _) (Hc2 & Hs2 & Hf2). specialize (Hs1 eq_refl).
  split; [lia|]. split.
  - intros Hfl. specialize (Hs2 Hfl).
    pose proof (pow2_compose (Z.of_nat (calls hp1) - Z.of_nat (calls hp0))
                  (Z.of_nat (calls hp2) - Z.of_nat (calls hp1)) s0 s1
                  ltac:(lia) ltac:(lia) Hs1) as Hc.
    replace (Z.of_nat (calls hp1) - Z.of_nat (calls hp0)
             + (Z.of_nat (calls hp2) - Z.of_nat (calls hp1)))
      with (Z.of_nat (calls hp2) - Z.of_nat (calls hp0)) in Hc by lia.
    lia.
  - intros Hfl. destruct (Hf2 Hfl) as [Hr|He].
    + left. apply (refused_widen hp0 hp1 hp2 hp2); [lia|lia|exact Hr].
    + right. apply (capacity_exhausted_widen hp0 hp1 hp2 s0 s1); assumption.
Qed.

Lemma hashmapPut_store_tableSize (hashmap : Hashmap.t) (i key len value : Z) :
  Hashmap.tableSize (hashmapPut_store hashmap i key len value)
  = Hashmap.tableSize hashmap.
Proof. unfold hashmapPut_store. cbv zeta. destruct (negb _); reflexivity. Qed.

Lemma hashmapExpand_create_cases (hp : Heap) (hashmap : Hashmap.t) :
  wf mem hashmap ->
  (Hashmap.tableSize hashmap = 2 ^ 31
   /\ hashmapCreate calloc_ok hp (u32 (2 * Hashmap.tableSize hashmap)) zeroHashmap
      = (hp, Hashmap.mk 0 0 [], 1))
  \/ exists k, 0 <= k < 31 /\ Hashmap.tableSize hashmap = 2 ^ k
       /\ hashmapCreate calloc_ok hp (u32 (2 * Hashmap.tableSize hashmap)) zeroHashmap
          = if calloc_ok (calls hp)
            then (mkHeap (S (calls hp)) (S (live hp)),
                  Hashmap.mk (2 ^ (k + 1)) 0
                    (replicate (Z.to_nat (2 ^ (k + 1))) zeroElement), 0)
            else (mkHeap (S (calls hp)) (live hp), Hashmap.mk (2 ^ (k + 1)) 0 [], 1).
Proof.
  intros Hwf. destruct (wf_pow2 _ _ Hwf) as (k & Hk & Ets).
  destruct (Z.eq_dec k 31) as [->|Hne].
  - left. split; [exact Ets|]. rewrite Ets. change (u32 (2 * 2 ^ 31)) with 0.
    rewrite hashmapCreate_invalid; [reflexivity|lia|].
    intros Hp. apply is_pow2_pos in Hp. lia.
  - right. exists k. split; [lia|]. split; [exact Ets|].
    assert (Hpos : 0 < 2 ^ (k + 1)) by (apply Z.pow_pos_nonneg; lia).
    assert (Hle : 2 ^ (k + 1) <= 2 ^ 31) by (apply Z.pow_le_mono_r; lia).
    assert (E : u32 (2 * Hashmap.tableSize hashmap) = 2 ^ (k + 1)).
    { rewrite Ets. replace (2 * 2 ^ k) with (2 ^ (k + 1))
        by (rewrite Z.pow_add_r by lia; lia).
      apply u32_small. lia. }
    rewrite E. apply hashmapCreate_valid; [lia|].
    exists (k + 1). split; [lia|reflexivity].
Qed.

Section FailureCauses.

Variable put : PutFn.
Hypothesis put_ok : put_correct mem put.
Hypothesis put_account :
  forall hp h key len value hp' h' flag,
    wf mem h ->
    put hp h key len value = Some (hp', h', flag) ->
    growth_account calloc_ok hp (Hashmap.tableSize h) hp' (Hashmap.tableSize h') flag.

Lemma hashmapExpand_with_account (hp : Heap) (hashmap : Hashmap.t)
    (hp' : Heap) (hashmap' : Hashmap.t) (flag : Z) :
  wf mem hashmap ->
  hashmapExpand_with calloc_ok put hp hashmap = Some (hp', hashmap', flag) ->
  growth_account calloc_ok hp (Hashmap.tableSize hashmap)
    hp' (Hashmap.tableSize hashmap') flag.
Proof.
  intros Hwf H. unfold hashmapExpand_with in H.
  pose proof (wf_tableSize_range _ Hwf) as Hts.
  destruct (hashmapExpand_create_cases hp hashmap Hwf) as [[Emax E]|(k & Hk & Ets & E)];
    rewrite E in H.
  { cbn in H. inversion H; subst. split; [lia|]. split; [discriminate|].
    intros _. right. unfold capacity_exhausted.
    rewrite Z.sub_diag. change (2 ^ 0) with 1. lia. }
  destruct (calloc_ok (calls hp)) eqn:Eok; cbn [Z.eqb negb] in H.
  2:{ inversion H; subst. unfold growth_account. cbn [calls].
      split; [lia|]. split; [discriminate|].
      intros _. left. exists (calls hp). cbn [calls]. split; [lia|exact Eok]. }
  unfold hashmapApplyIterator in H.
  destruct (hashmapApplyIterator_loop _ _ _ _ _) as [[[h1 [hp2 new1]] fl]|] eqn:El;
    [|discriminate].
  apply (hashmapApplyIterator_loop_inv _ (Hashmap.tableSize hashmap)
           (fun i h c =>
              rehash_inv mem hashmap i h c
              /\ growth_account calloc_ok hp (Hashmap.tableSize hashmap)
                   (fst c) (Hashmap.tableSize (snd c)) 0)
           (fun h c =>
              (calls hp <= calls (fst c))%nat
              /\ (refused calloc_ok hp (fst c)
                  \/ capacity_exhausted hp (fst c) (Hashmap.tableSize hashmap)))) in El.
  - destruct El as [[-> [HI Hacc]]|[-> [Hc HQ]]]; cbn [Z.eqb negb hashmapDestroy] in H;
      inversion H; subst; clear H; cbn [fst snd] in *.
    + destruct Hacc as (Hc & Hs & _). split.
      { destruct (Hashmap.data h1); cbn [free calls]; exact Hc. }
      split; [|intros Hne; contradiction]. intros _.
      replace (calls (free hp2 (Hashmap.data h1))) with (calls hp2)
        by (destruct (Hashmap.data h1); reflexivity).
      exact (Hs eq_refl).
    + split; [exact Hc|]. split; [discriminate|]. intros _. exact HQ.
  - intros i h c Hi [HI Hacc] Hu. split; [|exact Hacc].
    apply (rehash_skip hashmap i h c Hi HI Hu).
  - intros i h [hp0 new0] c' e' fl' Hi [HI Hacc] Hu Hf.
    pose proof (rehash_visit put put_ok hashmap Hwf i h _ c' e' fl' Hi HI Hu Hf) as Hv.
    pose proof HI as (_ & _ & _ & _ & Hwfn & _). cbn [snd fst] in Hwfn, Hacc.
    unfold hashmapRehashIterator_with in Hf.
    destruct (put hp0 new0 _ _ _) as [[[hq newq] pf]|] eqn:Ep; [|discriminate].
    pose proof (put_account _ _ _ _ _ _ _ _ Hwfn Ep) as Hput.
    pose proof (growth_account_compose _ _ _ _ _ _ _ Hacc Hput) as Hall.
    destruct (pf =? 0) eqn:E0; cbn [negb] in Hf; inversion Hf; subst c' e' fl'; clear Hf.
    + apply Z.eqb_eq in E0. subst pf. cbn in Hv |- *. split; [exact Hv|exact Hall].
    + apply Z.eqb_neq in E0. cbn. destruct Hall as (Hc & _ & Hcause).
      split; [exact Hc|exact (Hcause E0)].
  - lia.
  - lia.
  - split; [apply rehash_inv_start; assumption|].
    unfold growth_account. cbn [fst snd calls Hashmap.tableSize].
    split; [lia|]. split; [|intros Hne; contradiction]. intros _.
    replace (Z.of_nat (S (calls hp)) - Z.of_nat (calls hp)) with 1 by lia.
    rewrite Ets, Z.pow_add_r by lia. lia.
Qed.

End FailureCauses.

Lemma hashmapPut_fuel_account (fuel : nat) :
  forall hp h key len value hp' h' flag,
    wf mem h ->
    hashmapPut_fuel mem calloc_ok fuel hp h key len value = Some (hp', h', flag) ->
    growth_account calloc_ok hp (Hashmap.tableSize h) hp' (Hashmap.tableSize h') flag.
Proof.
  assert (Hstay : forall hp h i key len value,
            growth_account calloc_ok hp (Hashmap.tableSize h) hp
              (Hashmap.tableSize (hashmapPut_store h i key len value)) 0).
  { intros hp h i key len value. rewrite hashmapPut_store_tableSize.
    split; [lia|]. split; [|intros Hne; contradiction]. intros _.
    rewrite Z.sub_diag. change (2 ^ 0) with 1. lia. }
  induction fuel as [|fuel IH]; intros hp h key len value hp' h' flag Hwf H.
  - rewrite hashmapPut_fuel_0_eq in H.
    destruct (hashmapGetBucket mem h key len); inversion H; subst. apply Hstay.
  - rewrite hashmapPut_fuel_eq in H.
    destruct (hashmapGetBucket mem h key len).
    { inversion H; subst. apply Hstay. }
    destruct (hashmapExpand_with calloc_ok (hashmapPut_fuel mem calloc_ok fuel) hp h)
      as [[[hp1 h1] fl]|] eqn:Ee; [|discriminate].
    pose proof (hashmapExpand_with_account _ (hashmapPut_fuel_correct fuel) IH
                  _ _ _ _ _ Hwf Ee) as Hacc.
    pose proof (hashmapExpand_with_correct _ _ _ _ _ _ (hashmapPut_fuel_correct fuel)
                  Hwf Ee) as (Hwf1 & _).
    destruct (fl =? 0) eqn:E0; cbn [negb] in H.
    + apply Z.eqb_eq in E0. subst fl.
      exact (growth_account_compose _ _ _ _ _ _ _ Hacc (IH _ _ _ _ _ _ _ _ Hwf1 H)).
    + inversion H; subst. apply Z.eqb_neq in E0. destruct Hacc as (Hc & _ & Hcause).
      split; [exact Hc|]. split; [discriminate|]. intros _. exact (Hcause E0).
Qed.

(** ** Overwriting and the reachable tables *)

(** C3 (amended): on a well-formed table [hashmapPut] returns [0] or [1],
    and [1] only when an allocation request of the call was refused or the
    capacity could not be doubled any more. When it returns [0] the count
    has grown by one if the key was absent and is unchanged if it was
    present. A second [hashmapPut] of an equal key that returns [0]
    overwrites: [hashmapGet] then returns the second value, the count is
    that after the first call, no two slots hold the key, and the slot
    that holds it stores the key pointer and length of the second call. *)
Theorem hashmapPut_overwrites (hp : Heap) (hashmap : Hashmap.t)
    (key1 key2 len value1 value2 : Z) :
  wf mem hashmap ->
  key_eqb mem key1 len key2 len = true ->
  exists hp1 hashmap1 flag1,
    hashmapPut mem calloc_ok hp hashmap key1 len value1 = Some (hp1, hashmap1, flag1)
    /\ (flag1 = 0 \/ flag1 = 1)
    /\ (flag1 <> 0 ->
        refused calloc_ok hp hp1
        \/ capacity_exhausted hp hp1 (Hashmap.tableSize hashmap))
    /\ (flag1 = 0 ->
        (present mem hashmap key1 len ->
         Hashmap.size hashmap1 = Hashmap.size hashmap)
        /\ (~ present mem hashmap key1 len ->
            Hashmap.size hashmap1 = Hashmap.size hashmap + 1)
        /\ hashmapGet mem hashmap1 key1 len = value1
        /\ exists hp2 hashmap2 flag2,
             hashmapPut mem calloc_ok hp1 hashmap1 key2 len value2
             = Some (hp2, hashmap2, flag2)
             /\ (flag2 = 0 \/ flag2 = 1)
             /\ (flag2 <> 0 ->
                 refused calloc_ok hp1 hp2
                 \/ capacity_exhausted hp1 hp2 (Hashmap.tableSize hashmap1))
             /\ (flag2 = 0 ->
                 hashmapGet mem hashmap2 key1 len = value2
                 /\ hashmapGet mem hashmap2 key2 len = value2
                 /\ Hashmap.size hashmap2 = Hashmap.size hashmap1
                 /\ no_duplicates mem hashmap2
                 /\ exists i, 0 <= i < Hashmap.tableSize hashmap2
                      /\ slot hashmap2 i = HashmapElement.mk key2 len true value2
                      /\ forall i', 0 <= i' < Hashmap.tableSize hashmap2 ->
                           occupied_by mem hashmap2 i' key1 len = true -> i' = i)).
Proof.
  intros Hwf Hk.
  destruct (hashmapPut_total hp hashmap key1 len value1 Hwf) as (hp1 & h1 & f1 & E1).
  exists hp1, h1, f1. split; [exact E1|].
  destruct (hashmapPut_correct _ _ _ _ _ _ _ _ Hwf E1) as (Hwf1 & _ & Hfl1 & Hpost1).
  split; [exact Hfl1|]. split.
  { exact (proj2 (proj2 (hashmapPut_fuel_account put_fuel _ _ _ _ _ _ _ _ Hwf E1))). }
  intros Hf1.
  destruct (Hpost1 Hf1) as (Hh1 & Hp1 & Ha1 & _).
  split; [exact Hp1|]. split; [exact Ha1|].
  assert (Hholds1 : holds mem h1 key1 len value1).
  { apply Hh1. left. split; [apply key_eqb_refl|reflexivity]. }
  split; [apply hashmapGet_holds; assumption|].
  destruct (hashmapPut_total hp1 h1 key2 len value2 Hwf1) as (hp2 & h2 & f2 & E2).
  exists hp2, h2, f2. split; [exact E2|].
  destruct (hashmapPut_correct _ _ _ _ _ _ _ _ Hwf1 E2) as (Hwf2 & _ & Hfl2 & Hpost2).
  split; [exact Hfl2|]. split.
  { exact (proj2 (proj2 (hashmapPut_fuel_account put_fuel _ _ _ _ _ _ _ _ Hwf1 E2))). }
  intros Hf2.
  destruct (Hpost2 Hf2) as (Hh2 & Hp2 & _ & (i & Hi & Hslot)).
  split.
  { apply hashmapGet_holds; [exact Hwf2|]. apply Hh2. left. auto. }
  split.
  { apply hashmapGet_holds; [exact Hwf2|]. apply Hh2. left.
    split; [apply key_eqb_refl|reflexivity]. }
  split.
  { apply Hp2. destruct Hholds1 as (i1 & Hi1 & Ho1 & _). exists i1.
    split; [exact Hi1|]. rewrite <- (occupied_by_congr _ _ _ _ _ _ Hk). exact Ho1. }
  split; [exact (wf_nodup _ _ Hwf2)|].
  exists i. split; [exact Hi|]. split; [exact Hslot|].
  intros i' Hi' Ho'. apply (wf_occupied_unique h2 i i' key1 len Hwf2 Hi Hi'); [|exact Ho'].
  unfold occupied_by. rewrite Hslot. cbn [HashmapElement.used andb].
  rewrite hashmapCheckIfMatch_key_eqb. cbn [HashmapElement.key HashmapElement.keyLen].
  rewrite key_eqb_sym. exact Hk.
Qed.

Lemma hashmapRemove_wf (hashmap hashmap' : Hashmap.t) (key len flag : Z) :
  wf mem hashmap ->
  hashmapRemove mem hashmap key len = (hashmap', flag) ->
  wf mem hashmap'.
Proof.
  intros Hwf H. pose proof (wf_tableSize_range _ Hwf) as Hts.
  rewrite hashmapRemove_scan in H.
  destruct (scan _ _ _ _) as [i|] eqn:E; inversion H; subst; [|exact Hwf].
  apply scan_window_Some in E as (j & Hj & -> & HP & _); [|exact Hts].
  apply andb_true_iff in HP as [Hu _].
  apply wf_clear_slot; [exact Hwf|apply probe_range; lia|exact Hu].
Qed.

Lemma read_only_keeps_key {C : Type} (f : Visitor C) :
  read_only f -> keeps_key mem f.
Proof.
  intros Hro c e c' e' fl H. rewrite (Hro _ _ _ _ _ H).
  split; [reflexivity|apply key_eqb_refl].
Qed.

(** Replacing the value of an occupied slot, and its key pointer by a
    pointer to the same bytes, keeps the table well formed. *)
Lemma wf_set_slot_same_key (hashmap : Hashmap.t) (i : Z) (e : HashmapElement.t) :
  wf mem hashmap ->
  0 <= i < Hashmap.tableSize hashmap ->
  HashmapElement.used (slot hashmap i) = true ->
  HashmapElement.used e = HashmapElement.used (slot hashmap i) ->
  key_eqb mem (HashmapElement.key e) (HashmapElement.keyLen e)
    (HashmapElement.key (slot hashmap i)) (HashmapElement.keyLen (slot hashmap i)) = true ->
  wf mem (set_slot hashmap i e).
Proof.
  intros Hwf Hi Hu Hused Hkey.
  change (set_slot hashmap i e) with (update_slot hashmap i e (Hashmap.size hashmap)).
  apply wf_update_slot; [exact Hwf|exact Hi| | |].
  - rewrite Hused, Hu. cbn. lia.
  - intros _. destruct (wf_window _ _ Hwf i Hi Hu) as (j & Hj & Hp).
    exists j. split; [exact Hj|].
    rewrite (probe_key_eqb hashmap _ _ _ _ j Hkey). exact Hp.
  - intros _ i' Hi' Hne. rewrite (occupied_by_congr hashmap i' _ _ _ _ Hkey).
    destruct (occupied_by mem hashmap i' _ _) eqn:Ho; [|reflexivity].
    exfalso. apply Hne. exact (wf_nodup _ _ Hwf i i' Hi Hi' Hu Ho).
Qed.

Lemma hashmapApplyIterator_wf {C : Type} (f : Visitor C) (hashmap hashmap' : Hashmap.t)
    (context context' : C) (flag : Z) :
  wf mem hashmap ->
  keeps_key mem f ->
  hashmapApplyIterator hashmap f context = Some (hashmap', context', flag) ->
  wf mem hashmap'.
Proof.
  intros Hwf Hvo H. unfold hashmapApplyIterator in H.
  pose proof (wf_tableSize_range _ Hwf) as Hts.
  apply (hashmapApplyIterator_loop_inv f (Hashmap.tableSize hashmap)
           (fun _ h _ => wf mem h /\ Hashmap.tableSize h = Hashmap.tableSize hashmap)
           (fun h _ => wf mem h)) in H.
  - destruct H as [[_ [H _]]|[_ H]]; exact H.
  - intros i h c _ HI _. exact HI.
  - intros i h c c' e' fl Hi [Hwfh Htsh] Hu Hf.
    destruct (Hvo _ _ _ _ _ Hf) as (Hused & Hkey).
    assert (Hset : wf mem (set_slot h i e'))
      by (apply wf_set_slot_same_key; [exact Hwfh|lia|exact Hu|exact Hused|exact Hkey]).
    destruct (fl =? -1).
    + split; [|exact Htsh]. apply wf_clear_slot; [exact Hwfh|lia|exact Hu].
    + destruct (fl =? 0); [split; [exact Hset|exact Htsh]|exact Hset].
  - lia.
  - lia.
  - split; [exact Hwf|reflexivity].
Qed.

Lemma reachable_by_mono (allowed allowed' : forall C : Type, Visitor C -> Prop)
    (hashmap : Hashmap.t) :
  (forall (C : Type) (f : Visitor C), allowed C f -> allowed' C f) ->
  reachable_by mem calloc_ok allowed hashmap ->
  reachable_by mem calloc_ok allowed' hashmap.
Proof.
  intros Hsub. induction 1 as [hp n out hp' h Hr Hc|h hp key len value hp' h' flag _ IH Hp
                              |h key len value _ IH Hg
                              |h key len h' flag _ IH Hrm|C h f c h' c' flag _ IH Hal Ha
                              |h hp hp' h' flag _ IH He].
  - exact (reach_create _ _ _ _ _ _ _ _ Hr Hc).
  - exact (reach_put _ _ _ _ _ _ _ _ _ _ _ IH Hp).
  - exact IH.
  - exact (reach_remove _ _ _ _ _ _ _ _ IH Hrm).
  - exact (reach_apply _ _ _ _ _ _ _ _ _ _ IH (Hsub _ _ Hal) Ha).
  - exact (reach_expand _ _ _ _ _ _ _ _ IH He).
Qed.

(** Every table reachable with visitors that leave the keys alone
    satisfies the representation invariant. *)
Lemma reachable_by_wf (hashmap : Hashmap.t) :
  reachable_by mem calloc_ok (@keeps_key mem) hashmap -> wf mem hashmap.
Proof.
  induction 1 as [hp n out hp' h Hr Hc|h hp key len value hp' h' flag _ IH Hp
                 |h key len value _ IH _
                 |h key len h' flag _ IH Hrm|C h f c h' c' flag _ IH Hvo Ha
                 |h hp hp' h' flag _ IH He].
  - destruct ((n =? 0) || negb (Z.land n (u32 (n - 1)) =? 0)) eqn:Et.
    + unfold hashmapCreate in Hc. rewrite Et in Hc. inversion Hc.
    + apply pow2_test in Et; [|exact Hr].
      rewrite hashmapCreate_valid in Hc by assumption.
      destruct (calloc_ok (calls hp)); inversion Hc; subst.
      destruct Et as (k & Hk & ->). apply wf_fresh. split; [exact Hk|].
      apply (Z.pow_lt_mono_r_iff 2); lia.
  - destruct (hashmapPut_correct _ _ _ _ _ _ _ _ IH Hp) as [Hwf' _]. exact Hwf'.
  - exact IH.
  - exact (hashmapRemove_wf _ _ _ _ _ IH Hrm).
  - exact (hashmapApplyIterator_wf _ _ _ _ _ _ IH Hvo Ha).
  - destruct (hashmapExpand_correct _ _ _ _ _ IH He) as [Hwf' _]. exact Hwf'.
Qed.

Lemma reachable_wf (hashmap : Hashmap.t) :
  reachable mem calloc_ok hashmap -> wf mem hashmap.
Proof.
  intros Hr. apply reachable_by_wf. revert Hr. apply reachable_by_mono.
  intros C f. apply read_only_keeps_key.
Qed.

(** C4 (amended): every table reachable from [hashmapCreate] through
    [hashmapPut], [hashmapGet], [hashmapRemove], [hashmapExpand] and
    [hashmapApplyIterator] with visitors that leave the occupancy flag,
    the key length and the key bytes of the slot they are given as they
    found them (the value may be replaced), whether these calls succeed or
    fail, has a capacity that is a nonzero power of two, a count that is
    at most the capacity, and no two occupied slots with equal keys. *)
Theorem reachable_invariants (hashmap : Hashmap.t) :
  reachable_by mem calloc_ok (@keeps_key mem) hashmap ->
  is_pow2 (Hashmap.tableSize hashmap)
  /\ Hashmap.tableSize hashmap <> 0
  /\ 0 <= Hashmap.size hashmap <= Hashmap.tableSize hashmap
  /\ no_duplicates mem hashmap.
Proof.
  intros Hr. pose proof (reachable_by_wf _ Hr) as Hwf.
  pose proof (wf_tableSize_range _ Hwf) as Hts.
  split.
  { destruct (wf_pow2 _ _ Hwf) as (k & Hk & E). exists k. split; [lia|exact E]. }
  split; [lia|]. split; [apply wf_size_range; exact Hwf|exact (wf_nodup _ _ Hwf)].
Qed.

(** ** Further properties of the operations *)

Lemma byte_at_inj (p q : Z) : byte_at mem p = byte_at mem q -> mem p = mem q.
Proof.
  unfold byte_at. intros H. apply N2Z.inj in H.
  assert (E : Some (mem p) = Some (mem q)).
  { rewrite <- (Byte.of_to_N (mem p)), <- (Byte.of_to_N (mem q)), H. reflexivity. }
  inversion E. reflexivity.
Qed.

(** X1: [hashmapCheckIfMatch] accepts exactly the keys of the same length
    whose [len] bytes are the same, whatever the two addresses are and
    whatever follows the [len] bytes (no terminator is looked for). *)
Theorem hashmapCheckIfMatch_bytes (element : HashmapElement.t) (key len : Z) :
  hashmapCheckIfMatch mem element key len = true <->
  HashmapElement.keyLen element = len
  /\ forall i, 0 <= i < len -> mem (HashmapElement.key element + i) = mem (key + i).
Proof.
  rewrite hashmapCheckIfMatch_key_eqb, key_eqb_spec. split; intros [Hl Hb].
  - split; [exact Hl|]. intros i Hi. apply byte_at_inj. apply Hb. exact Hi.
  - split; [exact Hl|]. intros i Hi. unfold byte_at. rewrite (Hb i Hi). reflexivity.
Qed.

Lemma lxor_range (n a b : Z) :
  0 < n -> 0 <= a < 2 ^ n -> 0 <= b < 2 ^ n -> 0 <= Z.lxor a b < 2 ^ n.
Proof.
  intros Hn Ha Hb.
  assert (Hnn : 0 <= Z.lxor a b) by (apply Z.lxor_nonneg; lia).
  split; [exact Hnn|].
  destruct (Z.eq_dec (Z.lxor a b) 0) as [->|Hne]; [apply Z.pow_pos_nonneg; lia|].
  apply Z.log2_lt_pow2; [lia|].
  pose proof (Z.log2_lxor a b ltac:(lia) ltac:(lia)) as Hl.
  assert (La : Z.log2 a < n).
  { destruct (Z.eq_dec a 0) as [->|]; [simpl; lia|]. apply Z.log2_lt_pow2; lia. }
  assert (Lb : Z.log2 b < n).
  { destruct (Z.eq_dec b 0) as [->|]; [simpl; lia|]. apply Z.log2_lt_pow2; lia. }
  lia.
Qed.

Lemma crc32tab_range (i : nat) : 0 <= nth i crc32tab 0 < 2 ^ 32.
Proof.
  assert (H : Forall (fun x => 0 <= x < 2 ^ 32) crc32tab).
  { apply Forall_forall. intros x Hx.
    assert (Hb : forallb (fun x => (0 <=? x) && (x <? 2 ^ 32)) crc32tab = true)
      by (vm_compute; reflexivity).
    rewrite forallb_forall in Hb. apply list_elem_of_In in Hx.
    specialize (Hb x Hx). apply andb_true_iff in Hb as [H1 H2].
    apply Z.leb_le in H1. apply Z.ltb_lt in H2. lia. }
  destruct (Nat.lt_ge_cases i (length crc32tab)) as [Hlt|Hge].
  - rewrite Forall_forall in H. apply H. apply list_elem_of_In. apply nth_In. exact Hlt.
  - rewrite nth_overflow by exact Hge. lia.
Qed.

Lemma hashmapCRC32_loop_range (s : Z) (n : nat) (i crc32val : Z) :
  0 <= crc32val < 2 ^ 32 ->
  0 <= hashmapCRC32_loop mem s n i crc32val < 2 ^ 32.
Proof.
  revert i crc32val. induction n as [|n IH]; intros i crc32val Hc; [exact Hc|].
  cbn [hashmapCRC32_loop]. apply IH. apply lxor_range; [lia|apply crc32tab_range|].
  rewrite Z.shiftr_div_pow2 by lia. split.
  - apply Z.div_pos; lia.
  - apply Z.div_lt_upper_bound; lia.
Qed.

(** X2: [hashmapCRC32] returns a 32-bit value for every key and length:
    the table entries are 32-bit and the loop only xors and shifts right,
    so nothing is ever truncated. *)
Theorem hashmapCRC32_range (s len : Z) : 0 <= hashmapCRC32 mem s len < 2 ^ 32.
Proof. unfold hashmapCRC32. apply hashmapCRC32_loop_range. lia. Qed.

(** X3: what an answer of [hashmapGetBucket] means, on any table whose
    capacity is in range. A returned index is a valid index of the array,
    lies in the probe window of the key, and designates either the slot
    that already holds the key or a free slot when no slot of the window
    holds the key: never a slot that holds another key. "No bucket" is
    answered only when the table is full or every slot of the window is
    occupied by another key. *)
Theorem hashmapGetBucket_result (hashmap : Hashmap.t) (key len : Z) :
  0 < Hashmap.tableSize hashmap < 2 ^ 32 ->
  (forall i,
     hashmapGetBucket mem hashmap key len = Some i ->
     Hashmap.size hashmap < Hashmap.tableSize hashmap
     /\ 0 <= i < Hashmap.tableSize hashmap
     /\ (exists j, 0 <= j < HASHMAP_MAX_CHAIN_LENGTH /\ i = probe mem hashmap key len j)
     /\ (occupied_by mem hashmap i key len = true
         \/ (HashmapElement.used (slot hashmap i) = false
             /\ forall j, 0 <= j < HASHMAP_MAX_CHAIN_LENGTH ->
                  occupied_by mem hashmap (probe mem hashmap key len j) key len = false)))
  /\ (hashmapGetBucket mem hashmap key len = None ->
      Hashmap.size hashmap >= Hashmap.tableSize hashmap
      \/ forall j, 0 <= j < HASHMAP_MAX_CHAIN_LENGTH ->
           HashmapElement.used (slot hashmap (probe mem hashmap key len j)) = true
           /\ hashmapCheckIfMatch mem (slot hashmap (probe mem hashmap key len j)) key len
              = false).
Proof.
  intros Hts. unfold HASHMAP_MAX_CHAIN_LENGTH. rewrite hashmapGetBucket_scan.
  destruct (Hashmap.size hashmap >=? Hashmap.tableSize hashmap) eqn:Efull.
  { split; [discriminate|]. intros _. left. rewrite Z.geb_leb in Efull.
    apply Z.leb_le in Efull. lia. }
  rewrite Z.geb_leb in Efull. apply Z.leb_gt in Efull.
  destruct (scan (fun i => occupied_by mem hashmap i key len) _ _ _) as [i0|] eqn:E.
  - split; [|discriminate]. intros i Hi. inversion Hi; subst i0.
    apply scan_window_Some in E as (j & Hj & -> & HP & _); [|exact Hts].
    split; [exact Efull|]. split; [apply probe_range; lia|].
    split; [exists j; split; [exact Hj|reflexivity]|]. left. exact HP.
  - pose proof (scan_window_None _ _ _ _ Hts E) as Hnone. cbv beta in Hnone. split.
    + intros i Hi.
      apply scan_window_Some in Hi as (j & Hj & -> & HP & _); [|exact Hts].
      split; [exact Efull|]. split; [apply probe_range; lia|].
      split; [exists j; split; [exact Hj|reflexivity]|]. right.
      split; [apply negb_true_iff; exact HP|exact Hnone].
    + intros Hfree. right. intros j Hj.
      pose proof (scan_window_None _ _ _ _ Hts Hfree j Hj) as Hu. cbv beta in Hu.
      apply negb_false_iff in Hu. split; [exact Hu|].
      specialize (Hnone j Hj). unfold occupied_by in Hnone. rewrite Hu in Hnone.
      exact Hnone.
Qed.

Lemma hashmapGet_bindings (h h' : Hashmap.t) (key len : Z) :
  wf mem h -> wf mem h' ->
  (forall value, holds mem h' key len value <-> holds mem h key len value) ->
  hashmapGet mem h' key len = hashmapGet mem h key len.
Proof.
  intros Hwf Hwf' Hiff.
  pose proof (wf_tableSize_range _ Hwf) as Hts.
  pose proof (wf_tableSize_range _ Hwf') as Hts'.
  rewrite (hashmapGet_scan h).
  destruct (scan (fun i => occupied_by mem h i key len) _ _ _) as [i|] eqn:E.
  - apply scan_window_Some in E as (j & Hj & -> & HP & _); [|exact Hts].
    apply hashmapGet_holds; [exact Hwf'|]. apply Hiff.
    exists (probe mem h key len j). split; [apply probe_range; lia|]. auto.
  - rewrite hashmapGet_scan.
    destruct (scan (fun i => occupied_by mem h' i key len) _ _ _) as [i'|] eqn:E';
      [|reflexivity].
    apply scan_window_Some in E' as (j & Hj & -> & HP & _); [|exact Hts'].
    assert (Hh : holds mem h key len
                   (HashmapElement.data (slot h' (probe mem h' key len j)))).
    { apply Hiff. exists (probe mem h' key len j).
      split; [apply probe_range; lia|]. auto. }
    destruct Hh as (i0 & Hi0 & Ho0 & _).
    rewrite (wf_scan_present _ _ _ _ Hwf Hi0 Ho0) in E. discriminate.
Qed.

(** X4: on a well-formed table [hashmapGet] is a complete and sound
    lookup: it returns the value bound to the key wherever the key is
    stored, it returns the null pointer for a key that is in no slot, and a
    non-null result is always the value of a slot that holds the key. *)
Theorem hashmapGet_complete (hashmap : Hashmap.t) (key len : Z) :
  wf mem hashmap ->
  (forall value, holds mem hashmap key len value ->
     hashmapGet mem hashmap key len = value)
  /\ (~ present mem hashmap key len -> hashmapGet mem hashmap key len = NULL)
  /\ (hashmapGet mem hashmap key len <> NULL ->
      holds mem hashmap key len (hashmapGet mem hashmap key len)).
Proof.
  intros Hwf. pose proof (wf_tableSize_range _ Hwf) as Hts. split; [|split].
  - intros value Hh. apply hashmapGet_holds; assumption.
  - intros Habs. apply hashmapGet_absent; assumption.
  - rewrite hashmapGet_scan.
    destruct (scan (fun i => occupied_by mem hashmap i key len) _ _ _) as [i|] eqn:E.
    + intros _. apply scan_window_Some in E as (j & Hj & -> & HP & _); [|exact Hts].
      exists (probe mem hashmap key len j). split; [apply probe_range; lia|]. auto.
    + intros Hn. contradiction Hn. reflexivity.
Qed.

Lemma hashmapGet_sound (hashmap : Hashmap.t) (key len : Z) :
  0 < Hashmap.tableSize hashmap < 2 ^ 32 ->
  hashmapGet mem hashmap key len <> NULL ->
  holds mem hashmap key len (hashmapGet mem hashmap key len).
Proof.
  intros Hts. rewrite hashmapGet_scan.
  destruct (scan (fun i => occupied_by mem hashmap i key len) _ _ _) as [i|] eqn:E.
  - intros _. apply scan_window_Some in E as (j & Hj & -> & HP & _); [|exact Hts].
    exists (probe mem hashmap key len j). split; [apply probe_range; lia|]. auto.
  - intros Hn. contradiction Hn. reflexivity.
Qed.

(** The bindings of a table after the slot of a key has been cleared. *)
Lemma clear_slot_holds (hashmap : Hashmap.t) (i key len key' len' value' : Z) :
  wf mem hashmap ->
  0 <= i < Hashmap.tableSize hashmap ->
  occupied_by mem hashmap i key len = true ->
  holds mem (clear_slot hashmap i) key' len' value' <->
  key_eqb mem key' len' key len = false /\ holds mem hashmap key' len' value'.
Proof.
  intros Hwf Hi Ho. pose proof (wf_len _ _ Hwf) as Hlen.
  change (clear_slot hashmap i) with
    (update_slot hashmap i zeroElement (u32 (Hashmap.size hashmap - 1))).
  split.
  - intros (i0 & Hi0 & Ho0 & Hv0). cbn [update_slot Hashmap.tableSize] in Hi0.
    destruct (Z.eq_dec i0 i) as [->|Hne].
    { rewrite occupied_by_update_eq in Ho0 by lia. discriminate. }
    rewrite occupied_by_update_ne in Ho0 by lia.
    rewrite slot_update_ne in Hv0 by lia. split; [|exists i0; auto].
    destruct (key_eqb mem key' len' key len) eqn:Ek; [|reflexivity].
    rewrite (occupied_by_congr _ _ _ _ _ _ Ek) in Ho0.
    contradiction Hne. exact (wf_occupied_unique hashmap i i0 key len Hwf Hi Hi0 Ho Ho0).
  - intros [Hk (i0 & Hi0 & Ho0 & Hv0)].
    assert (Hne : i0 <> i).
    { intros ->. apply andb_true_iff in Ho as [_ Hm], Ho0 as [_ Hm0].
      rewrite hashmapCheckIfMatch_key_eqb in Hm, Hm0. rewrite key_eqb_sym in Hm0.
      rewrite (key_eqb_trans _ _ _ _ _ _ Hm0 Hm) in Hk. discriminate. }
    exists i0. cbn [update_slot Hashmap.tableSize]. split; [exact Hi0|].
    rewrite occupied_by_update_ne, slot_update_ne by lia. auto.
Qed.

Lemma pow2_ratio (a b : Z) :
  is_pow2 a -> is_pow2 b -> a <= b -> exists j, 0 <= j /\ b = 2 ^ j * a.
Proof.
  intros (k & Hk & ->) (k' & Hk' & ->) Hle.
  assert (k <= k') by (apply (Z.pow_le_mono_r_iff 2); lia).
  exists (k' - k). split; [lia|]. rewrite <- Z.pow_add_r by lia. f_equal. lia.
Qed.

Lemma wf_is_pow2 (hashmap : Hashmap.t) :
  wf mem hashmap -> is_pow2 (Hashmap.tableSize hashmap).
Proof. intros Hwf. destruct (wf_pow2 _ _ Hwf) as (k & Hk & E). exists k. split; [lia|exact E]. Qed.

(** X5: a successful [hashmapPut] does not disturb the other keys: for
    every key different from the inserted one [hashmapGet] returns what it
    returned before, also when the table was rehashed on the way; the
    capacity never shrinks and only changes by doubling. *)
Theorem hashmapPut_frame (hp : Heap) (hashmap : Hashmap.t) (key len value : Z)
    (hp' : Heap) (hashmap' : Hashmap.t) :
  wf mem hashmap ->
  hashmapPut mem calloc_ok hp hashmap key len value = Some (hp', hashmap', 0) ->
  (forall key' len',
     key_eqb mem key' len' key len = false ->
     hashmapGet mem hashmap' key' len' = hashmapGet mem hashmap key' len')
  /\ hashmapGet mem hashmap' key len = value
  /\ exists j, 0 <= j
       /\ Hashmap.tableSize hashmap' = 2 ^ j * Hashmap.tableSize hashmap.
Proof.
  intros Hwf Hp.
  destruct (hashmapPut_correct _ _ _ _ _ _ _ _ Hwf Hp) as (Hwf' & Hmono & _ & Hpost).
  destruct (Hpost eq_refl) as (Hh & _). split; [|split].
  - intros key' len' Hk. apply hashmapGet_bindings; [exact Hwf|exact Hwf'|].
    intros v. rewrite Hh, Hk. split.
    + intros [[Hf _]|[_ H]]; [discriminate|exact H].
    + intros H. right. auto.
  - apply hashmapGet_holds; [exact Hwf'|]. apply Hh. left.
    split; [apply key_eqb_refl|reflexivity].
  - apply pow2_ratio; [apply wf_is_pow2; exact Hwf|apply wf_is_pow2; exact Hwf'|exact Hmono].
Qed.

(** X6: [hashmapRemove] does not disturb the other keys: whether it finds
    the key or not, [hashmapGet] of every different key returns what it
    returned before, and the capacity is unchanged. *)
Theorem hashmapRemove_frame (hashmap : Hashmap.t) (key len key' len' : Z) :
  wf mem hashmap ->
  key_eqb mem key' len' key len = false ->
  hashmapGet mem (fst (hashmapRemove mem hashmap key len)) key' len'
  = hashmapGet mem hashmap key' len'
  /\ Hashmap.tableSize (fst (hashmapRemove mem hashmap key len))
     = Hashmap.tableSize hashmap.
Proof.
  intros Hwf Hk. pose proof (wf_tableSize_range _ Hwf) as Hts.
  rewrite hashmapRemove_scan.
  destruct (scan (fun i => occupied_by mem hashmap i key len) _ _ _) as [i|] eqn:E;
    cbn [fst]; [|split; reflexivity].
  apply scan_window_Some in E as (j & Hj & -> & HP & _); [|exact Hts].
  assert (Hi : 0 <= probe mem hashmap key len j < Hashmap.tableSize hashmap)
    by (apply probe_range; lia).
  split; [|reflexivity].
  pose proof HP as Hu. apply andb_true_iff in Hu as [Hu _].
  apply hashmapGet_bindings; [exact Hwf|apply wf_clear_slot; assumption|].
  intros v. rewrite (clear_slot_holds _ _ key len key' len' v Hwf Hi HP). rewrite Hk.
  split; [intros [_ H]; exact H|intros H; auto].
Qed.

(** X7: a successful [hashmapExpand] moves every entry: the new table is
    well formed, has at least twice the capacity and the same count, and
    [hashmapGet] returns for every key what it returned before. *)
Theorem hashmapExpand_preserves (hp : Heap) (hashmap : Hashmap.t)
    (hp' : Heap) (hashmap' : Hashmap.t) :
  wf mem hashmap ->
  hashmapExpand mem calloc_ok hp hashmap = Some (hp', hashmap', 0) ->
  wf mem hashmap'
  /\ 2 * Hashmap.tableSize hashmap <= Hashmap.tableSize hashmap'
  /\ Hashmap.size hashmap' = Hashmap.size hashmap
  /\ forall key len, hashmapGet mem hashmap' key len = hashmapGet mem hashmap key len.
Proof.
  intros Hwf He.
  destruct (hashmapExpand_correct _ _ _ _ _ Hwf He) as (Hwf' & _ & Hok & _).
  destruct (Hok eq_refl) as (Hbig & Hh & Hsize).
  split; [exact Hwf'|]. split; [exact Hbig|]. split; [exact Hsize|].
  intros key len. apply hashmapGet_bindings; [exact Hwf|exact Hwf'|].
  intros v. apply Hh.
Qed.

(** X8: what a failed [hashmapExpand] does guarantee. It returns [1], the
    capacity is unchanged and the table is still well formed; entries may
    have been dropped, but none is invented or altered: [hashmapGet]
    returns for every key either what it returned before or the null
    pointer. When the failure is that of the allocation of the new array,
    the table is exactly as it was. *)
Theorem hashmapExpand_failure (hp : Heap) (hashmap : Hashmap.t)
    (hp' : Heap) (hashmap' : Hashmap.t) (flag : Z) :
  wf mem hashmap ->
  hashmapExpand mem calloc_ok hp hashmap = Some (hp', hashmap', flag) ->
  flag <> 0 ->
  flag = 1
  /\ wf mem hashmap'
  /\ Hashmap.tableSize hashmap' = Hashmap.tableSize hashmap
  /\ (forall key len,
        hashmapGet mem hashmap' key len = hashmapGet mem hashmap key len
        \/ hashmapGet mem hashmap' key len = NULL)
  /\ (calloc_ok (calls hp) = false -> hashmap' = hashmap).
Proof.
  intros Hwf He Hflag.
  destruct (hashmapExpand_correct _ _ _ _ _ Hwf He) as (Hwf' & Hfl & _ & Hfail).
  destruct (Hfail Hflag) as (Hts & Hsub).
  split; [destruct Hfl; [contradiction|assumption]|].
  split; [exact Hwf'|]. split; [exact Hts|]. split.
  - intros key len.
    destruct (Z.eq_dec (hashmapGet mem hashmap' key len) NULL) as [Hn|Hn]; [right; exact Hn|].
    left. symmetry. apply hashmapGet_holds; [exact Hwf|]. apply Hsub.
    apply hashmapGet_sound; [apply wf_tableSize_range; exact Hwf'|exact Hn].
  - intros Hc. unfold hashmapExpand, hashmapExpand_with in He.
    destruct (hashmapExpand_create hp hashmap Hwf) as [E|(k & Hk & Ets & E)];
      rewrite E in He.
    + cbn in He. inversion He. reflexivity.
    + rewrite Hc in He. cbn in He. inversion He. reflexivity.
Qed.

(** X9: at the largest capacity [2^31] the doubled size wraps to [0], so
    [hashmapExpand] is refused by the validity test of [hashmapCreate]: it
    returns [1] without calling the allocator and without touching the
    table, as the comment in [hashmapExpand] announces. *)
Theorem hashmapExpand_at_max (hp : Heap) (hashmap : Hashmap.t) :
  Hashmap.tableSize hashmap = 2 ^ 31 ->
  hashmapExpand mem calloc_ok hp hashmap = Some (hp, hashmap, 1).
Proof.
  intros Hts. unfold hashmapExpand, hashmapExpand_with. rewrite Hts.
  change (u32 (2 * 2 ^ 31)) with 0.
  rewrite hashmapCreate_invalid; [reflexivity|lia|].
  intros Hp. apply is_pow2_pos in Hp. lia.
Qed.

Lemma hashmapGetBucket_present (hashmap : Hashmap.t) (i key len : Z) :
  wf mem hashmap ->
  0 <= i < Hashmap.tableSize hashmap ->
  occupied_by mem hashmap i key len = true ->
  Hashmap.size hashmap < Hashmap.tableSize hashmap ->
  hashmapGetBucket mem hashmap key len = Some i.
Proof.
  intros Hwf Hi Ho Hroom. rewrite hashmapGetBucket_scan.
  rewrite Z.geb_leb, (proj2 (Z.leb_gt _ _)) by lia.
  rewrite (wf_scan_present _ _ _ _ Hwf Hi Ho). reflexivity.
Qed.

Lemma hashmapGetBucket_full (hashmap : Hashmap.t) (key len : Z) :
  Hashmap.size hashmap >= Hashmap.tableSize hashmap ->
  hashmapGetBucket mem hashmap key len = None.
Proof.
  intros Hfull. unfold hashmapGetBucket.
  rewrite (proj2 (Z.geb_le _ _)) by lia. reflexivity.
Qed.

(** X10: overwriting a key that is present in a table that is not full
    happens in place: [hashmapPut] succeeds without calling the allocator,
    the capacity, the count and the array length are unchanged, and the
    new value is the one [hashmapGet] returns. *)
Theorem hashmapPut_update_in_place (hp : Heap) (hashmap : Hashmap.t)
    (key len value : Z) :
  wf mem hashmap ->
  present mem hashmap key len ->
  Hashmap.size hashmap < Hashmap.tableSize hashmap ->
  exists hashmap',
    hashmapPut mem calloc_ok hp hashmap key len value = Some (hp, hashmap', 0)
    /\ Hashmap.tableSize hashmap' = Hashmap.tableSize hashmap
    /\ Hashmap.size hashmap' = Hashmap.size hashmap
    /\ length (Hashmap.data hashmap') = length (Hashmap.data hashmap)
    /\ hashmapGet mem hashmap' key len = value.
Proof.
  intros Hwf Hpres Hroom. pose proof Hpres as (i & Hi & Ho).
  pose proof (hashmapGetBucket_present _ _ _ _ Hwf Hi Ho Hroom) as Hb.
  pose proof (wf_len _ _ Hwf) as Hlen.
  exists (hashmapPut_store hashmap i key len value).
  split; [unfold hashmapPut; rewrite put_fuel_eq, hashmapPut_fuel_eq, Hb; reflexivity|].
  destruct (hashmapPut_store_spec _ i key len value Hwf Hb) as (Hwf' & _ & _ & Hpost).
  destruct (Hpost eq_refl) as (Hh & Hsame & _).
  split; [rewrite hashmapPut_store_update by lia; reflexivity|].
  split; [exact (Hsame Hpres)|].
  split; [rewrite hashmapPut_store_update by lia; apply length_insert|].
  apply hashmapGet_holds; [exact Hwf'|]. apply Hh. left.
  split; [apply key_eqb_refl|reflexivity].
Qed.

(** X11: on a full table [hashmapPut] asks for growth before it looks at
    the slots, even for a key the table already holds: a call that
    succeeds has at least doubled the capacity, and a call whose
    allocation is refused returns [1] and leaves the table as it was. *)
Theorem hashmapPut_full_table (hp : Heap) (hashmap : Hashmap.t) (key len value : Z) :
  wf mem hashmap ->
  Hashmap.size hashmap >= Hashmap.tableSize hashmap ->
  (forall hp' hashmap',
     hashmapPut mem calloc_ok hp hashmap key len value = Some (hp', hashmap', 0) ->
     2 * Hashmap.tableSize hashmap <= Hashmap.tableSize hashmap')
  /\ (calloc_ok (calls hp) = false ->
      exists hp',
        hashmapPut mem calloc_ok hp hashmap key len value = Some (hp', hashmap, 1)).
Proof.
  intros Hwf Hfull. pose proof (hashmapGetBucket_full hashmap key len Hfull) as Hb.
  split.
  - intros hp' h' H. unfold hashmapPut in H.
    rewrite put_fuel_eq, hashmapPut_fuel_eq, Hb in H.
    destruct (hashmapExpand_with calloc_ok (hashmapPut_fuel mem calloc_ok 31) hp hashmap)
      as [[[hp1 h1] fl]|] eqn:Ee; [|discriminate].
    apply hashmapExpand_with_correct in Ee as (Hwf1 & _ & Hok & _);
      [|apply hashmapPut_fuel_correct|exact Hwf].
    destruct (fl =? 0) eqn:E0; cbn [negb] in H; [|inversion H].
    apply Z.eqb_eq in E0. destruct (Hok E0) as (Hbig & _).
    destruct (hashmapPut_fuel_correct _ _ _ _ _ _ _ _ _ Hwf1 H) as (_ & Hmono & _). lia.
  - intros Hc. unfold hashmapPut.
    rewrite put_fuel_eq, hashmapPut_fuel_eq, Hb. unfold hashmapExpand_with.
    destruct (hashmapExpand_create hp hashmap Hwf) as [E|(k & Hk & Ets & E)]; rewrite E.
    + cbn. eexists. reflexivity.
    + rewrite Hc. cbn. eexists. reflexivity.
Qed.

(** X12: inserting a key that was absent and removing it again restores
    the table as far as a caller can observe: [hashmapRemove] finds the
    key, the count is the original one and [hashmapGet] returns for every
    key what it returned before the insertion (the capacity may have
    grown). *)
Theorem hashmapPut_then_Remove (hp : Heap) (hashmap : Hashmap.t) (key len value : Z)
    (hp' : Heap) (hashmap' : Hashmap.t) :
  wf mem hashmap ->
  ~ present mem hashmap key len ->
  hashmapPut mem calloc_ok hp hashmap key len value = Some (hp', hashmap', 0) ->
  exists hashmap'',
    hashmapRemove mem hashmap' key len = (hashmap'', 0)
    /\ wf mem hashmap''
    /\ Hashmap.size hashmap'' = Hashmap.size hashmap
    /\ forall key' len',
         hashmapGet mem hashmap'' key' len' = hashmapGet mem hashmap key' len'.
Proof.
  intros Hwf Habs Hp.
  destruct (hashmapPut_correct _ _ _ _ _ _ _ _ Hwf Hp) as (Hwf' & _ & _ & Hpost).
  destruct (Hpost eq_refl) as (Hh & _ & Hgrow & (i & Hi & Hslot)).
  assert (Ho : occupied_by mem hashmap' i key len = true).
  { unfold occupied_by. rewrite Hslot. cbn [HashmapElement.used andb].
    rewrite hashmapCheckIfMatch_key_eqb. apply key_eqb_refl. }
  assert (Hu : HashmapElement.used (slot hashmap' i) = true) by (rewrite Hslot; reflexivity).
  destruct (wf_clear_slot hashmap' i Hwf' Hi Hu) as [Hwf'' Hsize].
  exists (clear_slot hashmap' i).
  split; [rewrite hashmapRemove_scan, (wf_scan_present _ _ _ _ Hwf' Hi Ho); reflexivity|].
  split; [exact Hwf''|]. split; [rewrite Hsize, (Hgrow Habs); lia|].
  intros key' len'. apply hashmapGet_bindings; [exact Hwf|exact Hwf''|].
  intros v. rewrite (clear_slot_holds _ _ key len key' len' v Hwf' Hi Ho), Hh. split.
  - intros [Hk [[Hk' _]|[_ H]]]; [congruence|exact H].
  - intros H. assert (Hk : key_eqb mem key' len' key len = false).
    { destruct (key_eqb mem key' len' key len) eqn:Ek; [|reflexivity].
      exfalso. apply Habs. destruct H as (i0 & Hi0 & Ho0 & _). exists i0.
      split; [exact Hi0|]. rewrite <- (occupied_by_congr _ _ _ _ _ _ Ek). exact Ho0. }
    split; [exact Hk|]. right. auto.
Qed.

(** ** Live arrays *)

Lemma wf_data_nonempty (hashmap : Hashmap.t) (hp : Heap) :
  wf mem hashmap ->
  free hp (Hashmap.data hashmap) = mkHeap (calls hp) (Nat.pred (live hp)).
Proof.
  intros Hwf. pose proof (wf_tableSize_range _ Hwf) as Hts.
  pose proof (wf_len _ _ Hwf) as Hlen.
  destruct (Hashmap.data hashmap) as [|e l]; [simpl in Hlen; lia|reflexivity].
Qed.

Section HeapAccounting.

Variable put : PutFn.
Hypothesis put_ok : put_correct mem put.
Hypothesis put_heap :
  forall hp h key len value hp' h' flag,
    wf mem h ->
    put hp h key len value = Some (hp', h', flag) ->
    (live hp <= live hp')%nat /\ (flag = 0 -> live hp' = live hp).

Lemma hashmapExpand_with_heap (hp : Heap) (hashmap : Hashmap.t)
    (hp' : Heap) (hashmap' : Hashmap.t) (flag : Z) :
  wf mem hashmap ->
  hashmapExpand_with calloc_ok put hp hashmap = Some (hp', hashmap', flag) ->
  (flag = 0 -> live hp' = live hp)
  /\ (flag <> 0 ->
      (hashmap' = hashmap /\ live hp' = live hp) \/ (live hp < live hp')%nat).
Proof.
  intros Hwf H. unfold hashmapExpand_with in H.
  destruct (hashmapExpand_create hp hashmap Hwf) as [E|(k & Hk & Ets & E)]; rewrite E in H.
  { cbn in H. inversion H; subst. split; [discriminate|]. intros _. left. auto. }
  destruct (calloc_ok (calls hp)); cbn [Z.eqb negb] in H.
  2:{ inversion H; subst. split; [discriminate|]. intros _. left. auto. }
  unfold hashmapApplyIterator in H.
  destruct (hashmapApplyIterator_loop _ _ _ _ _) as [[[h1 [hp2 new1]] fl]|] eqn:El;
    [|discriminate].
  pose proof (wf_tableSize_range _ Hwf) as Hts.
  apply (hashmapApplyIterator_loop_inv _ (Hashmap.tableSize hashmap)
           (fun i h c => rehash_inv mem hashmap i h c /\ live (fst c) = S (live hp))
           (fun h c => (S (live hp) <= live (fst c))%nat)) in El.
  - destruct El as [[-> [HI Hlive]]|[-> HQ]]; cbn [Z.eqb negb hashmapDestroy] in H;
      inversion H; subst; clear H; cbn [fst] in *.
    + split; [|intros Hne; contradiction]. intros _.
      destruct HI as (Hwf1 & _). rewrite (wf_data_nonempty _ _ Hwf1).
      cbn [live]. rewrite Hlive. reflexivity.
    + split; [discriminate|]. intros _. right. lia.
  - intros i h c Hi [HI Hlive] Hu. split; [|exact Hlive].
    apply (rehash_skip hashmap i h c Hi HI Hu).
  - intros i h [hp0 new0] c' e' fl' Hi [HI Hlive] Hu Hf.
    pose proof (rehash_visit put put_ok hashmap Hwf i h _ c' e' fl' Hi HI Hu Hf) as Hv.
    pose proof HI as (_ & _ & _ & _ & Hwfn & _). cbn [snd fst] in Hwfn, Hlive.
    unfold hashmapRehashIterator_with in Hf.
    destruct (put hp0 new0 _ _ _) as [[[hq newq] pf]|] eqn:Ep; [|discriminate].
    destruct (put_heap _ _ _ _ _ _ _ _ Hwfn Ep) as [Hmono Hsame].
    destruct (pf =? 0) eqn:E0; cbn [negb] in Hf; inversion Hf; subst c' e' fl'; clear Hf.
    + apply Z.eqb_eq in E0. cbn in Hv |- *. split; [exact Hv|].
      rewrite (Hsame E0). exact Hlive.
    + cbn. lia.
  - lia.
  - lia.
  - split; [apply rehash_inv_start; assumption|reflexivity].
Qed.

End HeapAccounting.

Lemma hashmapPut_fuel_heap (fuel : nat) :
  forall hp h key len value hp' h' flag,
    wf mem h ->
    hashmapPut_fuel mem calloc_ok fuel hp h key len value = Some (hp', h', flag) ->
    (live hp <= live hp')%nat /\ (flag = 0 -> live hp' = live hp).
Proof.
  induction fuel as [|fuel IH]; intros hp h key len value hp' h' flag Hwf H.
  - rewrite hashmapPut_fuel_0_eq in H.
    destruct (hashmapGetBucket mem h key len); inversion H; subst. split; [lia|auto].
  - rewrite hashmapPut_fuel_eq in H.
    destruct (hashmapGetBucket mem h key len).
    { inversion H; subst. split; [lia|auto]. }
    destruct (hashmapExpand_with calloc_ok (hashmapPut_fuel mem calloc_ok fuel) hp h)
      as [[[hp1 h1] fl]|] eqn:Ee; [|discriminate].
    pose proof (hashmapExpand_with_heap _ (hashmapPut_fuel_correct fuel) IH
                  _ _ _ _ _ Hwf Ee) as [Hok Hfail].
    pose proof (hashmapExpand_with_correct _ _ _ _ _ _ (hashmapPut_fuel_correct fuel)
                  Hwf Ee) as (Hwf1 & _).
    destruct (fl =? 0) eqn:E0; cbn [negb] in H.
    + apply Z.eqb_eq in E0. destruct (IH _ _ _ _ _ _ _ _ Hwf1 H) as [Hm Hs].
      rewrite <- (Hok E0). split; [exact Hm|exact Hs].
    + inversion H; subst. apply Z.eqb_neq in E0. split; [|discriminate].
      destruct (Hfail E0) as [[_ Hl]|Hl]; lia.
Qed.

(** X13: [hashmapPut] never frees more than it allocates, and a call that
    succeeds leaves the number of live bucket arrays as it found it: every
    array allocated for a growth is either the table's new array, whose
    predecessor has been freed, or has been freed itself. *)
Theorem hashmapPut_live_arrays (hp : Heap) (hashmap : Hashmap.t) (key len value : Z)
    (hp' : Heap) (hashmap' : Hashmap.t) (flag : Z) :
  wf mem hashmap ->
  hashmapPut mem calloc_ok hp hashmap key len value = Some (hp', hashmap', flag) ->
  (live hp <= live hp')%nat /\ (flag = 0 -> live hp' = live hp).
Proof. intros Hwf H. exact (hashmapPut_fuel_heap put_fuel _ _ _ _ _ _ _ _ Hwf H). Qed.

(** X14: the live bucket arrays across [hashmapExpand]. A successful call
    allocates the new array and frees the old one: the number of live
    arrays is unchanged. A failed call either could not create the new
    array, and then the table and the live arrays are as before, or it
    stopped during the rehash, and then the new array is never freed: at
    least one more array is live than before. *)
Theorem hashmapExpand_live_arrays (hp : Heap) (hashmap : Hashmap.t)
    (hp' : Heap) (hashmap' : Hashmap.t) (flag : Z) :
  wf mem hashmap ->
  hashmapExpand mem calloc_ok hp hashmap = Some (hp', hashmap', flag) ->
  (flag = 0 -> live hp' = live hp)
  /\ (flag <> 0 ->
      (hashmap' = hashmap /\ live hp' = live hp) \/ (live hp < live hp')%nat).
Proof.
  intros Hwf H.
  exact (hashmapExpand_with_heap _ hashmapPut_correct (hashmapPut_fuel_heap put_fuel)
           _ _ _ _ _ Hwf H).
Qed.

(** ** Traversals with particular visitors *)

Lemma hashmapApplyIterator_visit_slots {C : Type} (f : Visitor C)
    (hashmap : Hashmap.t) (context : C) :
  hashmapApplyIterator hashmap f context
  = visit_slots f (occupied hashmap) hashmap context.
Proof.
  unfold hashmapApplyIterator, occupied.
  rewrite hashmapApplyIterator_loop_visit by lia.
  destruct (Z.le_gt_cases 0 (Hashmap.tableSize hashmap)) as [Hle|Hgt].
  - rewrite Z2Nat.id by exact Hle. reflexivity.
  - rewrite (seqZ_nil 0 (Hashmap.tableSize hashmap)) by lia.
    replace (Z.to_nat (Hashmap.tableSize hashmap)) with 0%nat by lia. reflexivity.
Qed.

Lemma occupied_increasing (hashmap : Hashmap.t) :
  StronglySorted Z.lt (occupied hashmap) /\ Forall (fun i => 0 <= i) (occupied hashmap).
Proof.
  split.
  - unfold occupied.
    destruct (Z.le_gt_cases 0 (Hashmap.tableSize hashmap)) as [Hle|Hgt].
    + rewrite <- (Z2Nat.id (Hashmap.tableSize hashmap)) by exact Hle.
      apply occupied_sorted.
    + rewrite seqZ_nil by lia. constructor.
  - apply Forall_forall. intros i Hi. unfold occupied in Hi.
    apply list_elem_of_filter in Hi as [_ Hi]. apply elem_of_seqZ in Hi. lia.
Qed.

(** X15: a traversal whose visitor asks for the removal of every slot
    empties a well-formed table: it runs to the end and returns [0], the
    count is [0], no slot is occupied, and capacity and array are those of
    the table (ready for [hashmapDestroy]). *)
Theorem hashmapApplyIterator_remove_all {C : Type} (f : Visitor C)
    (hashmap hashmap' : Hashmap.t) (context context' : C) (flag : Z) :
  wf mem hashmap ->
  always_removes f ->
  hashmapApplyIterator hashmap f context = Some (hashmap', context', flag) ->
  flag = 0
  /\ Hashmap.size hashmap' = 0
  /\ Hashmap.tableSize hashmap' = Hashmap.tableSize hashmap
  /\ length (Hashmap.data hashmap') = length (Hashmap.data hashmap)
  /\ forall i, 0 <= i < Hashmap.tableSize hashmap ->
       HashmapElement.used (slot hashmap' i) = false.
Proof.
  intros Hwf Hf H. unfold hashmapApplyIterator in H.
  pose proof (wf_tableSize_range _ Hwf) as Hts.
  apply (hashmapApplyIterator_loop_inv f (Hashmap.tableSize hashmap)
           (fun i h _ =>
              wf mem h /\ Hashmap.tableSize h = Hashmap.tableSize hashmap
              /\ forall j, 0 <= j < i -> HashmapElement.used (slot h j) = false)
           (fun _ _ => False)) in H.
  - destruct H as [[-> (Hwf' & Hts' & Hdone)]|[_ []]].
    pose proof (wf_len _ _ Hwf') as Hlen'. pose proof (wf_len _ _ Hwf) as Hlen.
    split; [reflexivity|]. split.
    { rewrite (wf_size _ _ Hwf'). apply count_used_zero. intros i Hi.
      specialize (Hdone (Z.of_nat i) ltac:(lia)). unfold slot in Hdone.
      rewrite Nat2Z.id in Hdone. exact Hdone. }
    split; [exact Hts'|]. split; [lia|exact Hdone].
  - intros i h c Hi (Hw & Ht & Hd) Hu. split; [exact Hw|]. split; [exact Ht|].
    intros j Hj. destruct (Z.eq_dec j i) as [->|]; [exact Hu|apply Hd; lia].
  - intros i h c c1 e1 fl Hi (Hw & Ht & Hd) Hu Hfe.
    rewrite (Hf _ _ _ _ _ Hfe). change (-1 =? -1) with true. cbv iota.
    pose proof (wf_len _ _ Hw) as Hlen.
    destruct (wf_clear_slot h i Hw ltac:(lia) Hu) as [Hwc _].
    split; [exact Hwc|]. split; [exact Ht|]. intros j Hj.
    change (clear_slot h i) with (update_slot h i zeroElement (u32 (Hashmap.size h - 1))).
    destruct (Z.eq_dec j i) as [->|Hne].
    + rewrite slot_update_eq by lia. reflexivity.
    + rewrite slot_update_ne by lia. apply Hd. lia.
  - lia.
  - lia.
  - split; [exact Hwf|]. split; [reflexivity|]. intros j Hj. lia.
Qed.

(** X16: a traversal is a pure read of the table as long as the visitor
    only reads the slots and never asks for a removal: whatever the visitor
    returns, and whether the traversal ends or stops early, the table is
    exactly as it was. *)
Theorem hashmapApplyIterator_read_only {C : Type} (f : Visitor C)
    (hashmap hashmap' : Hashmap.t) (context context' : C) (flag : Z) :
  read_only f ->
  never_removes f ->
  hashmapApplyIterator hashmap f context = Some (hashmap', context', flag) ->
  hashmap' = hashmap.
Proof.
  intros Hro Hnr H. unfold hashmapApplyIterator in H.
  apply (hashmapApplyIterator_loop_inv f (Z.of_nat (Z.to_nat (Hashmap.tableSize hashmap)))
           (fun _ h _ => h = hashmap) (fun h _ => h = hashmap)) in H.
  - destruct H as [[_ H]|[_ H]]; exact H.
  - intros i h c _ HI _. exact HI.
  - intros i h c c1 e1 fl _ HI _ Hfe.
    rewrite (Hro _ _ _ _ _ Hfe), set_slot_same.
    rewrite (proj2 (Z.eqb_neq fl (-1)) (Hnr _ _ _ _ _ Hfe)).
    destruct (fl =? 0); exact HI.
  - lia.
  - lia.
  - reflexivity.
Qed.

Lemma free_same_length (hp : Heap) (l l' : list HashmapElement.t) :
  length l = length l' -> free hp l = free hp l'.
Proof. destruct l, l'; simpl; intros H; try discriminate; reflexivity. Qed.

Lemma visit_slots_removing {C : Type} (f : Visitor C) (indices : list Z) :
  always_removes f ->
  StronglySorted Z.lt indices ->
  Forall (fun i => 0 <= i) indices ->
  forall hashmap context hashmap' context' flag,
    visit_slots f indices hashmap context = Some (hashmap', context', flag) ->
    flag = 0
    /\ length (Hashmap.data hashmap') = length (Hashmap.data hashmap)
    /\ visit_entries f (map (slot hashmap) indices) context = Some context'.
Proof.
  intros Hrm. induction 1 as [|i rest Hs IH Hlt]; intros Hpos h c h' c' flag H.
  - cbn in H |- *. inversion H; subst. auto.
  - inversion Hpos as [|? ? Hi Hrest]; subst.
    cbn [visit_slots] in H. cbn [map visit_entries].
    destruct (f c (slot h i)) as [[[c1 e1] fl]|] eqn:Ef; [|discriminate].
    rewrite (Hrm _ _ _ _ _ Ef) in H. change (-1 =? -1) with true in H. cbv iota in H.
    destruct (IH Hrest _ _ _ _ _ H) as (Hfl & Hlen & Hvis).
    split; [exact Hfl|]. split.
    + rewrite Hlen. cbn [clear_slot Hashmap.data]. apply length_insert.
    + rewrite <- Hvis. f_equal. apply map_ext_in. intros j Hj.
      rewrite Forall_forall in Hlt, Hrest.
      apply list_elem_of_In in Hj.
      specialize (Hlt j Hj). specialize (Hrest j Hj).
      change (clear_slot h i) with (update_slot h i zeroElement (u32 (Hashmap.size h - 1))).
      rewrite slot_update_ne by lia. reflexivity.
Qed.

(** X17: [hashmapDestroyWithOwnership] with a visitor that asks for the
    removal of every slot, as a freeing visitor does. When the visitor's
    calls return, the visitor has been handed the occupied slots, each one
    once, in ascending slot order and each as it was stored before the
    teardown began; the failure diagnostic is not printed, the bucket
    array is freed and the structure is zeroed. *)
Theorem hashmapDestroyWithOwnership_removing {C : Type} (f : Visitor C)
    (hp : Heap) (hashmap : Hashmap.t) (context : C)
    (hp' : Heap) (hashmap' : Hashmap.t) (context' : C) (diagnostic : bool) :
  always_removes f ->
  hashmapDestroyWithOwnership hp hashmap f context
  = Some (hp', hashmap', context', diagnostic) ->
  visit_entries f (map (slot hashmap) (occupied hashmap)) context = Some context'
  /\ diagnostic = false
  /\ hp' = free hp (Hashmap.data hashmap)
  /\ hashmap' = zeroHashmap.
Proof.
  intros Hrm H. unfold hashmapDestroyWithOwnership in H.
  rewrite hashmapApplyIterator_visit_slots in H.
  destruct (visit_slots f (occupied hashmap) hashmap context) as [[[h1 c1] fl]|] eqn:E;
    [|discriminate].
  destruct (occupied_increasing hashmap) as [Hs Hp].
  destruct (visit_slots_removing f _ Hrm Hs Hp _ _ _ _ _ E) as (-> & Hlen & Hvis).
  cbn [hashmapDestroy Z.eqb negb] in H. inversion H; subst.
  split; [exact Hvis|]. split; [reflexivity|]. split; [|reflexivity].
  apply free_same_length. exact Hlen.
Qed.

(** ** Destroyed tables *)

(** X18: a destroyed table can be handed to the operations that do not
    hash: [hashmapPut] returns [1] without calling the allocator (the table
    counts as full and a capacity of [0] cannot be doubled), a second
    [hashmapDestroy] changes nothing, and a traversal visits no slot. *)
Theorem hashmapDestroy_then (hp : Heap) (hashmap : Hashmap.t) (key len value : Z) :
  hashmapPut mem calloc_ok (fst (hashmapDestroy hp hashmap))
    (snd (hashmapDestroy hp hashmap)) key len value
  = Some (fst (hashmapDestroy hp hashmap), snd (hashmapDestroy hp hashmap), 1)
  /\ hashmapDestroy (fst (hashmapDestroy hp hashmap)) (snd (hashmapDestroy hp hashmap))
     = hashmapDestroy hp hashmap
  /\ forall (C : Type) (f : Visitor C) (context : C),
       hashmapApplyIterator (snd (hashmapDestroy hp hashmap)) f context
       = Some (snd (hashmapDestroy hp hashmap), context, 0).
Proof.
  cbn [hashmapDestroy fst snd]. split; [|split].
  - unfold hashmapPut. rewrite put_fuel_eq, hashmapPut_fuel_eq.
    rewrite hashmapGetBucket_full by (cbn; lia). unfold hashmapExpand_with.
    change (u32 (2 * Hashmap.tableSize zeroHashmap)) with 0.
    rewrite hashmapCreate_invalid; [reflexivity|lia|].
    intros Hp. apply is_pow2_pos in Hp. lia.
  - reflexivity.
  - intros C f context. reflexivity.
Qed.

(** X19: [hashmapDestroy] releases what [hashmapCreate] allocated: after a
    successful creation followed by a destruction the number of live
    arrays is what it was before, and the structure is zeroed. *)
Theorem hashmapCreate_Destroy (hp : Heap) (initialSize : Z) (out : Hashmap.t)
    (hp1 : Heap) (hashmap : Hashmap.t) :
  0 <= initialSize < 2 ^ 32 ->
  hashmapCreate calloc_ok hp initialSize out = (hp1, hashmap, 0) ->
  hashmapDestroy hp1 hashmap = (mkHeap (S (calls hp)) (live hp), zeroHashmap).
Proof.
  intros Hr Hc.
  destruct ((initialSize =? 0) || negb (Z.land initialSize (u32 (initialSize - 1)) =? 0))
    eqn:Et.
  - unfold hashmapCreate in Hc. rewrite Et in Hc. inversion Hc.
  - apply pow2_test in Et; [|exact Hr]. pose proof (is_pow2_pos _ Et) as Hpos.
    rewrite hashmapCreate_valid in Hc by assumption.
    destruct (calloc_ok (calls hp)); inversion Hc; subst. unfold hashmapDestroy.
    cbn [Hashmap.data].
    destruct (Z.to_nat initialSize) as [|n] eqn:En; [lia|]. reflexivity.
Qed.

(** ** Sequences of insertions and removals *)

Lemma scan_ext (P Q : Z -> bool) (tableSize : Z) (n : nat) (curr : Z) :
  (forall i, P i = Q i) -> scan P tableSize n curr = scan Q tableSize n curr.
Proof.
  intros Hext. revert curr. induction n as [|n IH]; intros curr; [reflexivity|].
  cbn [scan]. rewrite Hext, IH. reflexivity.
Qed.

Lemma hashmapGet_key_eqb (hashmap : Hashmap.t) (key1 len1 key2 len2 : Z) :
  key_eqb mem key1 len1 key2 len2 = true ->
  hashmapGet mem hashmap key1 len1 = hashmapGet mem hashmap key2 len2.
Proof.
  intros Hk. rewrite !hashmapGet_scan.
  rewrite (hashmapStringHasher_key_eqb _ _ _ _ _ Hk).
  rewrite (scan_ext (fun i => occupied_by mem hashmap i key1 len1)
             (fun i => occupied_by mem hashmap i key2 len2)); [reflexivity|].
  intros i. apply occupied_by_congr. exact Hk.
Qed.

Lemma hashmapPut_get_after (hp : Heap) (hashmap : Hashmap.t) (key0 len0 value0 : Z)
    (hp' : Heap) (hashmap' : Hashmap.t) (key len : Z) :
  wf mem hashmap ->
  hashmapPut mem calloc_ok hp hashmap key0 len0 value0 = Some (hp', hashmap', 0) ->
  hashmapGet mem hashmap' key len
  = if key_eqb mem key len key0 len0 then value0 else hashmapGet mem hashmap key len.
Proof.
  intros Hwf Hp.
  destruct (hashmapPut_correct _ _ _ _ _ _ _ _ Hwf Hp) as (Hwf' & _ & _ & Hpost).
  destruct (Hpost eq_refl) as (Hh & _).
  destruct (key_eqb mem key len key0 len0) eqn:Hk.
  - apply hashmapGet_holds; [exact Hwf'|]. apply Hh. left. auto.
  - apply hashmapGet_bindings; [exact Hwf|exact Hwf'|].
    intros v. rewrite Hh, Hk. split.
    + intros [[Hf _]|[_ H]]; [discriminate|exact H].
    + intros H. right. auto.
Qed.

Lemma hashmapRemove_get_after (hashmap : Hashmap.t) (key0 len0 key len : Z) :
  wf mem hashmap ->
  hashmapGet mem (fst (hashmapRemove mem hashmap key0 len0)) key len
  = if key_eqb mem key len key0 len0 then NULL else hashmapGet mem hashmap key len.
Proof.
  intros Hwf. pose proof (wf_tableSize_range _ Hwf) as Hts.
  destruct (key_eqb mem key len key0 len0) eqn:Hk.
  - rewrite (hashmapGet_key_eqb _ _ _ _ _ Hk). rewrite hashmapRemove_scan.
    destruct (scan (fun i => occupied_by mem hashmap i key0 len0) _ _ _) as [i|] eqn:E;
      cbn [fst].
    + apply scan_window_Some in E as (j & Hj & -> & HP & _); [|exact Hts].
      apply hashmapGet_absent; [exact Hts|].
      apply (clear_slot_absent hashmap _ key0 len0 Hwf); [apply probe_range; lia|exact HP].
    + rewrite hashmapGet_scan, E. reflexivity.
  - rewrite hashmapRemove_scan.
    destruct (scan (fun i => occupied_by mem hashmap i key0 len0) _ _ _) as [i|] eqn:E;
      cbn [fst]; [|reflexivity].
    apply scan_window_Some in E as (j & Hj & -> & HP & _); [|exact Hts].
    assert (Hi : 0 <= probe mem hashmap key0 len0 j < Hashmap.tableSize hashmap)
      by (apply probe_range; lia).
    pose proof HP as Hu. apply andb_true_iff in Hu as [Hu _].
    apply hashmapGet_bindings; [exact Hwf|apply wf_clear_slot; assumption|].
    intros v. rewrite (clear_slot_holds _ _ key0 len0 key len v Hwf Hi HP). rewrite Hk.
    split; [intros [_ H]; exact H|intros H; auto].
Qed.

Lemma hashmapRemove_fst_wf (hashmap : Hashmap.t) (key len : Z) :
  wf mem hashmap -> wf mem (fst (hashmapRemove mem hashmap key len)).
Proof.
  intros Hwf.
  exact (hashmapRemove_wf _ _ _ _ _ Hwf (surjective_pairing (hashmapRemove mem hashmap key len))).
Qed.

End Properties.

(** * The worked scenario *)

(** The operations are evaluated as a whole from here on. *)
Opaque hashmapPut hashmapRemove.

Lemma run_reachable (mem : Z -> byte) (calloc_ok : nat -> bool)
    (allowed : forall C : Type, Visitor C -> Prop) (ops : list Op)
    (hp hp' : Heap) (hashmap hashmap' : Hashmap.t) :
  reachable_by mem calloc_ok allowed hashmap ->
  run mem calloc_ok ops hp hashmap = Some (hp', hashmap') ->
  reachable_by mem calloc_ok allowed hashmap'.
Proof.
  revert hp hashmap. induction ops as [|[key len value|key len] rest IH];
    intros hp h Hr H; cbn [run] in H.
  - inversion H; subst. exact Hr.
  - destruct (hashmapPut mem calloc_ok hp h key len value) as [[[hp1 h1] fl]|] eqn:E;
      [|discriminate].
    apply (IH hp1 h1); [|exact H].
    exact (reach_put mem calloc_ok allowed h hp key len value hp1 h1 fl Hr E).
  - apply (IH hp (fst (hashmapRemove mem h key len))); [|exact H].
    exact (reach_remove mem calloc_ok allowed h key len _ _ Hr
             (surjective_pairing (hashmapRemove mem h key len))).
Qed.

Lemma demo_table_reachable : reachable demo_mem demo_calloc_ok demo_table.
Proof.
  unfold reachable.
  apply (run_reachable demo_mem demo_calloc_ok _ demo_script demo_heap demo_heap
           (Hashmap.mk 16 0 (replicate 16 zeroElement))).
  - apply (reach_create demo_mem demo_calloc_ok _ (mkHeap 0 0) 16 zeroHashmap demo_heap);
      [lia|].
    vm_compute. reflexivity.
  - vm_compute. reflexivity.
Qed.

Lemma demo_table_wf : wf demo_mem demo_table.
Proof. apply (reachable_wf demo_mem demo_calloc_ok). exact demo_table_reachable. Qed.

(** C1 (the code departs from the claim): [demo_table] is reachable, holds
    nine entries and returns the value [107] for the key ["cj"]. With an
    allocator that serves the new array of [hashmapExpand] and refuses the
    next request, the ninth re-insertion needs a nested growth and fails:
    [hashmapExpand] returns [1], the new array stays allocated, and the old
    table is left with one entry of nine; the key ["cj"] is no longer
    found. *)
Theorem hashmapExpand_failure_drains_table :
  reachable demo_mem demo_calloc_ok demo_table
  /\ Hashmap.size demo_table = 9
  /\ hashmapGet demo_mem demo_table 0 2 = 107
  /\ hashmapExpand demo_mem demo_calloc_ok demo_heap demo_table
     = Some (mkHeap 3 2, demo_drained, 1)
  /\ Hashmap.tableSize demo_drained = Hashmap.tableSize demo_table
  /\ Hashmap.size demo_drained = 1
  /\ hashmapGet demo_mem demo_drained 0 2 = NULL.
Proof.
  split; [exact demo_table_reachable|].
  repeat split; vm_compute; reflexivity.
Qed.

(** ** The theorems at concrete inputs *)

Ltac enum16 j :=
  let E := fresh "E" in
  assert (E : j = 0 \/ j = 1 \/ j = 2 \/ j = 3 \/ j = 4 \/ j = 5 \/ j = 6 \/ j = 7
              \/ j = 8 \/ j = 9 \/ j = 10 \/ j = 11 \/ j = 12 \/ j = 13 \/ j = 14
              \/ j = 15)
    by (unfold HASHMAP_MAX_CHAIN_LENGTH in *; cbn in *; lia);
  repeat (destruct E as [E|E]); subst j.

Ltac by_evaluation := vm_compute; solve [reflexivity | discriminate | lia | intuition discriminate].

Lemma hashmapGetBucket_contract_witness :
  (Hashmap.size (Hashmap.mk 2 2 []) >= Hashmap.tableSize (Hashmap.mk 2 2 [])
   /\ forall slots, hashmapGetBucket demo_mem (Hashmap.mk 2 2 slots) 0 2 = None)
  /\ (0 <= Hashmap.size demo_table < Hashmap.tableSize demo_table
      /\ hashmapGetBucket demo_mem demo_table 0 2 = Some 0
      /\ hashmapGetBucket demo_mem demo_table 12 2 = Some 10)
  /\ (0 <= Hashmap.size demo_full_window < Hashmap.tableSize demo_full_window
      /\ hashmapGetBucket demo_mem demo_full_window 0 0 = None).
Proof.
  split; [|split].
  - assert (H : Hashmap.size (Hashmap.mk 2 2 []) >= Hashmap.tableSize (Hashmap.mk 2 2 []))
      by (cbn; lia).
    split; [exact H|].
    exact (proj1 (hashmapGetBucket_contract demo_mem (Hashmap.mk 2 2 []) 0 2) H).
  - assert (H : 0 <= Hashmap.size demo_table < Hashmap.tableSize demo_table)
      by (cbn; lia).
    split; [exact H|]. split.
    + destruct (proj1 (proj2 (hashmapGetBucket_contract demo_mem demo_table 0 2)) H
                  ltac:(cbn; lia)) as [H2 _].
      rewrite (H2 7).
      * by_evaluation.
      * unfold HASHMAP_MAX_CHAIN_LENGTH. lia.
      * by_evaluation.
      * intros j' Hj'. enum16 j'; try lia; by_evaluation.
    + destruct (proj1 (proj2 (hashmapGetBucket_contract demo_mem demo_table 12 2)) H
                  ltac:(cbn; lia)) as [_ H34].
      destruct H34 as [H3 _].
      * intros j Hj. enum16 j; try (unfold HASHMAP_MAX_CHAIN_LENGTH in Hj; lia);
          by_evaluation.
      * rewrite (H3 1).
        -- by_evaluation.
        -- unfold HASHMAP_MAX_CHAIN_LENGTH. lia.
        -- by_evaluation.
        -- intros j' Hj'. enum16 j'; try lia; by_evaluation.
  - assert (H : 0 <= Hashmap.size demo_full_window < Hashmap.tableSize demo_full_window)
      by (cbn; lia).
    split; [exact H|].
    destruct (proj1 (proj2 (hashmapGetBucket_contract demo_mem demo_full_window 0 0)) H
                ltac:(cbn; lia)) as [_ H34].
    destruct H34 as [_ H4].
    + intros j Hj. enum16 j; try (unfold HASHMAP_MAX_CHAIN_LENGTH in Hj; lia);
        by_evaluation.
    + apply H4. intros j Hj.
      enum16 j; try (unfold HASHMAP_MAX_CHAIN_LENGTH in Hj; lia); by_evaluation.
Defined.

Lemma hashmapCreate_spec_witness :
  0 <= 8 < 2 ^ 32
  /\ is_pow2 8
  /\ demo_calloc_ok (calls (mkHeap 0 0)) = true
  /\ (exists hashmap,
        hashmapCreate demo_calloc_ok (mkHeap 0 0) 8 zeroHashmap = (mkHeap 1 1, hashmap, 0)
        /\ Hashmap.size hashmap = 0
        /\ forall i, HashmapElement.used (slot hashmap i) = false)
  /\ snd (hashmapCreate demo_calloc_ok (mkHeap 0 0) 0 zeroHashmap) = 1
  /\ snd (hashmapCreate demo_calloc_ok (mkHeap 0 0) 3 zeroHashmap) = 1
  /\ hashmapCreate demo_calloc_ok (mkHeap 2 1) 8 zeroHashmap
     = (mkHeap 3 1, Hashmap.mk 8 0 [], 1).
Proof.
  assert (Hr : 0 <= 8 < 2 ^ 32) by lia.
  assert (Hp : is_pow2 8) by (exists 3; split; [lia|reflexivity]).
  assert (Hc : demo_calloc_ok (calls (mkHeap 0 0)) = true) by reflexivity.
  split; [exact Hr|]. split; [exact Hp|]. split; [exact Hc|].
  destruct (hashmapCreate_spec demo_mem demo_calloc_ok (mkHeap 0 0) 8 zeroHashmap Hr)
    as (_ & _ & Hok).
  split.
  { destruct (Hok Hp Hc) as (h & E & _ & Hsize & _ & Hfree & _).
    exists h. split; [exact E|]. split; [exact Hsize|exact Hfree]. }
  split.
  { destruct (hashmapCreate_spec demo_mem demo_calloc_ok (mkHeap 0 0) 0 zeroHashmap
                ltac:(lia)) as ([Hfail _] & _).
    exact (proj1 (Hfail (or_introl eq_refl))). }
  split.
  { destruct (hashmapCreate_spec demo_mem demo_calloc_ok (mkHeap 0 0) 3 zeroHashmap
                ltac:(lia)) as ([Hfail _] & _).
    apply Hfail. right. intros (k & Hk & E).
    assert (k = 0 \/ k = 1 \/ 2 <= k) as [->|[->|Hge]] by lia; try discriminate.
    assert (2 ^ 2 <= 2 ^ k) by (apply Z.pow_le_mono_r; lia). lia. }
  destruct (hashmapCreate_spec demo_mem demo_calloc_ok (mkHeap 2 1) 8 zeroHashmap Hr)
    as (_ & Hoom & _).
  exact (Hoom Hp eq_refl).
Defined.

Lemma hashmapCreate_invalid_writes_witness :
  0 <= 3 < 2 ^ 32
  /\ (3 = 0 \/ ~ is_pow2 3)
  /\ exists out',
       hashmapCreate demo_calloc_ok demo_heap 3 demo_table = (demo_heap, out', 1)
       /\ Hashmap.tableSize out' = 3
       /\ Hashmap.size out' = 0
       /\ Hashmap.data out' = Hashmap.data demo_table.
Proof.
  assert (Hr : 0 <= 3 < 2 ^ 32) by lia.
  assert (Hbad : 3 = 0 \/ ~ is_pow2 3).
  { right. intros (k & Hk & E).
    assert (k = 0 \/ k = 1 \/ 2 <= k) as [->|[->|Hge]] by lia; try discriminate.
    assert (2 ^ 2 <= 2 ^ k) by (apply Z.pow_le_mono_r; lia). lia. }
  split; [exact Hr|]. split; [exact Hbad|].
  exact (hashmapCreate_invalid_writes demo_calloc_ok demo_heap 3 demo_table Hr Hbad).
Defined.

Lemma hashmapStringHasher_pure_witness :
  Hashmap.tableSize demo_table = Hashmap.tableSize demo_full_window
  /\ (forall i, 0 <= i < 1 -> demo_mem (12 + i) = demo_mem (18 + i))
  /\ hashmapStringHasher demo_mem demo_table 12 1
     = hashmapStringHasher demo_mem demo_full_window 18 1
  /\ 0 <= hashmapStringHasher demo_mem demo_table 12 1 < Hashmap.tableSize demo_table.
Proof.
  assert (Hts : Hashmap.tableSize demo_table = Hashmap.tableSize demo_full_window)
    by reflexivity.
  assert (Hbytes : forall i, 0 <= i < 1 -> demo_mem (12 + i) = demo_mem (18 + i)).
  { intros i Hi. assert (i = 0) as -> by lia. reflexivity. }
  destruct (hashmapStringHasher_pure demo_mem demo_mem demo_table demo_full_window 12 18 1)
    as [Heq Hrange].
  split; [exact Hts|]. split; [exact Hbytes|].
  split; [exact (Heq Hts Hbytes)|]. apply Hrange. cbn. lia.
Defined.

Lemma window_lookup_witness :
  0 < Hashmap.tableSize demo_table < 2 ^ 32
  /\ probe demo_mem demo_table 0 2 7 = 0
  /\ HashmapElement.used (slot demo_table (probe demo_mem demo_table 0 2 6)) = false
  /\ hashmapGet demo_mem demo_table 0 2 = 107
  /\ hashmapRemove demo_mem demo_table 0 2 = (clear_slot demo_table 0, 0).
Proof.
  assert (Hts : 0 < Hashmap.tableSize demo_table < 2 ^ 32) by (cbn; lia).
  split; [exact Hts|]. split; [by_evaluation|]. split; [by_evaluation|].
  destruct (proj1 (window_lookup demo_mem demo_table 0 2 Hts) 7) as [Hget Hrm].
  - unfold HASHMAP_MAX_CHAIN_LENGTH. lia.
  - by_evaluation.
  - by_evaluation.
  - intros j' Hj'.
    enum16 j'; try lia; first [left; by_evaluation | right; by_evaluation].
  - split.
    + rewrite Hget. by_evaluation.
    + rewrite Hrm. replace (probe demo_mem demo_table 0 2 7) with 0 by by_evaluation.
      reflexivity.
Defined.

Lemma hashmapRemove_spec_witness :
  wf demo_mem demo_table
  /\ occupied_by demo_mem demo_table 0 0 2 = true
  /\ ~ present demo_mem demo_table 12 2
  /\ (exists hashmap',
        hashmapRemove demo_mem demo_table 0 2 = (hashmap', 0)
        /\ slot hashmap' 0 = zeroElement
        /\ Hashmap.size hashmap' = 8
        /\ hashmapGet demo_mem hashmap' 0 2 = NULL)
  /\ hashmapRemove demo_mem demo_table 12 2 = (demo_table, 1).
Proof.
  assert (Ho : occupied_by demo_mem demo_table 0 0 2 = true) by by_evaluation.
  assert (Habs : ~ present demo_mem demo_table 12 2).
  { intros (i & Hi & Hoi). cbn in Hi. revert Hoi. enum16 i; by_evaluation. }
  destruct (hashmapRemove_spec demo_mem demo_table 0 2 demo_table_wf) as [Hpresent _].
  destruct (hashmapRemove_spec demo_mem demo_table 12 2 demo_table_wf) as [_ Habsent].
  split; [exact demo_table_wf|]. split; [exact Ho|]. split; [exact Habs|]. split.
  - destruct (Hpresent 0 ltac:(cbn; lia) Ho) as (h' & E & Hz & _ & Hsize & _ & _ & Hget).
    exists h'. split; [exact E|]. split; [exact Hz|]. split; [exact Hsize|exact Hget].
  - exact (Habsent Habs).
Defined.

Lemma demo_small_reachable : reachable demo_mem demo_calloc_ok demo_small.
Proof.
  unfold reachable.
  apply (run_reachable demo_mem demo_calloc_ok _ demo_small_script demo_heap demo_heap
           (Hashmap.mk 2 0 (replicate 2 zeroElement))).
  - apply (reach_create demo_mem demo_calloc_ok _ (mkHeap 0 0) 2 zeroHashmap demo_heap);
      [lia|].
    vm_compute. reflexivity.
  - vm_compute. reflexivity.
Qed.

Lemma demo_small_wf : wf demo_mem demo_small.
Proof. apply (reachable_wf demo_mem demo_calloc_ok). exact demo_small_reachable. Qed.

Lemma bump_values_keeps_key : keeps_key demo_mem bump_values.
Proof.
  intros c e c' e' fl H. inversion H. cbn [HashmapElement.used HashmapElement.key
    HashmapElement.keyLen]. split; [reflexivity|apply key_eqb_refl].
Qed.

Lemma reachable_invariants_witness :
  exists hashmap,
    hashmapApplyIterator demo_table bump_values tt = Some (hashmap, tt, 0)
    /\ hashmapGet demo_mem hashmap 0 2 = 108
    /\ reachable_by demo_mem demo_calloc_ok (@keeps_key demo_mem) hashmap
    /\ is_pow2 (Hashmap.tableSize hashmap)
    /\ Hashmap.tableSize hashmap <> 0
    /\ 0 <= Hashmap.size hashmap <= Hashmap.tableSize hashmap
    /\ no_duplicates demo_mem hashmap.
Proof.
  destruct (hashmapApplyIterator demo_table bump_values tt) as [[[h c] fl]|] eqn:E;
    [|exfalso; vm_compute in E; discriminate].
  assert (Hfl : fl = 0) by (pose proof E as E'; vm_compute in E'; inversion E'; reflexivity).
  assert (Hget : hashmapGet demo_mem h 0 2 = 108).
  { pose proof E as E'. vm_compute in E'. inversion E'. vm_compute. reflexivity. }
  subst fl. destruct c. exists h. split; [reflexivity|]. split; [exact Hget|].
  assert (Hr : reachable_by demo_mem demo_calloc_ok (@keeps_key demo_mem) h).
  { apply (reach_apply demo_mem demo_calloc_ok (@keeps_key demo_mem) unit demo_table
             bump_values tt h tt 0); [|exact bump_values_keeps_key|exact E].
    apply (reachable_by_mono demo_mem demo_calloc_ok
             (fun (C : Type) (f : Visitor C) => read_only f)).
    - intros C f. apply read_only_keeps_key.
    - exact demo_table_reachable. }
  split; [exact Hr|].
  exact (reachable_invariants demo_mem demo_calloc_ok h Hr).
Defined.

(** C4, the claim as it is worded, with any visitor: false. The header
    hands the visitor a writable element; [alias_keys] stores the key
    pointer of ["cj"] in both slots of the reachable table [demo_small],
    and the table it leaves, reachable too, holds the key twice. *)
Lemma reachable_invariants_any_visitor_fails :
  reachable demo_mem demo_calloc_ok demo_small
  /\ hashmapApplyIterator demo_small alias_keys tt = Some (demo_aliased, tt, 0)
  /\ reachable_any demo_mem demo_calloc_ok demo_aliased
  /\ ~ no_duplicates demo_mem demo_aliased.
Proof.
  assert (E : hashmapApplyIterator demo_small alias_keys tt = Some (demo_aliased, tt, 0))
    by (vm_compute; reflexivity).
  split; [exact demo_small_reachable|]. split; [exact E|]. split.
  - unfold reachable_any.
    apply (reach_apply demo_mem demo_calloc_ok _ unit demo_small alias_keys tt
             demo_aliased tt 0); [|exact I|exact E].
    apply (reachable_by_mono demo_mem demo_calloc_ok
             (fun (C : Type) (f : Visitor C) => read_only f)).
    + intros C f _. exact I.
    + exact demo_small_reachable.
  - intros Hnodup.
    assert (H01 : (1 : Z) = 0).
    { apply (Hnodup 0 1); [cbn; lia|cbn; lia|reflexivity|].
      vm_compute. reflexivity. }
    discriminate H01.
Qed.

Lemma hashmapPut_overwrites_witness :
  wf demo_mem demo_small
  /\ Hashmap.size demo_small >= Hashmap.tableSize demo_small
  /\ key_eqb demo_mem 12 1 18 1 = true
  /\ exists hp1 hashmap1 hp2 hashmap2,
       hashmapPut demo_mem demo_calloc_ok demo_heap demo_small 12 1 1001
       = Some (hp1, hashmap1, 0)
       /\ hashmapPut demo_mem demo_calloc_ok hp1 hashmap1 18 1 1002
          = Some (hp2, hashmap2, 0)
       /\ Hashmap.tableSize hashmap1 = 2 * Hashmap.tableSize demo_small
       /\ Hashmap.size hashmap1 = Hashmap.size demo_small + 1
       /\ Hashmap.size hashmap2 = Hashmap.size hashmap1
       /\ hashmapGet demo_mem hashmap2 12 1 = 1002.
Proof.
  assert (Hfull : Hashmap.size demo_small >= Hashmap.tableSize demo_small) by (cbn; lia).
  assert (Hk : key_eqb demo_mem 12 1 18 1 = true) by by_evaluation.
  split; [exact demo_small_wf|]. split; [exact Hfull|]. split; [exact Hk|].
  destruct (hashmapPut_overwrites demo_mem demo_calloc_ok demo_heap demo_small
              12 18 1 1001 1002 demo_small_wf Hk) as (hp1 & h1 & f1 & E1 & _ & _ & H1).
  assert (Hf1 : f1 = 0).
  { vm_compute in E1. inversion E1. reflexivity. }
  assert (Hts : Hashmap.tableSize h1 = 2 * Hashmap.tableSize demo_small).
  { vm_compute in E1. inversion E1. reflexivity. }
  subst f1. destruct (H1 eq_refl) as (_ & Hgrow & _ & hp2 & h2 & f2 & E2 & _ & _ & H2).
  assert (Hf2 : f2 = 0).
  { revert E2. vm_compute in E1. inversion E1; subst hp1 h1. intros E2.
    vm_compute in E2. inversion E2. reflexivity. }
  subst f2. destruct (H2 eq_refl) as (Hget & _ & Hsame & _).
  exists hp1, h1, hp2, h2. split; [exact E1|]. split; [exact E2|].
  split; [exact Hts|]. split; [|split; [exact Hsame|exact Hget]].
  apply Hgrow. intros (i & Hi & Hoi). cbn in Hi.
  assert (Ei : i = 0 \/ i = 1) by lia. revert Hoi.
  destruct Ei as [->| ->]; by_evaluation.
Defined.

(** C3, the claim as it is worded, for every put: false. On the full
    and well-formed table [demo_small], with an allocator that refuses the
    new array, both calls return [1] and store nothing: [hashmapGet] does
    not return the second value. *)
Lemma hashmapPut_overwrites_refused :
  wf demo_mem demo_small
  /\ hashmapPut demo_mem demo_calloc_ok (mkHeap 2 1) demo_small 12 1 1001
     = Some (mkHeap 3 1, demo_small, 1)
  /\ hashmapPut demo_mem demo_calloc_ok (mkHeap 3 1) demo_small 12 1 1002
     = Some (mkHeap 4 1, demo_small, 1)
  /\ hashmapGet demo_mem demo_small 12 1 <> 1002.
Proof.
  split; [exact demo_small_wf|].
  split; [vm_compute; reflexivity|]. split; [vm_compute; reflexivity|].
  vm_compute. discriminate.
Qed.


(** * Sequences of operations *)

Section Sequences.

Variable mem : Z -> byte.
Variable calloc_ok : nat -> bool.

(** X20: the table is an associative map. After any sequence of
    insertions and removals in which every [hashmapPut] succeeded, started
    on a well-formed table, [hashmapGet] returns for every key what the
    last operation on an equal key decides: the value of the last
    insertion, the null pointer after a removal, and what it returned at
    the start when the sequence has no operation on the key; rehashing on
    the way changes nothing of this. *)
Theorem run_checked_lookup (ops : list Op) (hp : Heap) (hashmap : Hashmap.t)
    (hp' : Heap) (hashmap' : Hashmap.t) :
  wf mem hashmap ->
  run_checked mem calloc_ok ops hp hashmap = Some (hp', hashmap') ->
  wf mem hashmap'
  /\ forall key len,
       hashmapGet mem hashmap' key len
       = lookup_after mem ops (hashmapGet mem hashmap key len) key len.
Proof.
  revert hp hashmap.
  induction ops as [|[key0 len0 value0|key0 len0] rest IH]; intros hp h Hwf H;
    cbn [run_checked] in H.
  - inversion H; subst. split; [exact Hwf|reflexivity].
  - destruct (hashmapPut mem calloc_ok hp h key0 len0 value0) as [[[hp1 h1] fl]|] eqn:Ep;
      [|discriminate].
    destruct (fl =? 0) eqn:E0; [|discriminate]. apply Z.eqb_eq in E0. subst fl.
    destruct (hashmapPut_correct mem calloc_ok _ _ _ _ _ _ _ _ Hwf Ep) as [Hwf1 _].
    destruct (IH hp1 h1 Hwf1 H) as [Hwf' Hget]. split; [exact Hwf'|].
    intros key len. rewrite Hget. cbn [lookup_after].
    rewrite (hashmapPut_get_after mem calloc_ok _ _ _ _ _ _ _ key len Hwf Ep). reflexivity.
  - pose proof (hashmapRemove_fst_wf mem h key0 len0 Hwf) as Hwf1.
    destruct (IH hp _ Hwf1 H) as [Hwf' Hget]. split; [exact Hwf'|].
    intros key len. rewrite Hget. cbn [lookup_after].
    rewrite (hashmapRemove_get_after mem h key0 len0 key len Hwf). reflexivity.
Qed.

End Sequences.

(** ** The further properties at concrete inputs *)

Lemma demo_absent_a : ~ present demo_mem demo_table 12 1.
Proof. intros (i & Hi & Hoi). revert Hoi. enum16 i; by_evaluation. Qed.

Lemma demo_present_cj : present demo_mem demo_table 0 2.
Proof. exists 0. split; [cbn; lia|by_evaluation]. Qed.

Lemma hashmapGetBucket_result_witness :
  0 < Hashmap.tableSize demo_table < 2 ^ 32
  /\ hashmapGetBucket demo_mem demo_table 0 2 = Some 0
  /\ occupied_by demo_mem demo_table 0 0 2 = true
  /\ hashmapGetBucket demo_mem demo_full_window 0 0 = None
  /\ HashmapElement.used (slot demo_full_window (probe demo_mem demo_full_window 0 0 7))
     = true.
Proof.
  assert (Hts : 0 < Hashmap.tableSize demo_table < 2 ^ 32) by (cbn; lia).
  assert (Hts' : 0 < Hashmap.tableSize demo_full_window < 2 ^ 32) by (cbn; lia).
  assert (E : hashmapGetBucket demo_mem demo_table 0 2 = Some 0) by by_evaluation.
  assert (E' : hashmapGetBucket demo_mem demo_full_window 0 0 = None) by by_evaluation.
  split; [exact Hts|]. split; [exact E|]. split; [|split; [exact E'|]].
  - destruct (proj1 (hashmapGetBucket_result demo_mem demo_table 0 2 Hts) 0 E)
      as (_ & _ & _ & [Ho|[Hu _]]); [exact Ho|].
    exfalso. revert Hu. by_evaluation.
  - destruct (proj2 (hashmapGetBucket_result demo_mem demo_full_window 0 0 Hts') E')
      as [Hfull|Hwin].
    + exfalso. revert Hfull. cbn. lia.
    + apply (Hwin 7). unfold HASHMAP_MAX_CHAIN_LENGTH. lia.
Defined.

Lemma hashmapGet_complete_witness :
  wf demo_mem demo_table
  /\ holds demo_mem demo_table 0 2 107
  /\ ~ present demo_mem demo_table 12 1
  /\ hashmapGet demo_mem demo_table 0 2 = 107
  /\ hashmapGet demo_mem demo_table 12 1 = NULL.
Proof.
  assert (Hh : holds demo_mem demo_table 0 2 107).
  { exists 0. split; [cbn; lia|]. split; by_evaluation. }
  destruct (hashmapGet_complete demo_mem demo_table 0 2 demo_table_wf) as (Hfound & _).
  destruct (hashmapGet_complete demo_mem demo_table 12 1 demo_table_wf) as (_ & Hnone & _).
  split; [exact demo_table_wf|]. split; [exact Hh|]. split; [exact demo_absent_a|].
  split; [exact (Hfound 107 Hh)|exact (Hnone demo_absent_a)].
Defined.

Lemma hashmapPut_frame_witness :
  wf demo_mem demo_table
  /\ key_eqb demo_mem 0 2 12 1 = false
  /\ exists hp' hashmap',
       hashmapPut demo_mem demo_calloc_ok demo_heap demo_table 12 1 1001
       = Some (hp', hashmap', 0)
       /\ hashmapGet demo_mem hashmap' 0 2 = hashmapGet demo_mem demo_table 0 2
       /\ hashmapGet demo_mem hashmap' 12 1 = 1001.
Proof.
  assert (Hk : key_eqb demo_mem 0 2 12 1 = false) by by_evaluation.
  split; [exact demo_table_wf|]. split; [exact Hk|].
  destruct (hashmapPut demo_mem demo_calloc_ok demo_heap demo_table 12 1 1001)
    as [[[hp' h'] fl]|] eqn:E; [|exfalso; vm_compute in E; discriminate].
  assert (Hfl : fl = 0) by (pose proof E as E'; vm_compute in E'; inversion E'; reflexivity).
  subst fl. exists hp', h'. split; [reflexivity|].
  destruct (hashmapPut_frame demo_mem demo_calloc_ok _ _ _ _ _ _ _ demo_table_wf E)
    as (Hother & Hself & _).
  split; [exact (Hother 0 2 Hk)|exact Hself].
Defined.

Lemma hashmapRemove_frame_witness :
  wf demo_mem demo_table
  /\ key_eqb demo_mem 2 2 0 2 = false
  /\ hashmapGet demo_mem (fst (hashmapRemove demo_mem demo_table 0 2)) 2 2
     = hashmapGet demo_mem demo_table 2 2
  /\ Hashmap.tableSize (fst (hashmapRemove demo_mem demo_table 0 2))
     = Hashmap.tableSize demo_table.
Proof.
  assert (Hk : key_eqb demo_mem 2 2 0 2 = false) by by_evaluation.
  split; [exact demo_table_wf|]. split; [exact Hk|].
  exact (hashmapRemove_frame demo_mem demo_table 0 2 2 2 demo_table_wf Hk).
Defined.

Lemma hashmapExpand_preserves_witness :
  wf demo_mem demo_small
  /\ exists hp' hashmap',
       hashmapExpand demo_mem demo_calloc_ok demo_heap demo_small = Some (hp', hashmap', 0)
       /\ Hashmap.tableSize hashmap' = 4
       /\ Hashmap.size hashmap' = Hashmap.size demo_small
       /\ forall key len,
            hashmapGet demo_mem hashmap' key len = hashmapGet demo_mem demo_small key len.
Proof.
  split; [exact demo_small_wf|].
  destruct (hashmapExpand demo_mem demo_calloc_ok demo_heap demo_small)
    as [[[hp' h'] fl]|] eqn:E; [|exfalso; vm_compute in E; discriminate].
  assert (Hfl : fl = 0) by (pose proof E as E'; vm_compute in E'; inversion E'; reflexivity).
  assert (Hts : Hashmap.tableSize h' = 4)
    by (pose proof E as E'; vm_compute in E'; inversion E'; reflexivity).
  subst fl. exists hp', h'. split; [reflexivity|]. split; [exact Hts|].
  destruct (hashmapExpand_preserves demo_mem demo_calloc_ok _ _ _ _ demo_small_wf E)
    as (_ & _ & Hsize & Hget).
  split; [exact Hsize|exact Hget].
Defined.

Lemma hashmapExpand_failure_witness :
  wf demo_mem demo_table
  /\ (exists hp' hashmap',
        hashmapExpand demo_mem demo_calloc_ok demo_heap demo_table = Some (hp', hashmap', 1)
        /\ Hashmap.tableSize hashmap' = Hashmap.tableSize demo_table
        /\ forall key len,
             hashmapGet demo_mem hashmap' key len = hashmapGet demo_mem demo_table key len
             \/ hashmapGet demo_mem hashmap' key len = NULL)
  /\ demo_calloc_ok (calls (mkHeap 2 1)) = false
  /\ exists hp',
       hashmapExpand demo_mem demo_calloc_ok (mkHeap 2 1) demo_table
       = Some (hp', demo_table, 1).
Proof.
  split; [exact demo_table_wf|]. split.
  - destruct (hashmapExpand demo_mem demo_calloc_ok demo_heap demo_table)
      as [[[hp' h'] fl]|] eqn:E; [|exfalso; vm_compute in E; discriminate].
    assert (Hfl : fl = 1) by (pose proof E as E'; vm_compute in E'; inversion E'; reflexivity).
    subst fl. exists hp', h'. split; [reflexivity|].
    destruct (hashmapExpand_failure demo_mem demo_calloc_ok _ _ _ _ _ demo_table_wf E
                ltac:(discriminate)) as (_ & _ & Hts & Hget & _).
    split; [exact Hts|exact Hget].
  - assert (Hc : demo_calloc_ok (calls (mkHeap 2 1)) = false) by reflexivity.
    split; [exact Hc|].
    destruct (hashmapExpand demo_mem demo_calloc_ok (mkHeap 2 1) demo_table)
      as [[[hp' h'] fl]|] eqn:E; [|exfalso; vm_compute in E; discriminate].
    assert (Hfl : fl = 1) by (pose proof E as E'; vm_compute in E'; inversion E'; reflexivity).
    subst fl. exists hp'.
    destruct (hashmapExpand_failure demo_mem demo_calloc_ok _ _ _ _ _ demo_table_wf E
                ltac:(discriminate)) as (_ & _ & _ & _ & Hsame).
    rewrite (Hsame Hc). reflexivity.
Defined.

Lemma hashmapExpand_at_max_witness :
  Hashmap.tableSize (Hashmap.mk (2 ^ 31) 5 []) = 2 ^ 31
  /\ hashmapExpand demo_mem demo_calloc_ok demo_heap (Hashmap.mk (2 ^ 31) 5 [])
     = Some (demo_heap, Hashmap.mk (2 ^ 31) 5 [], 1).
Proof.
  assert (H : Hashmap.tableSize (Hashmap.mk (2 ^ 31) 5 []) = 2 ^ 31) by reflexivity.
  split; [exact H|].
  exact (hashmapExpand_at_max demo_mem demo_calloc_ok demo_heap _ H).
Defined.

Lemma hashmapPut_update_in_place_witness :
  wf demo_mem demo_table
  /\ present demo_mem demo_table 0 2
  /\ Hashmap.size demo_table < Hashmap.tableSize demo_table
  /\ exists hashmap',
       hashmapPut demo_mem demo_calloc_ok (mkHeap 7 1) demo_table 0 2 555
       = Some (mkHeap 7 1, hashmap', 0)
       /\ Hashmap.size hashmap' = Hashmap.size demo_table
       /\ hashmapGet demo_mem hashmap' 0 2 = 555.
Proof.
  assert (Hroom : Hashmap.size demo_table < Hashmap.tableSize demo_table) by (cbn; lia).
  split; [exact demo_table_wf|]. split; [exact demo_present_cj|]. split; [exact Hroom|].
  destruct (hashmapPut_update_in_place demo_mem demo_calloc_ok (mkHeap 7 1) demo_table
              0 2 555 demo_table_wf demo_present_cj Hroom)
    as (h' & E & _ & Hsize & _ & Hget).
  exists h'. split; [exact E|]. split; [exact Hsize|exact Hget].
Defined.

Lemma hashmapPut_full_table_witness :
  wf demo_mem demo_small
  /\ Hashmap.size demo_small >= Hashmap.tableSize demo_small
  /\ (exists hp' hashmap',
        hashmapPut demo_mem demo_calloc_ok demo_heap demo_small 0 2 555
        = Some (hp', hashmap', 0)
        /\ 2 * Hashmap.tableSize demo_small <= Hashmap.tableSize hashmap')
  /\ demo_calloc_ok (calls (mkHeap 2 1)) = false
  /\ exists hp',
       hashmapPut demo_mem demo_calloc_ok (mkHeap 2 1) demo_small 0 2 555
       = Some (hp', demo_small, 1).
Proof.
  assert (Hfull : Hashmap.size demo_small >= Hashmap.tableSize demo_small) by (cbn; lia).
  destruct (hashmapPut_full_table demo_mem demo_calloc_ok demo_heap demo_small 0 2 555
              demo_small_wf Hfull) as [Hgrow _].
  destruct (hashmapPut_full_table demo_mem demo_calloc_ok (mkHeap 2 1) demo_small 0 2 555
              demo_small_wf Hfull) as [_ Hrefused].
  split; [exact demo_small_wf|]. split; [exact Hfull|]. split.
  - destruct (hashmapPut demo_mem demo_calloc_ok demo_heap demo_small 0 2 555)
      as [[[hp' h'] fl]|] eqn:E; [|exfalso; vm_compute in E; discriminate].
    assert (Hfl : fl = 0) by (pose proof E as E'; vm_compute in E'; inversion E'; reflexivity).
    subst fl. exists hp', h'. split; [reflexivity|]. exact (Hgrow hp' h' eq_refl).
  - split; [reflexivity|]. exact (Hrefused eq_refl).
Defined.

Lemma hashmapPut_then_Remove_witness :
  wf demo_mem demo_table
  /\ ~ present demo_mem demo_table 12 1
  /\ exists hp' hashmap' hashmap'',
       hashmapPut demo_mem demo_calloc_ok demo_heap demo_table 12 1 1001
       = Some (hp', hashmap', 0)
       /\ hashmapRemove demo_mem hashmap' 12 1 = (hashmap'', 0)
       /\ Hashmap.size hashmap'' = Hashmap.size demo_table
       /\ forall key' len',
            hashmapGet demo_mem hashmap'' key' len' = hashmapGet demo_mem demo_table key' len'.
Proof.
  split; [exact demo_table_wf|]. split; [exact demo_absent_a|].
  destruct (hashmapPut demo_mem demo_calloc_ok demo_heap demo_table 12 1 1001)
    as [[[hp' h'] fl]|] eqn:E; [|exfalso; vm_compute in E; discriminate].
  assert (Hfl : fl = 0) by (pose proof E as E'; vm_compute in E'; inversion E'; reflexivity).
  subst fl.
  destruct (hashmapPut_then_Remove demo_mem demo_calloc_ok _ _ _ _ _ _ _
              demo_table_wf demo_absent_a E) as (h'' & Hrm & _ & Hsize & Hget).
  exists hp', h', h''. split; [reflexivity|]. split; [exact Hrm|].
  split; [exact Hsize|exact Hget].
Defined.

Lemma hashmapPut_live_arrays_witness :
  wf demo_mem demo_small
  /\ exists hp' hashmap',
       hashmapPut demo_mem demo_calloc_ok demo_heap demo_small 22 2 115
       = Some (hp', hashmap', 0)
       /\ calls hp' = 2%nat
       /\ live hp' = live demo_heap.
Proof.
  split; [exact demo_small_wf|].
  destruct (hashmapPut demo_mem demo_calloc_ok demo_heap demo_small 22 2 115)
    as [[[hp' h'] fl]|] eqn:E; [|exfalso; vm_compute in E; discriminate].
  assert (Hfl : fl = 0) by (pose proof E as E'; vm_compute in E'; inversion E'; reflexivity).
  assert (Hcalls : calls hp' = 2%nat)
    by (pose proof E as E'; vm_compute in E'; inversion E'; reflexivity).
  subst fl. exists hp', h'. split; [reflexivity|]. split; [exact Hcalls|].
  exact (proj2 (hashmapPut_live_arrays demo_mem demo_calloc_ok _ _ _ _ _ _ _ _
                  demo_small_wf E) eq_refl).
Defined.

Lemma hashmapExpand_live_arrays_witness :
  wf demo_mem demo_small /\ wf demo_mem demo_table
  /\ (exists hp' hashmap',
        hashmapExpand demo_mem demo_calloc_ok demo_heap demo_small = Some (hp', hashmap', 0)
        /\ live hp' = live demo_heap)
  /\ exists hp' hashmap',
       hashmapExpand demo_mem demo_calloc_ok demo_heap demo_table = Some (hp', hashmap', 1)
       /\ hashmap' <> demo_table
       /\ (live demo_heap < live hp')%nat.
Proof.
  split; [exact demo_small_wf|]. split; [exact demo_table_wf|]. split.
  - destruct (hashmapExpand demo_mem demo_calloc_ok demo_heap demo_small)
      as [[[hp' h'] fl]|] eqn:E; [|exfalso; vm_compute in E; discriminate].
    assert (Hfl : fl = 0) by (pose proof E as E'; vm_compute in E'; inversion E'; reflexivity).
    subst fl. exists hp', h'. split; [reflexivity|].
    exact (proj1 (hashmapExpand_live_arrays demo_mem demo_calloc_ok _ _ _ _ _
                    demo_small_wf E) eq_refl).
  - destruct (hashmapExpand demo_mem demo_calloc_ok demo_heap demo_table)
      as [[[hp' h'] fl]|] eqn:E; [|exfalso; vm_compute in E; discriminate].
    assert (Hfl : fl = 1) by (pose proof E as E'; vm_compute in E'; inversion E'; reflexivity).
    assert (Hne : h' <> demo_table).
    { pose proof E as E'. vm_compute in E'. inversion E'. discriminate. }
    subst fl. exists hp', h'. split; [reflexivity|]. split; [exact Hne|].
    destruct (proj2 (hashmapExpand_live_arrays demo_mem demo_calloc_ok _ _ _ _ _
                       demo_table_wf E) ltac:(discriminate)) as [[Hsame _]|Hleak].
    + contradiction.
    + exact Hleak.
Defined.

Lemma hashmapApplyIterator_remove_all_witness :
  wf demo_mem demo_table
  /\ always_removes remove_all
  /\ exists hashmap',
       hashmapApplyIterator demo_table remove_all tt = Some (hashmap', tt, 0)
       /\ Hashmap.size hashmap' = 0
       /\ forall i, 0 <= i < Hashmap.tableSize demo_table ->
            HashmapElement.used (slot hashmap' i) = false.
Proof.
  assert (Hf : always_removes remove_all).
  { intros c e c' e' fl H. inversion H. reflexivity. }
  split; [exact demo_table_wf|]. split; [exact Hf|].
  destruct (hashmapApplyIterator demo_table remove_all tt) as [[[h' c'] fl]|] eqn:E;
    [|exfalso; vm_compute in E; discriminate].
  destruct (@hashmapApplyIterator_remove_all demo_mem unit remove_all demo_table h' tt c' fl
              demo_table_wf Hf E) as (-> & Hsize & _ & _ & Hfree).
  destruct c'. exists h'. split; [reflexivity|]. split; [exact Hsize|exact Hfree].
Defined.

Lemma hashmapApplyIterator_read_only_witness :
  read_only keep_all
  /\ never_removes keep_all
  /\ hashmapApplyIterator demo_table keep_all 0%nat = Some (demo_table, 9%nat, 0).
Proof.
  assert (Hro : read_only keep_all).
  { intros c e c' e' fl H. inversion H. reflexivity. }
  assert (Hnr : never_removes keep_all).
  { intros c e c' e' fl H. inversion H. discriminate. }
  split; [exact Hro|]. split; [exact Hnr|].
  destruct (hashmapApplyIterator demo_table keep_all 0%nat) as [[[h' c'] fl]|] eqn:E;
    [|exfalso; vm_compute in E; discriminate].
  assert (Hc : c' = 9%nat /\ fl = 0).
  { pose proof E as E'. vm_compute in E'. inversion E'. split; reflexivity. }
  destruct Hc as [-> ->].
  rewrite (@hashmapApplyIterator_read_only nat keep_all demo_table h' 0%nat 9%nat 0 Hro Hnr E).
  reflexivity.
Defined.

Lemma hashmapCreate_Destroy_witness :
  0 <= 8 < 2 ^ 32
  /\ exists hp1 hashmap,
       hashmapCreate demo_calloc_ok (mkHeap 0 0) 8 zeroHashmap = (hp1, hashmap, 0)
       /\ hashmapDestroy hp1 hashmap = (mkHeap 1 0, zeroHashmap).
Proof.
  assert (Hr : 0 <= 8 < 2 ^ 32) by lia. split; [exact Hr|].
  destruct (hashmapCreate demo_calloc_ok (mkHeap 0 0) 8 zeroHashmap) as [[hp1 h] fl] eqn:E.
  assert (Hfl : fl = 0) by (pose proof E as E'; vm_compute in E'; inversion E'; reflexivity).
  subst fl. exists hp1, h. split; [reflexivity|].
  exact (hashmapCreate_Destroy demo_calloc_ok (mkHeap 0 0) 8 zeroHashmap hp1 h Hr E).
Defined.

Lemma run_checked_lookup_witness :
  wf demo_mem (Hashmap.mk 2 0 (replicate 2 zeroElement))
  /\ exists hp' hashmap',
       run_checked demo_mem demo_calloc_ok demo_mixed_script demo_heap
         (Hashmap.mk 2 0 (replicate 2 zeroElement)) = Some (hp', hashmap')
       /\ hashmapGet demo_mem hashmap' 12 1 = 3
       /\ hashmapGet demo_mem hashmap' 13 1 = 3
       /\ hashmapGet demo_mem hashmap' 0 2 = NULL
       /\ hashmapGet demo_mem hashmap' 22 2 = NULL.
Proof.
  assert (Hwf : wf demo_mem (Hashmap.mk 2 0 (replicate 2 zeroElement)))
    by (apply (wf_fresh demo_mem 1); lia).
  split; [exact Hwf|].
  destruct (run_checked demo_mem demo_calloc_ok demo_mixed_script demo_heap
              (Hashmap.mk 2 0 (replicate 2 zeroElement))) as [[hp' h']|] eqn:E;
    [|exfalso; vm_compute in E; discriminate].
  exists hp', h'. split; [reflexivity|].
  destruct (run_checked_lookup demo_mem demo_calloc_ok _ _ _ _ _ Hwf E) as [_ Hget].
  rewrite !Hget. repeat split; by_evaluation.
Defined.

Lemma hashmapDestroyWithOwnership_removing_witness :
  always_removes collect_values
  /\ hashmapDestroyWithOwnership demo_heap demo_table collect_values []
     = Some (mkHeap 1 0, zeroHashmap, [107; 108; 109; 110; 111; 112; 113; 114; 115], false)
  /\ visit_entries collect_values (map (slot demo_table) (occupied demo_table)) []
     = Some [107; 108; 109; 110; 111; 112; 113; 114; 115].
Proof.
  assert (Hrm : always_removes collect_values).
  { intros c e c' e' fl H. inversion H. reflexivity. }
  assert (E : hashmapDestroyWithOwnership demo_heap demo_table collect_values []
              = Some (mkHeap 1 0, zeroHashmap,
                      [107; 108; 109; 110; 111; 112; 113; 114; 115], false))
    by (vm_compute; reflexivity).
  split; [exact Hrm|]. split; [exact E|].
  exact (proj1 (@hashmapDestroyWithOwnership_removing (list Z) collect_values demo_heap
                  demo_table [] _ _ _ _ Hrm E)).
Defined.
